(** * The SEARCH/REPLACE patch engine of [output_format.py]

    A shallow embedding of the patch application engine
    ([SearchReplaceFormatter] and [_apply_search_replace_format]) together
    with the properties its specification states about it.

    Python strings are sequences of Unicode code points: a character is a
    code point in [N] and a string a list of them.  The few methods of [str]
    and [re] that the engine calls are modelled first, then the engine
    itself, function by function, then the theorems. *)

From Stdlib Require Import String Ascii DecimalString DecimalNat.
From Stdlib Require Import List NArith ZArith Arith Bool Lia Sorted.
Import ListNotations.

(** ** Characters and strings *)

Definition char := N.
Definition str := list char.

(** Literals are written the way Python writes them: [py "A\nA\n"] reads the
    escapes [\n], [\r], [\t] and [\\]. *)
Fixpoint unescape (esc : bool) (l : list ascii) : str :=
  match l with
  | [] => []
  | a :: r =>
      let c := N_of_ascii a in
      if esc then
        (if N.eqb c 110 then 10%N
         else if N.eqb c 114 then 13%N
         else if N.eqb c 116 then 9%N
         else c) :: unescape false r
      else if N.eqb c 92 then unescape true r
      else c :: unescape false r
  end.

Definition py (x : string) : str := unescape false (list_ascii_of_string x).

Definition LF : char := 10%N.
Definition CR : char := 13%N.
Definition SPACE : char := 32%N.
Definition BACKTICK : char := 96%N.

Fixpoint str_eqb (a b : str) : bool :=
  match a, b with
  | [], [] => true
  | x :: a', y :: b' => N.eqb x y && str_eqb a' b'
  | _, _ => false
  end.

(** [c.isspace()], which is also what [\s] matches in a [str] pattern. *)
Definition isspace (c : char) : bool :=
  ((9 <=? c) && (c <=? 13) || (28 <=? c) && (c <=? 32)
   || (c =? 133) || (c =? 160) || (c =? 5760)
   || (8192 <=? c) && (c <=? 8202)
   || (c =? 8232) || (c =? 8233) || (c =? 8239) || (c =? 8287)
   || (c =? 12288))%N.

(** The line boundaries of [str.splitlines]: LF, VT, FF, CR, FS, GS, RS,
    NEL, LS and PS (CR LF counts as one boundary). *)
Definition islinebreak (c : char) : bool :=
  ((10 <=? c) && (c <=? 13) || (28 <=? c) && (c <=? 30)
   || (c =? 133) || (c =? 8232) || (c =? 8233))%N.

(** ** Methods of [str] *)

(** [s.startswith(p)] *)
Fixpoint startswith (p s : str) : bool :=
  match p, s with
  | [], _ => true
  | x :: p', y :: s' => N.eqb x y && startswith p' s'
  | _ :: _, [] => false
  end.

(** [s.find(sub, start)] scans the offsets [start], [start + 1], ... and
    returns the lowest one at which [sub] occurs; [None] stands for [-1]. *)
Fixpoint find_at (sub s : str) (i : nat) : option nat :=
  if startswith sub s then Some i
  else match s with
       | [] => None
       | _ :: s' => find_at sub s' (S i)
       end.

Definition str_find (sub s : str) (start : nat) : option nat :=
  if start <=? length s then find_at sub (skipn start s) start else None.

(** [sub in s] *)
Definition contains (sub s : str) : bool :=
  match str_find sub s 0 with Some _ => true | None => false end.

(** [s.replace(old, new, 1)] *)
Definition replace_first (old new s : str) : str :=
  match str_find old s 0 with
  | Some i => firstn i s ++ new ++ skipn (i + length old) s
  | None => s
  end.

(** [s.lstrip()], [s.rstrip()], [s.strip()] *)
Fixpoint lstrip (s : str) : str :=
  match s with
  | c :: s' => if isspace c then lstrip s' else s
  | [] => []
  end.

Definition rstrip (s : str) : str := rev (lstrip (rev s)).

Definition strip (s : str) : str := lstrip (rstrip s).

(** [s.splitlines()]: no line is produced after a final boundary, and CR LF
    is one boundary. *)
Fixpoint splitlines (s : str) : list str :=
  match s with
  | [] => []
  | c :: s' =>
      if islinebreak c then
        [] :: match s' with
              | d :: s'' => if N.eqb c CR && N.eqb d LF then splitlines s''
                            else splitlines s'
              | [] => []
              end
      else match splitlines s' with
           | [] => [[c]]
           | l :: ls => (c :: l) :: ls
           end
  end.

(** [sep.join(lines)] *)
Fixpoint join (sep : str) (lines : list str) : str :=
  match lines with
  | [] => []
  | [l] => l
  | l :: ls => l ++ sep ++ join sep ls
  end.

(** [str(n)] for a non-negative integer *)
Definition str_of_nat (n : nat) : str :=
  map N_of_ascii (list_ascii_of_string (NilEmpty.string_of_uint (Nat.to_uint n))).

(** ** The fragment of [re] that the engine uses

    The three patterns of the program are built from literals, greedy [\s*],
    lazy [.*?] (under [re.DOTALL]), [$] (under [re.MULTILINE]), greedy [?],
    alternation, concatenation and capture groups.  [re] is a backtracking
    matcher: it explores the choices of a pattern in a fixed order and keeps
    the first way that succeeds.  [run r s] lists every way of matching [r]
    at the start of [s] in exactly that order, each with the groups it
    captured and the input left over, so that its head is the match that
    [re] reports. *)

Inductive regex : Type :=
| Lit (l : str)           (* literal text *)
| WsStar                  (* \s*  (greedy) *)
| AnyLazy                 (* .*?  (re.DOTALL) *)
| Eol                     (* $    (re.MULTILINE) *)
| Opt (r : regex)         (* r?   (greedy) *)
| Alt (r1 r2 : regex)     (* r1|r2 *)
| Seq (r1 r2 : regex)     (* r1r2 *)
| Group (r : regex).      (* (r)  *)

(** Greedy: the longest run of whitespace is tried first, then one
    character fewer, down to none. *)
Fixpoint ws_star (s : str) : list str :=
  match s with
  | c :: s' => if isspace c then ws_star s' ++ [s] else [s]
  | [] => [[]]
  end.

(** Lazy: nothing is tried first, then one more character each time. *)
Fixpoint any_lazy (s : str) : list str :=
  s :: match s with
       | [] => []
       | _ :: s' => any_lazy s'
       end.

Definition thread : Type := list str * str.

Fixpoint run (r : regex) (s : str) : list thread :=
  match r with
  | Lit l => if startswith l s then [([], skipn (length l) s)] else []
  | WsStar => map (pair []) (ws_star s)
  | AnyLazy => map (pair []) (any_lazy s)
  | Eol => match s with
           | [] => [([], s)]
           | c :: _ => if N.eqb c LF then [([], s)] else []
           end
  | Opt r1 => run r1 s ++ [([], s)]
  | Alt r1 r2 => run r1 s ++ run r2 s
  | Seq r1 r2 =>
      flat_map (fun t1 => map (fun t2 => (fst t1 ++ fst t2, snd t2))
                              (run r2 (snd t1)))
               (run r1 s)
  | Group r1 =>
      map (fun t => (firstn (length s - length (snd t)) s :: fst t, snd t))
          (run r1 s)
  end.

Fixpoint seqs (rs : list regex) : regex :=
  match rs with
  | [] => Lit []
  | [r] => r
  | r :: rs' => Seq r (seqs rs')
  end.

(** The left-to-right scan shared by [re.sub], [re.finditer] and
    [re.findall]: a match is looked for at the current offset; when one is
    found the scan resumes where it ends ([skip] counts the characters of
    the match still to pass over), otherwise the character is kept and the
    scan moves on by one.  The patterns of the engine never match the empty
    string ([fence_re_consumes], [block_re_consumes],
    [code_block_re_consumes]), so the rule of [re] for empty matches plays
    no part. *)
Inductive piece : Type :=
| Keep (c : char)
| Hit (groups : list str).

Fixpoint scan (r : regex) (skip : nat) (s : str) : list piece :=
  match s with
  | [] => match skip, run r [] with
          | O, (g, _) :: _ => [Hit g]
          | _, _ => []
          end
  | c :: s' =>
      match skip with
      | S k => scan r k s'
      | O => match run r s with
             | (g, rest) :: _ =>
                 match length s - length rest with
                 | S k => Hit g :: scan r k s'
                 | O => Hit g :: Keep c :: scan r 0 s'
                 end
             | [] => Keep c :: scan r 0 s'
             end
      end
  end.

(** [re.sub(r, '', s)] *)
Definition re_sub_empty (r : regex) (s : str) : str :=
  flat_map (fun p => match p with Keep c => [c] | Hit _ => [] end)
           (scan r 0 s).

(** [re.finditer(r, s)], each match given by its groups *)
Definition re_finditer (r : regex) (s : str) : list (list str) :=
  flat_map (fun p => match p with Keep _ => [] | Hit g => [g] end)
           (scan r 0 s).

(** [m.group(k)] for [k >= 1] *)
Definition group (m : list str) (k : nat) : str := nth (k - 1) m [].

(** [re.findall(r, s)] for a pattern with one group *)
Definition re_findall (r : regex) (s : str) : list str :=
  map (fun m => group m 1) (re_finditer r s).

(** ** Faults

    A Python exception is a value [Raise e] carrying [str(e)]; the only
    operation of the engine that can raise is list indexing. *)
Inductive result (A : Type) : Type :=
| Ok (a : A)
| Raise (e : str).
Arguments Ok {A} a.
Arguments Raise {A} e.

Definition bind {A B : Type} (m : result A) (k : A -> result B) : result B :=
  match m with
  | Ok a => k a
  | Raise e => Raise e
  end.

Notation "x <- m ;; k" := (bind m (fun x => k))
  (at level 61, m at next level, right associativity).

(** [l[i]] for [i >= 0] *)
Definition getitem {A : Type} (l : list A) (i : nat) : result A :=
  match nth_error l i with
  | Some x => Ok x
  | None => Raise (py "list index out of range")
  end.

(** [range(n)] *)
Definition range (n : Z) : list nat := seq 0 (Z.to_nat n).

(** ** The engine *)

Record SearchReplaceOperation : Type := {
  search_text : str;
  replace_text : str
}.

(** [r'```(?:rust|verus|python)?\s*\n?|```\s*$'] *)
Definition fence_re : regex :=
  Alt (seqs [Lit (py "```");
             Opt (Alt (Lit (py "rust")) (Alt (Lit (py "verus")) (Lit (py "python"))));
             WsStar;
             Opt (Lit (py "\n"))])
      (seqs [Lit (py "```"); WsStar; Eol]).

(** [r'<{7}\s*SEARCH\s*\n(.*?)\n={7}\s*\n(.*?)\n>{7}\s*REPLACE'] *)
Definition block_re : regex :=
  seqs [Lit (py "<<<<<<<"); WsStar; Lit (py "SEARCH"); WsStar; Lit (py "\n");
        Group AnyLazy;
        Lit (py "\n"); Lit (py "======="); WsStar; Lit (py "\n");
        Group AnyLazy;
        Lit (py "\n"); Lit (py ">>>>>>>"); WsStar; Lit (py "REPLACE")].

(** [r'```(?:rust|verus)?\s*\n(.*?)```'] *)
Definition code_block_re : regex :=
  seqs [Lit (py "```");
        Opt (Alt (Lit (py "rust")) (Lit (py "verus")));
        WsStar; Lit (py "\n");
        Group AnyLazy;
        Lit (py "```")].

Definition parse_search_replace_response (response : str)
  : list SearchReplaceOperation :=
  let response := re_sub_empty fence_re response in
  map (fun m => {| search_text := group m 1; replace_text := group m 2 |})
      (re_finditer block_re response).

(** The [while True] loop of [_find_all_matches].  Every turn moves [start]
    past the offset just found, and no offset exceeds [len(code)], so
    [len(code) + 2] turns are enough ([_find_all_matches_all] below). *)
Fixpoint _find_all_matches_loop (turns : nat) (code search : str) (start : nat)
  : list nat :=
  match turns with
  | O => []
  | S turns' =>
      match str_find search code start with
      | None => []
      | Some pos => pos :: _find_all_matches_loop turns' code search (S pos)
      end
  end.

Definition _find_all_matches (code search : str) : list nat :=
  _find_all_matches_loop (length code + 2) code search 0.

Definition _select_best_match (code : str) (matches : list nat) : nat :=
  match matches with
  | m :: _ => m
  | [] => 0
  end.

Definition _replace_at_position (code : str) (op : SearchReplaceOperation)
  (position : nat) : str :=
  let before := firstn position code in
  let after := skipn (position + length (search_text op)) code in
  before ++ replace_text op ++ after.

Definition _select_best_line_match (code_lines : list str)
  (matches : list nat) (search_lines : list str) : nat :=
  match matches with
  | m :: _ => m
  | [] => 0
  end.

(** The inner [for j, search_line in enumerate(search_lines)] loop, shared by
    the applicator and the validator: [true] when no line differs. *)
Fixpoint window_matches (search_lines code_lines : list str) (i j : nat)
  : result bool :=
  match search_lines with
  | [] => Ok true
  | search_line :: rest =>
      code_line <- getitem code_lines (i + j) ;;
      if negb (str_eqb (strip search_line) (strip code_line)) then Ok false
      else window_matches rest code_lines i (S j)
  end.

(** The outer loop of the applicator collects every matching window. *)
Fixpoint collect_matches (search_lines code_lines : list str) (idxs : list nat)
  : result (list nat) :=
  match idxs with
  | [] => Ok []
  | i :: idxs' =>
      m <- window_matches search_lines code_lines i 0 ;;
      matches <- collect_matches search_lines code_lines idxs' ;;
      Ok (if m then i :: matches else matches)
  end.

(** The re-indentation of [replace_lines] in [_replace_at_line_index]. *)
Definition indent_width (line : str) : nat :=
  length line - length (lstrip line).

Definition isblank (line : str) : bool :=
  match strip line with [] => true | _ :: _ => false end.

Definition reindent_first (base_indent : nat) (line : str) : str :=
  if isblank line then line
  else repeat SPACE base_indent ++ lstrip line.

Definition reindent_later (base_indent : nat) (line : str) : str :=
  if isblank line then line
  else repeat SPACE (base_indent + indent_width line) ++ lstrip line.

Definition reindent (base_indent : nat) (replace_lines : list str) : list str :=
  match replace_lines with
  | [] => []
  | first :: later =>
      reindent_first base_indent first :: map (reindent_later base_indent) later
  end.

(** [l[a:b] = new] for [0 <= a <= b] *)
Definition assign_slice {A : Type} (l : list A) (a b : nat) (new : list A)
  : list A :=
  firstn a l ++ new ++ skipn b l.

Definition _replace_at_line_index (code_lines : list str)
  (op : SearchReplaceOperation) (line_index : nat) : result str :=
  let search_lines := splitlines (search_text op) in
  first_line <- getitem code_lines line_index ;;
  let base_indent := indent_width first_line in
  let replace_lines := reindent base_indent (splitlines (replace_text op)) in
  let code_lines :=
    assign_slice code_lines line_index (line_index + length search_lines)
                 replace_lines in
  Ok (join (py "\n") code_lines).

Definition window_range (code_lines search_lines : list str) : list nat :=
  range (Z.of_nat (length code_lines) - Z.of_nat (length search_lines) + 1).

Definition _apply_with_normalized_whitespace (code : str)
  (op : SearchReplaceOperation) : result str :=
  let search_lines := splitlines (search_text op) in
  let code_lines := splitlines code in
  matches <- collect_matches search_lines code_lines
                             (window_range code_lines search_lines) ;;
  match matches with
  | [] => Ok code
  | _ :: _ =>
      let best_match_idx :=
        _select_best_line_match code_lines matches search_lines in
      _replace_at_line_index code_lines op best_match_idx
  end.

Definition _apply_single_operation (code : str) (op : SearchReplaceOperation)
  : result str :=
  if contains (search_text op) code then
    let matches := _find_all_matches code (search_text op) in
    if 1 <? length matches then
      let best_match := _select_best_match code matches in
      Ok (_replace_at_position code op best_match)
    else
      Ok (replace_first (search_text op) (replace_text op) code)
  else
    _apply_with_normalized_whitespace code op.

Fixpoint apply_search_replace_operations (original_code : str)
  (operations : list SearchReplaceOperation) : result str :=
  match operations with
  | [] => Ok original_code
  | op :: rest =>
      modified_code <- _apply_single_operation original_code op ;;
      apply_search_replace_operations modified_code rest
  end.

(** The [found] loop of the validator stops at the first matching window. *)
Fixpoint find_window (search_lines code_lines : list str) (js : list nat)
  : result bool :=
  match js with
  | [] => Ok false
  | j :: js' =>
      m <- window_matches search_lines code_lines j 0 ;;
      if m then Ok true else find_window search_lines code_lines js'
  end.

(** [f"SEARCH block {i+1} not found: '{op.search_text[:50]}...'"] *)
Definition not_found_message (i : nat) (op : SearchReplaceOperation) : str :=
  py "SEARCH block " ++ str_of_nat (i + 1) ++ py " not found: '"
    ++ firstn 50 (search_text op) ++ py "...'".

Fixpoint validate_from (original_code : str)
  (operations : list SearchReplaceOperation) (i : nat) : result (bool * str) :=
  match operations with
  | [] => Ok (true, py "Valid")
  | op :: rest =>
      if negb (contains (search_text op) original_code) then
        let search_lines := splitlines (search_text op) in
        let code_lines := splitlines original_code in
        found <- find_window search_lines code_lines
                             (window_range code_lines search_lines) ;;
        if negb found then Ok (false, not_found_message i op)
        else validate_from original_code rest (S i)
      else validate_from original_code rest (S i)
  end.

Definition validate_operations (original_code : str)
  (operations : list SearchReplaceOperation) : result (bool * str) :=
  validate_from original_code operations 0.

Definition outcome : Type := str * bool * str.

(** The body of the [try] statement of [_apply_search_replace_format]. *)
Definition try_body (original_code llm_response : str) : result outcome :=
  let operations := parse_search_replace_response llm_response in
  match operations with
  | [] =>
      let code_blocks := re_findall code_block_re llm_response in
      match code_blocks with
      | block :: _ =>
          Ok (strip block, true, py "Fallback to code block extraction")
      | [] =>
          Ok (original_code, false,
              py "No SEARCH/REPLACE operations or code blocks found")
      end
  | _ :: _ =>
      vm <- validate_operations original_code operations ;;
      let '(valid, message) := vm in
      if negb valid then
        Ok (original_code, false,
            py "Invalid SEARCH/REPLACE operations: " ++ message)
      else
        modified_code <-
          apply_search_replace_operations original_code operations ;;
        Ok (modified_code, true,
            py "Applied " ++ str_of_nat (length operations)
               ++ py " SEARCH/REPLACE operations")
  end.

(** The same body over the four calls it makes, each of which may raise:
    [parse] stands for [SearchReplaceFormatter.parse_search_replace_response],
    [findall] for [re.findall] with the fallback pattern, [validate] for
    [SearchReplaceFormatter.validate_operations] and [apply] for
    [SearchReplaceFormatter.apply_search_replace_operations].  A fault of a
    call leaves the body at once, as a Python exception does. *)
Section TryBody.

Variable parse : str -> result (list SearchReplaceOperation).
Variable findall : str -> result (list str).
Variable validate :
  str -> list SearchReplaceOperation -> result (bool * str).
Variable apply : str -> list SearchReplaceOperation -> result str.


End TryBody.

(** [try: <body> except Exception as e:
       return original_code, False,
              f"Error processing SEARCH/REPLACE format: {str(e)}"]:
    the value of the body when it returns, the failing outcome built from
    the fault when it raises. *)
Definition try_except (original_code : str) (body : result outcome)
  : outcome :=
  match body with
  | Ok out => out
  | Raise e =>
      (original_code, false,
       py "Error processing SEARCH/REPLACE format: " ++ e)
  end.

Definition _apply_search_replace_format (original_code llm_response : str)
  : outcome :=
  try_except original_code (try_body original_code llm_response).

Definition apply_search_replace_format (original_code llm_response : str)
  : outcome :=
  _apply_search_replace_format original_code llm_response.

(** ** The format instructions *)

(** [get_format_instructions()]: the text of the triple-quoted literal, line
    by line. *)
Definition get_format_instructions : str :=
  py "\n"
  ++ py "Response format: Use the following SEARCH/REPLACE format to specify your changes.\n"
  ++ py "\n"
  ++ py "Every *SEARCH/REPLACE* edit must use this format:\n"
  ++ py "1. The start of search block: <<<<<<< SEARCH\n"
  ++ py "2. A contiguous chunk of lines to search for in the existing source code\n"
  ++ py "3. The dividing line: =======\n"
  ++ py "4. The lines to replace into the source code\n"
  ++ py "5. The end of the replace block: >>>>>>> REPLACE\n"
  ++ py "\n"
  ++ py "Examples:\n"
  ++ py "\n"
  ++ py "```rust\n"
  ++ py "<<<<<<< SEARCH\n"
  ++ py "    assert(y > x);\n"
  ++ py "=======\n"
  ++ py "    assert(y > x) by {\n"
  ++ py "        assert(x > 0);\n"
  ++ py "    }\n"
  ++ py ">>>>>>> REPLACE\n"
  ++ py "```\n"
  ++ py "\n"
  ++ py "```rust\n"
  ++ py "<<<<<<< SEARCH\n"
  ++ py "    proof fn rev_map_union(s1: Set<int>, s2: Set<int>, x: int, f: spec_fn(int) -> int)\n"
  ++ py "        requires\n"
  ++ py "            s1.map(f).union(s2.map(f)).contains(x)\n"
  ++ py "        ensures\n"
  ++ py "            exists |y:int| s1.union(s2).contains(y) && f(y) == x \n"
  ++ py "    {\n"
  ++ py "    }\n"
  ++ py "=======\n"
  ++ py "    proof fn rev_map_union(s1: Set<int>, s2: Set<int>, x: int, f: spec_fn(int) -> int)\n"
  ++ py "        requires\n"
  ++ py "            s1.map(f).union(s2.map(f)).contains(x)\n"
  ++ py "        ensures\n"
  ++ py "            exists |y:int| s1.union(s2).contains(y) && f(y) == x \n"
  ++ py "    {\n"
  ++ py "        if (s1.map(f).contains(x)) {\n"
  ++ py "        } else {\n"
  ++ py "        }\n"
  ++ py "    }\n"
  ++ py ">>>>>>> REPLACE\n"
  ++ py "```\n"
  ++ py "\n"
  ++ py "```rust\n"
  ++ py "<<<<<<< SEARCH\n"
  ++ py "    let v = Vec::new();\n"
  ++ py "=======\n"
  ++ py "    let v = Vec::new();\n"
  ++ py "    proof {\n"
  ++ py "        assert(v@.len() == 0);\n"
  ++ py "    }\n"
  ++ py ">>>>>>> REPLACE\n"
  ++ py "```\n"
  ++ py "\n"
  ++ py "Rules:\n"
  ++ py "1. The *SEARCH/REPLACE* edit REQUIRES PROPER INDENTATION\n"
  ++ py "2. If you want to add '        print(x)', write it with all spaces\n"
  ++ py "3. Use exact text matching - be precise with whitespace and indentation\n"
  ++ py "4. Include enough context in SEARCH to uniquely identify the location\n"
  ++ py "5. Multiple SEARCH/REPLACE blocks are allowed\n"
  ++ py "6. To delete code, use empty REPLACE section\n"
  ++ py "7. To insert code, include the surrounding context in SEARCH\n"
  ++ py "8. Use ```rust``` to wrap the code. DO NOT use any -/+ symbols in the beginning of the lines.\n"
  ++ py "\n"
  ++ py "Only specify the changes needed to fix the error. The search text should be exact and unique.\n".

(** ** The callers in [llm_utils.py]

    The two functions receive the model, the logger and the prompt directory
    as arguments and act on the world only through them.  A call is modelled
    by the value it returns together with the trace of the calls it makes on
    those arguments, in the order it makes them.  What [llm.infer_llm]
    answers is the section variable [infer_llm]; [time_stamp] is
    [str(time.time())], the reading of the clock at the call. *)
Section LlmUtils.

Variables Example Float : Type.

Variable infer_llm :
  str -> str -> list Example -> str -> str -> Z -> Z -> Float -> list str.

Variable time_stamp : str.

Inductive event : Type :=
| write_text (name content : str)
    (* (llm_prompt_dir / name).write_text(content, encoding="utf-8") *)
| infer_llm_called (engine instruction : str) (examples : list Example)
                   (query system : str) (answer_num max_tokens : Z)
                   (temp : Float)
| logger_info (message : str)
| logger_warning (message : str).

(** The [for i, response in enumerate(responses)] loop of
    [call_llm_with_search_replace_format]; the state is [modified_codes] and
    the trace so far. *)
Fixpoint process_responses (original_code : str) (i : nat)
  (responses : list str) (modified_codes : list str) (trace : list event)
  : list str * list event :=
  match responses with
  | [] => (modified_codes, trace)
  | response :: responses' =>
      let trace :=
        trace ++ [write_text (time_stamp ++ py "-output-" ++ str_of_nat i
                                ++ py ".txt") response] in
      let '(modified_code, success, message) :=
        apply_search_replace_format original_code response in
      if success then
        process_responses original_code (S i) responses'
          (modified_codes ++ [modified_code])
          (trace ++ [logger_info
                       (py "Successfully applied SEARCH/REPLACE format: "
                          ++ message)])
      else
        process_responses original_code (S i) responses'
          modified_codes
          (trace ++ [logger_warning
                       (py "Failed to apply SEARCH/REPLACE format: "
                          ++ message)])
  end.

(** [examples] is [None] when the caller leaves it out. *)
Definition call_llm_with_search_replace_format
  (engine instruction query system original_code : str)
  (examples : option (list Example)) (answer_num max_tokens : Z) (temp : Float)
  : list str * list event :=
  let examples := match examples with None => [] | Some e => e end in
  let search_replace_instructions := get_format_instructions in
  let system := system ++ py "\n\n" ++ search_replace_instructions in
  let trace :=
    [write_text (time_stamp ++ py "-input.txt")
                (instruction ++ py "\n\n" ++ query)] in
  let responses :=
    infer_llm engine instruction examples query system
              answer_num max_tokens temp in
  let trace :=
    trace ++ [infer_llm_called engine instruction examples query system
                               answer_num max_tokens temp] in
  process_responses original_code 0 responses [] trace.

(** The [for] loop of [call_llm_with_full_return]. *)
Fixpoint log_responses (i : nat) (responses : list str) (trace : list event)
  : list event :=
  match responses with
  | [] => trace
  | response :: responses' =>
      log_responses (S i) responses'
        (trace ++ [write_text (time_stamp ++ py "-output-" ++ str_of_nat i
                                 ++ py ".txt") response])
  end.

Definition call_llm_with_full_return
  (engine instruction query system : str)
  (answer_num max_tokens : Z) (temp : Float)
  : list str * list event :=
  let query :=
    query ++ py "\n\nDo not add `proof { ... }` to in the body of the `proof fn` function and `spec fn` function." in
  let query :=
    query ++ py "\n\nPlease return the full code with the changes applied. The code should be surrounded by ```verus and ```." in
  let trace :=
    [write_text (time_stamp ++ py "-input.txt")
                (instruction ++ py "\n\n" ++ query)] in
  let responses :=
    infer_llm engine instruction [] query system answer_num max_tokens temp in
  let trace :=
    trace ++ [infer_llm_called engine instruction [] query system
                               answer_num max_tokens temp] in
  (responses, log_responses 0 responses trace).

End LlmUtils.

Arguments write_text {Example Float} name content.
Arguments infer_llm_called {Example Float}
  engine instruction examples query system answer_num max_tokens temp.
Arguments logger_info {Example Float} message.
Arguments logger_warning {Example Float} message.

(** The names of the files a trace writes, in order. *)
Definition written_names {Example Float : Type}
  (trace : list (event Example Float)) : list str :=
  flat_map (fun e => match e with write_text name _ => [name] | _ => [] end)
           trace.

(** What the loop of [call_llm_with_search_replace_format] keeps of one
    response. *)
Definition kept (original_code response : str) : list str :=
  let '(modified_code, success, _) :=
    apply_search_replace_format original_code response in
  if success then [modified_code] else [].

(** ** Occurrences *)

(** [sub] occurs in [s] at offset [k]. *)
Definition occurs_at (sub s : str) (k : nat) : Prop :=
  k <= length s /\ startswith sub (skipn k s) = true.

(** [k] is the lowest offset at which [sub] occurs in [s]. *)
Definition first_occurrence (sub s : str) (k : nat) : Prop :=
  occurs_at sub s k /\ forall i, i < k -> ~ occurs_at sub s i.

(** ** Line windows *)

(** The window of [code_lines] that starts at line [i] has as many lines as
    [search_lines], and each of them equals the search line of the same rank
    once both are stripped. *)
Definition candidate_window (search_lines code_lines : list str) (i : nat)
  : Prop :=
  i + length search_lines <= length code_lines /\
  map strip (firstn (length search_lines) (skipn i code_lines))
  = map strip search_lines.

Definition first_candidate (search_lines code_lines : list str) (i : nat)
  : Prop :=
  candidate_window search_lines code_lines i /\
  forall i', i' < i -> ~ candidate_window search_lines code_lines i'.

(** Every window that starts at a line of [idxs] lies within
    [code_lines]. *)
Definition windows_in_range (search_lines code_lines : list str)
  (idxs : list nat) : Prop :=
  forall i, In i idxs -> i + length search_lines <= length code_lines.

(** An operation resolves against [code] when its [search_text] occurs in it
    or some window of its lines is a candidate. *)
Definition resolvable (code : str) (op : SearchReplaceOperation) : Prop :=
  (exists k, occurs_at (search_text op) code k) \/
  (exists i, candidate_window (splitlines (search_text op))
                              (splitlines code) i).

(** A line holds no line boundary. *)
Definition no_linebreak (line : str) : Prop :=
  forall c, In c line -> islinebreak c = false.

(** [g] is a piece of [s]. *)
Definition infix_of (g s : str) : Prop := exists w1 w2, s = w1 ++ g ++ w2.

(** The language tag that [fence_re] passes over after a fence marker. *)
Definition drop_tag (s : str) : str :=
  if startswith (py "rust") s then skipn 4 s
  else if startswith (py "verus") s then skipn 5 s
  else if startswith (py "python") s then skipn 6 s
  else s.

(** [t] is the match that [re] reports for [r] at the start of [s]. *)
Definition first_match (r : regex) (s : str) (t : thread) : Prop :=
  exists ts, run r s = t :: ts.

(** [resolvable], computed. *)
Fixpoint lines_eqb (a b : list str) : bool :=
  match a, b with
  | [], [] => true
  | x :: a', y :: b' => str_eqb x y && lines_eqb a' b'
  | _, _ => false
  end.

Definition candidate_windowb (search_lines code_lines : list str) (i : nat)
  : bool :=
  (i + length search_lines <=? length code_lines)
  && lines_eqb (map strip (firstn (length search_lines) (skipn i code_lines)))
               (map strip search_lines).

Definition resolvableb (code : str) (op : SearchReplaceOperation) : bool :=
  contains (search_text op) code
  || existsb (candidate_windowb (splitlines (search_text op)) (splitlines code))
             (seq 0 (S (length (splitlines code)))).

(** ** The re-indentation rule read word for word

    The rule in which it is the first non-blank line, wherever it stands,
    that receives exactly [base_indent] spaces, and only the non-blank lines
    after it that keep their own width on top of it.  [seen] records that a
    non-blank line has been met. *)
Fixpoint reindent_first_nonblank (base_indent : nat) (seen : bool)
  (replace_lines : list str) : list str :=
  match replace_lines with
  | [] => []
  | line :: rest =>
      if isblank line then
        line :: reindent_first_nonblank base_indent seen rest
      else
        (if seen
         then repeat SPACE (base_indent + indent_width line) ++ lstrip line
         else repeat SPACE base_indent ++ lstrip line)
        :: reindent_first_nonblank base_indent true rest
  end.

(** * Properties *)

(** Literals are evaluated to their code points. *)
Ltac eval_py :=
  repeat match goal with
         | |- context [py ?x] =>
             let v := eval vm_compute in (py x) in change (py x) with v
         | H : context [py ?x] |- _ =>
             let v := eval vm_compute in (py x) in change (py x) with v in H
         end.

(** ** Strings *)

Lemma str_eqb_eq (a b : str) : str_eqb a b = true <-> a = b.
Proof.
  revert b; induction a as [|x a IH]; intros [|y b]; simpl; split;
    try congruence; try reflexivity.
  - intros H. apply andb_true_iff in H as [Hx Hab].
    apply N.eqb_eq in Hx. apply IH in Hab. congruence.
  - intros H. injection H as -> ->. rewrite N.eqb_refl. simpl.
    now apply IH.
Qed.

Lemma str_eqb_refl (a : str) : str_eqb a a = true.
Proof. now apply str_eqb_eq. Qed.

Lemma startswith_app (p r : str) : startswith p (p ++ r) = true.
Proof.
  induction p as [|x p IH]; simpl; [reflexivity|].
  now rewrite N.eqb_refl.
Qed.

Lemma startswith_split (p s : str) :
  startswith p s = true -> s = p ++ skipn (length p) s.
Proof.
  revert s; induction p as [|x p IH]; intros s H; simpl in *; [reflexivity|].
  destruct s as [|y s]; [discriminate|].
  apply andb_true_iff in H as [Hx Hp]. apply N.eqb_eq in Hx. subst y.
  simpl. f_equal. now apply IH.
Qed.

Lemma startswith_iff (p s : str) :
  startswith p s = true <-> exists r, s = p ++ r.
Proof.
  split.
  - intros H. eexists. now apply startswith_split.
  - intros [r ->]. apply startswith_app.
Qed.

Lemma find_at_some (sub s : str) (i k : nat) :
  find_at sub s i = Some k ->
  i <= k /\ k - i <= length s /\ startswith sub (skipn (k - i) s) = true /\
  forall j, j < k - i -> startswith sub (skipn j s) = false.
Proof.
  revert i; induction s as [|c s IH]; intros i; simpl.
  - destruct (startswith sub []) eqn:E; [|discriminate].
    intros [= <-]. rewrite Nat.sub_diag. simpl. repeat split; auto; lia.
  - destruct (startswith sub (c :: s)) eqn:E.
    + intros [= <-]. rewrite Nat.sub_diag. simpl. repeat split; auto; lia.
    + intros H. apply IH in H as (Hle & Hlen & Hst & Hmin).
      replace (k - i) with (S (k - S i)) by lia. simpl.
      repeat split; try lia; auto.
      intros [|j] Hj; simpl; [exact E|]. apply Hmin. lia.
Qed.

Lemma find_at_none (sub s : str) (i : nat) :
  find_at sub s i = None ->
  forall j, j <= length s -> startswith sub (skipn j s) = false.
Proof.
  revert i; induction s as [|c s IH]; intros i; simpl.
  - destruct (startswith sub []) eqn:E; [discriminate|].
    intros _ [|j] Hj; simpl; auto.
  - destruct (startswith sub (c :: s)) eqn:E; [discriminate|].
    intros H [|j] Hj; simpl; [exact E|]. eapply IH; eauto. lia.
Qed.

Lemma skipn_skipn_add {A : Type} (a b : nat) (l : list A) :
  skipn a (skipn b l) = skipn (b + a) l.
Proof.
  revert l; induction b as [|b IH]; intros l; simpl; [reflexivity|].
  destruct l; simpl; [now destruct a|]. apply IH.
Qed.

(** What [str.find] returns: the lowest offset from [start] on at which
    [sub] occurs. *)
Lemma str_find_some (sub s : str) (start k : nat) :
  str_find sub s start = Some k ->
  start <= k /\ occurs_at sub s k /\
  forall j, start <= j -> j < k -> ~ occurs_at sub s j.
Proof.
  unfold str_find, occurs_at. destruct (start <=? length s) eqn:E; [|discriminate].
  apply Nat.leb_le in E. intros H.
  apply find_at_some in H as (Hle & Hlen & Hst & Hmin).
  rewrite length_skipn in Hlen. rewrite skipn_skipn_add in Hst.
  replace (start + (k - start)) with k in Hst by lia.
  repeat split; try lia; auto.
  intros j Hj1 Hj2 [_ Hocc].
  specialize (Hmin (j - start)). rewrite skipn_skipn_add in Hmin.
  replace (start + (j - start)) with j in Hmin by lia.
  rewrite Hmin in Hocc; [discriminate | lia].
Qed.

Lemma str_find_none (sub s : str) (start : nat) :
  str_find sub s start = None ->
  forall j, start <= j -> ~ occurs_at sub s j.
Proof.
  unfold str_find, occurs_at. intros H j Hj [Hlen Hocc].
  destruct (start <=? length s) eqn:E.
  - apply Nat.leb_le in E.
    pose proof (find_at_none _ _ _ H (j - start)) as Hn.
    rewrite length_skipn, skipn_skipn_add in Hn.
    replace (start + (j - start)) with j in Hn by lia.
    rewrite Hn in Hocc; [discriminate | lia].
  - apply Nat.leb_gt in E. lia.
Qed.

Lemma str_find_first (sub s : str) (k : nat) :
  first_occurrence sub s k -> str_find sub s 0 = Some k.
Proof.
  intros [Hocc Hmin]. destruct (str_find sub s 0) as [k'|] eqn:E.
  - apply str_find_some in E as (_ & Hocc' & Hmin').
    destruct (Nat.lt_trichotomy k k') as [Hlt | [-> | Hgt]]; auto.
    + exfalso. apply (Hmin' k); auto. lia.
    + exfalso. apply (Hmin k'); auto.
  - exfalso. apply (str_find_none _ _ _ E k); [lia | exact Hocc].
Qed.

Lemma str_find_later (sub s : str) (start j : nat) :
  start <= j -> occurs_at sub s j -> exists k, str_find sub s start = Some k.
Proof.
  intros Hj Hocc. destruct (str_find sub s start) eqn:E; eauto.
  exfalso. apply (str_find_none _ _ _ E j); assumption.
Qed.

Lemma occurs_at_split (sub s : str) (k : nat) :
  occurs_at sub s k -> s = firstn k s ++ sub ++ skipn (k + length sub) s.
Proof.
  intros [_ H]. apply startswith_split in H.
  rewrite skipn_skipn_add in H.
  rewrite <- H. symmetry. apply firstn_skipn.
Qed.

Lemma occurs_at_drop (sub w x : str) (k : nat) :
  length w <= k ->
  occurs_at sub (w ++ x) k <-> occurs_at sub x (k - length w).
Proof.
  intros Hk. unfold occurs_at.
  rewrite skipn_app, skipn_all2, length_app by exact Hk. simpl app.
  split; intros [H1 H2]; (split; [lia | exact H2]).
Qed.

Lemma contains_true (sub s : str) (k : nat) :
  occurs_at sub s k -> contains sub s = true.
Proof.
  intros H. unfold contains.
  destruct (str_find_later sub s 0 k (Nat.le_0_l k) H) as [k' ->].
  reflexivity.
Qed.

Lemma contains_first (sub s : str) :
  contains sub s = true -> exists k, first_occurrence sub s k.
Proof.
  unfold contains. destruct (str_find sub s 0) as [k|] eqn:E; [|discriminate].
  intros _. exists k. apply str_find_some in E as (_ & Hocc & Hmin).
  split; auto. intros i Hi. apply Hmin; lia.
Qed.

Lemma contains_first_at (sub s : str) (k : nat) :
  str_find sub s 0 = Some k -> first_occurrence sub s k.
Proof.
  intros E. apply str_find_some in E as (_ & Hocc & Hmin).
  split; auto. intros i Hi. apply Hmin; lia.
Qed.

Lemma contains_false (sub s : str) (k : nat) :
  contains sub s = false -> ~ occurs_at sub s k.
Proof.
  unfold contains. destruct (str_find sub s 0) eqn:E; [discriminate|].
  intros _. apply (str_find_none _ _ _ E k). lia.
Qed.

Lemma contains_nil (s : str) : contains [] s = true.
Proof. apply (contains_true [] s 0). split; simpl; [lia | reflexivity]. Qed.

(** ** The exact-match path *)

Lemma filter_none {A : Type} (f : A -> bool) (l : list A) :
  (forall x, In x l -> f x = false) -> filter f l = [].
Proof.
  induction l as [|x l IH]; simpl; intros H; [reflexivity|].
  rewrite (H x) by auto. apply IH. intros y Hy. apply H. auto.
Qed.

Lemma occurs_at_dec (sub s : str) (i : nat) :
  i <= length s ->
  startswith sub (skipn i s) = false <-> ~ occurs_at sub s i.
Proof.
  unfold occurs_at. intros Hi. split.
  - intros H [_ H']. congruence.
  - intros H. destruct (startswith sub (skipn i s)); auto. exfalso. auto.
Qed.

Lemma _find_all_matches_loop_all (code search : str) (turns start : nat) :
  start <= S (length code) ->
  S (length code) - start < turns ->
  _find_all_matches_loop turns code search start =
  filter (fun i => startswith search (skipn i code))
         (seq start (S (length code) - start)).
Proof.
  revert start; induction turns as [|turns IH]; intros start Hs Ht; [lia|].
  cbn [_find_all_matches_loop].
  destruct (str_find search code start) as [pos|] eqn:E.
  - apply str_find_some in E as (Hle & [Hlen Hocc] & Hmin).
    replace (S (length code) - start)
      with ((pos - start) + S (S (length code) - S pos)) by lia.
    rewrite seq_app, filter_app. replace (start + (pos - start)) with pos by lia.
    rewrite filter_none.
    + cbn [seq filter app]. rewrite Hocc. f_equal. apply IH; lia.
    + intros j Hj. apply in_seq in Hj. apply occurs_at_dec; [lia|].
      apply Hmin; lia.
  - symmetry. apply filter_none. intros j Hj. apply in_seq in Hj.
    apply occurs_at_dec; [lia|]. apply (str_find_none _ _ _ E). lia.
Qed.

(** The loop of [_find_all_matches] terminates within its turns: it returns
    every offset at which [search] occurs, in increasing order. *)
Lemma _find_all_matches_all (code search : str) :
  _find_all_matches code search =
  filter (fun i => startswith search (skipn i code)) (seq 0 (S (length code))).
Proof.
  unfold _find_all_matches.
  rewrite _find_all_matches_loop_all by lia. now rewrite Nat.sub_0_r.
Qed.

Lemma _find_all_matches_head (code search : str) (k : nat) :
  first_occurrence search code k ->
  exists later, _find_all_matches code search = k :: later.
Proof.
  intros H. unfold _find_all_matches.
  replace (length code + 2) with (S (length code + 1)) by lia. simpl.
  rewrite (str_find_first _ _ _ H). eauto.
Qed.


(** Whenever [search_text] occurs in [code], in one place or in several, the
    operation rewrites its first occurrence and keeps the text on both sides
    of it as it is. *)
Lemma _apply_single_operation_exact (code : str) (op : SearchReplaceOperation)
  (k : nat) :
  first_occurrence (search_text op) code k ->
  _apply_single_operation code op =
  Ok (firstn k code ++ replace_text op
        ++ skipn (k + length (search_text op)) code).
Proof.
  intros H. unfold _apply_single_operation.
  rewrite (contains_true _ _ _ (proj1 H)).
  destruct (_find_all_matches_head _ _ _ H) as [later ->].
  destruct (1 <? length (k :: later)).
  - reflexivity.
  - unfold replace_first. now rewrite (str_find_first _ _ _ H).
Qed.

(** ** The normalized path *)

Lemma nth_error_skipn_cons {A : Type} (l : list A) (n : nat) (x : A) :
  nth_error l n = Some x -> skipn n l = x :: skipn (S n) l.
Proof.
  revert l; induction n as [|n IH]; intros [|y l]; simpl; try discriminate.
  - now intros [= ->].
  - intros H. now apply IH.
Qed.

Lemma getitem_some {A : Type} (l : list A) (i : nat) :
  i < length l -> exists x, nth_error l i = Some x /\ getitem l i = Ok x.
Proof.
  intros H. unfold getitem. destruct (nth_error l i) as [x|] eqn:E; eauto.
  apply nth_error_None in E. lia.
Qed.

Lemma window_matches_spec (search_lines code_lines : list str) (i j : nat) :
  i + j + length search_lines <= length code_lines ->
  exists b, window_matches search_lines code_lines i j = Ok b /\
    (b = true <->
     map strip (firstn (length search_lines) (skipn (i + j) code_lines))
     = map strip search_lines).
Proof.
  revert j; induction search_lines as [|sl rest IH]; intros j Hlen;
    cbn [window_matches length firstn map] in *.
  - exists true. split; [reflexivity | tauto].
  - destruct (getitem_some code_lines (i + j)) as (cl & Hnth & ->); [lia|].
    cbn [bind]. rewrite (nth_error_skipn_cons _ _ _ Hnth). cbn [map].
    destruct (str_eqb (strip sl) (strip cl)) eqn:E; cbn [negb].
    + apply str_eqb_eq in E.
      destruct (IH (S j)) as (b & Hb & Hiff); [lia|].
      exists b. rewrite Hb. split; [reflexivity|].
      rewrite Hiff, Nat.add_succ_r, E. split; [congruence|].
      intros [= H]. exact H.
    + exists false. split; [reflexivity|]. split; [discriminate|].
      intros [= H _]. rewrite H, str_eqb_refl in E. discriminate.
Qed.

Lemma window_matches_candidate (search_lines code_lines : list str) (i : nat) :
  i + length search_lines <= length code_lines ->
  exists b, window_matches search_lines code_lines i 0 = Ok b /\
    (b = true <-> candidate_window search_lines code_lines i).
Proof.
  intros Hlen. destruct (window_matches_spec search_lines code_lines i 0)
    as (b & Hb & Hiff); [lia|].
  exists b. split; [exact Hb|]. rewrite Hiff, Nat.add_0_r.
  unfold candidate_window. tauto.
Qed.

Lemma window_range_bound (code_lines search_lines : list str) (i : nat) :
  In i (window_range code_lines search_lines) <->
  i + length search_lines <= length code_lines.
Proof. unfold window_range, range. rewrite in_seq. lia. Qed.

Lemma window_range_split (code_lines search_lines : list str) (i : nat) :
  i + length search_lines <= length code_lines ->
  exists later,
    window_range code_lines search_lines = seq 0 i ++ i :: later.
Proof.
  intros H. unfold window_range, range.
  set (n := Z.to_nat _). replace n with (i + S (n - S i)) by (subst n; lia).
  rewrite seq_app. simpl. eauto.
Qed.

Section Windows.
Variables search_lines code_lines : list str.

Lemma collect_matches_none (idxs : list nat) :
  windows_in_range search_lines code_lines idxs ->
  (forall i, In i idxs -> ~ candidate_window search_lines code_lines i) ->
  collect_matches search_lines code_lines idxs = Ok [].
Proof.
  induction idxs as [|i idxs IH]; intros Hr Hn; simpl; [reflexivity|].
  destruct (window_matches_candidate search_lines code_lines i)
    as (b & -> & Hb); [apply Hr; simpl; auto|].
  simpl. rewrite IH.
  - simpl. destruct b; [|reflexivity].
    exfalso. apply (Hn i); [simpl; auto | now apply Hb].
  - intros k Hk. apply Hr. simpl; auto.
  - intros k Hk. apply Hn. simpl; auto.
Qed.

Lemma collect_matches_total (idxs : list nat) :
  windows_in_range search_lines code_lines idxs ->
  exists matches, collect_matches search_lines code_lines idxs = Ok matches.
Proof.
  induction idxs as [|i idxs IH]; intros Hr; simpl; [eauto|].
  destruct (window_matches_candidate search_lines code_lines i)
    as (b & -> & _); [apply Hr; simpl; auto|].
  destruct IH as (ms & ->); [intros k Hk; apply Hr; simpl; auto|].
  simpl. eauto.
Qed.

Lemma collect_matches_first (before later : list nat) (i : nat) :
  windows_in_range search_lines code_lines (before ++ i :: later) ->
  (forall k, In k before -> ~ candidate_window search_lines code_lines k) ->
  candidate_window search_lines code_lines i ->
  exists matches,
    collect_matches search_lines code_lines (before ++ i :: later)
    = Ok (i :: matches).
Proof.
  induction before as [|k before IH]; intros Hr Hn Hc; simpl.
  - destruct (window_matches_candidate search_lines code_lines i)
      as (b & -> & Hb); [apply Hr; simpl; auto|].
    destruct (collect_matches_total later) as (ms & ->).
    { intros k Hk. apply Hr. simpl; auto. }
    apply Hb in Hc. subst b. simpl. eauto.
  - destruct (window_matches_candidate search_lines code_lines k)
      as (b & -> & Hb); [apply Hr; simpl; auto|].
    destruct IH as (ms & ->); auto.
    { intros j Hj. apply Hr. simpl; auto. }
    { intros j Hj. apply Hn. simpl; auto. }
    simpl. destruct b; [|eauto].
    exfalso. apply (Hn k); [simpl; auto | now apply Hb].
Qed.

Lemma find_window_none (idxs : list nat) :
  windows_in_range search_lines code_lines idxs ->
  (forall i, In i idxs -> ~ candidate_window search_lines code_lines i) ->
  find_window search_lines code_lines idxs = Ok false.
Proof.
  induction idxs as [|i idxs IH]; intros Hr Hn; simpl; [reflexivity|].
  destruct (window_matches_candidate search_lines code_lines i)
    as (b & -> & Hb); [apply Hr; simpl; auto|].
  simpl. destruct b.
  - exfalso. apply (Hn i); [simpl; auto | now apply Hb].
  - apply IH; intros k Hk; [apply Hr | apply Hn]; simpl; auto.
Qed.

Lemma find_window_some (idxs : list nat) (i : nat) :
  windows_in_range search_lines code_lines idxs -> In i idxs ->
  candidate_window search_lines code_lines i ->
  find_window search_lines code_lines idxs = Ok true.
Proof.
  induction idxs as [|k idxs IH]; intros Hr Hin Hc; simpl; [easy|].
  destruct (window_matches_candidate search_lines code_lines k)
    as (b & -> & Hb); [apply Hr; simpl; auto|].
  simpl. destruct b; [reflexivity|].
  destruct Hin as [-> | Hin].
  - apply Hb in Hc. discriminate.
  - apply IH; auto. intros j Hj. apply Hr. simpl; auto.
Qed.
End Windows.

Lemma candidate_window_dec (search_lines code_lines : list str) (i : nat) :
  {candidate_window search_lines code_lines i}
  + {~ candidate_window search_lines code_lines i}.
Proof.
  unfold candidate_window.
  destruct (le_dec (i + length search_lines) (length code_lines));
    [|right; tauto].
  destruct (list_eq_dec (list_eq_dec N.eq_dec)
              (map strip (firstn (length search_lines) (skipn i code_lines)))
              (map strip search_lines)); [left | right]; tauto.
Qed.

(** Among the candidate windows there is a first one. *)
Lemma first_candidate_exists (search_lines code_lines : list str) (i : nat) :
  candidate_window search_lines code_lines i ->
  exists i0, i0 <= i /\ first_candidate search_lines code_lines i0.
Proof.
  induction i as [i IH] using lt_wf_ind. intros Hc.
  destruct (Exists_dec (candidate_window search_lines code_lines) (seq 0 i))
    as [Hex | Hno].
  - intros k. apply candidate_window_dec.
  - apply Exists_exists in Hex as (k & Hk & Hck). apply in_seq in Hk.
    destruct (IH k) as (i0 & Hle & Hf); [lia | exact Hck |].
    exists i0. split; [lia | exact Hf].
  - exists i. split; [lia|]. split; [exact Hc|].
    intros k Hk Hck. apply Hno. apply Exists_exists. exists k.
    split; [apply in_seq; lia | exact Hck].
Qed.

Lemma splitlines_nil (s : str) : splitlines s = [] -> s = [].
Proof.
  destruct s as [|c s]; simpl; [reflexivity|].
  destruct (islinebreak c); [discriminate|].
  destruct (splitlines s); discriminate.
Qed.

Lemma contains_false_lines (sub s : str) :
  contains sub s = false -> splitlines sub <> [].
Proof.
  intros H Hn. apply splitlines_nil in Hn. subst sub.
  rewrite contains_nil in H. discriminate.
Qed.

Lemma _replace_at_line_index_ok (code_lines : list str)
  (op : SearchReplaceOperation) (i : nat) :
  i < length code_lines ->
  _replace_at_line_index code_lines op i =
  Ok (join (py "\n")
        (firstn i code_lines
         ++ reindent (indent_width (nth i code_lines []))
                     (splitlines (replace_text op))
         ++ skipn (i + length (splitlines (search_text op))) code_lines)).
Proof.
  intros Hi. unfold _replace_at_line_index, assign_slice.
  destruct (getitem_some code_lines i Hi) as (x & Hnth & ->).
  cbn [bind]. now rewrite (nth_error_nth (A := str) _ _ [] Hnth).
Qed.

Lemma _apply_with_normalized_whitespace_first (code : str)
  (op : SearchReplaceOperation) (i : nat) :
  first_candidate (splitlines (search_text op)) (splitlines code) i ->
  _apply_with_normalized_whitespace code op =
  _replace_at_line_index (splitlines code) op i.
Proof.
  intros [Hc Hmin]. unfold _apply_with_normalized_whitespace.
  destruct (window_range_split (splitlines code) (splitlines (search_text op)) i)
    as (later & Hsplit); [apply Hc|].
  destruct (collect_matches_first (splitlines (search_text op)) (splitlines code)
              (seq 0 i) later i) as (ms & Hms).
  - rewrite <- Hsplit. intros k Hk. now apply window_range_bound.
  - intros k Hk. apply Hmin. apply in_seq in Hk. lia.
  - exact Hc.
  - rewrite Hsplit, Hms. reflexivity.
Qed.

Lemma _apply_with_normalized_whitespace_none (code : str)
  (op : SearchReplaceOperation) :
  (forall i, ~ candidate_window (splitlines (search_text op))
                                (splitlines code) i) ->
  _apply_with_normalized_whitespace code op = Ok code.
Proof.
  intros Hn. unfold _apply_with_normalized_whitespace.
  rewrite collect_matches_none; [reflexivity | | intros i _; apply Hn].
  intros i Hi. now apply window_range_bound.
Qed.

(** The normalized path of the applicator: when [search_text] does not occur
    in [code], the first candidate window is replaced by the re-indented
    lines of [replace_text] and the lines are joined again. *)
Lemma _apply_single_operation_normalized (code : str)
  (op : SearchReplaceOperation) (i : nat) :
  contains (search_text op) code = false ->
  first_candidate (splitlines (search_text op)) (splitlines code) i ->
  _apply_single_operation code op =
  Ok (join (py "\n")
        (firstn i (splitlines code)
         ++ reindent (indent_width (nth i (splitlines code) []))
                     (splitlines (replace_text op))
         ++ skipn (i + length (splitlines (search_text op)))
                  (splitlines code))).
Proof.
  intros Hno Hf. unfold _apply_single_operation. rewrite Hno.
  rewrite (_apply_with_normalized_whitespace_first _ _ _ Hf).
  apply _replace_at_line_index_ok.
  pose proof (contains_false_lines _ _ Hno) as Hne.
  destruct Hf as [[Hlen _] _].
  destruct (splitlines (search_text op)); [congruence | simpl in Hlen; lia].
Qed.

(** ** The validator *)

Lemma validate_from_accepts (code : str) (op : SearchReplaceOperation)
  (rest : list SearchReplaceOperation) (n : nat) :
  resolvable code op ->
  validate_from code (op :: rest) n = validate_from code rest (S n).
Proof.
  intros Hres. cbn [validate_from].
  destruct (contains (search_text op) code) eqn:E; cbn [negb]; [reflexivity|].
  destruct Hres as [[k Hk] | [i Hi]].
  - apply contains_true in Hk. congruence.
  - rewrite (find_window_some _ _ _ i); [reflexivity | | | exact Hi].
    + intros k Hk. now apply window_range_bound.
    + apply window_range_bound. apply Hi.
Qed.

Lemma validate_from_rejects (code : str) (op : SearchReplaceOperation)
  (rest : list SearchReplaceOperation) (n : nat) :
  ~ resolvable code op ->
  validate_from code (op :: rest) n = Ok (false, not_found_message n op).
Proof.
  intros Hres. cbn [validate_from].
  destruct (contains (search_text op) code) eqn:E; cbn [negb].
  - exfalso. apply Hres. left. apply contains_first in E as (k & Hk & _). eauto.
  - rewrite find_window_none; [reflexivity | |].
    + intros k Hk. now apply window_range_bound.
    + intros i _ Hi. apply Hres. right. eauto.
Qed.

Lemma validate_from_all (code : str) (ops : list SearchReplaceOperation)
  (n : nat) :
  Forall (resolvable code) ops ->
  validate_from code ops n = Ok (true, py "Valid").
Proof.
  intros H. revert n. induction H as [|op rest Hop _ IH]; intros n.
  - reflexivity.
  - rewrite validate_from_accepts by exact Hop. apply IH.
Qed.

Lemma validate_from_first_unresolved (code : str)
  (before after : list SearchReplaceOperation) (op : SearchReplaceOperation)
  (n : nat) :
  Forall (resolvable code) before -> ~ resolvable code op ->
  validate_from code (before ++ op :: after) n
  = Ok (false, not_found_message (n + length before) op).
Proof.
  intros H Hop. revert n. induction H as [|o before Ho _ IH]; intros n.
  - simpl app. rewrite validate_from_rejects by exact Hop.
    simpl. now rewrite Nat.add_0_r.
  - simpl app. rewrite validate_from_accepts by exact Ho. rewrite IH.
    simpl length. now rewrite Nat.add_succ_r.
Qed.

Lemma lines_eqb_eq (a b : list str) : lines_eqb a b = true <-> a = b.
Proof.
  revert b; induction a as [|x a IH]; intros [|y b]; simpl; split;
    try congruence; try reflexivity.
  - intros H. apply andb_true_iff in H as [Hx Hab].
    apply str_eqb_eq in Hx. apply IH in Hab. congruence.
  - intros [= -> ->]. rewrite str_eqb_refl. now apply IH.
Qed.

Lemma candidate_windowb_spec (search_lines code_lines : list str) (i : nat) :
  candidate_windowb search_lines code_lines i = true
  <-> candidate_window search_lines code_lines i.
Proof.
  unfold candidate_windowb, candidate_window.
  rewrite andb_true_iff, Nat.leb_le, lines_eqb_eq. tauto.
Qed.

Lemma resolvableb_spec (code : str) (op : SearchReplaceOperation) :
  resolvableb code op = true <-> resolvable code op.
Proof.
  unfold resolvableb, resolvable. rewrite orb_true_iff, existsb_exists. split.
  - intros [H | (i & _ & Hi)].
    + left. apply contains_first in H as (k & Hk & _). eauto.
    + right. exists i. now apply candidate_windowb_spec.
  - intros [[k Hk] | [i Hi]].
    + left. eapply contains_true; eauto.
    + right. exists i. split; [|now apply candidate_windowb_spec].
      apply in_seq. destruct Hi as [Hi _]. lia.
Qed.

Lemma not_resolvableb (code : str) (op : SearchReplaceOperation) :
  resolvableb code op = false -> ~ resolvable code op.
Proof. intros H Hr. apply resolvableb_spec in Hr. congruence. Qed.

Lemma first_candidateb (search_lines code_lines : list str) (i : nat) :
  candidate_windowb search_lines code_lines i = true ->
  forallb (fun k => negb (candidate_windowb search_lines code_lines k))
          (seq 0 i) = true ->
  first_candidate search_lines code_lines i.
Proof.
  intros Hc Hn. split; [now apply candidate_windowb_spec|].
  intros k Hk Hck. apply candidate_windowb_spec in Hck.
  rewrite forallb_forall in Hn. specialize (Hn k).
  rewrite Hck in Hn. discriminate Hn. apply in_seq. lia.
Qed.

(** ** No fault arises inside the engine *)

Lemma find_window_total (search_lines code_lines : list str) (idxs : list nat) :
  (forall i, In i idxs -> i + length search_lines <= length code_lines) ->
  exists b, find_window search_lines code_lines idxs = Ok b.
Proof.
  induction idxs as [|i idxs IH]; intros Hr; simpl; [eauto|].
  destruct (window_matches_candidate search_lines code_lines i)
    as (b & -> & _); [apply Hr; simpl; auto|].
  simpl. destruct b; [eauto|]. apply IH. intros k Hk. apply Hr. simpl; auto.
Qed.

Lemma validate_from_total (code : str) (ops : list SearchReplaceOperation)
  (n : nat) :
  exists v, validate_from code ops n = Ok v.
Proof.
  revert n; induction ops as [|op ops IH]; intros n; simpl; [eauto|].
  destruct (contains (search_text op) code); simpl; [apply IH|].
  destruct (find_window_total (splitlines (search_text op)) (splitlines code)
              (window_range (splitlines code) (splitlines (search_text op))))
    as (b & ->).
  - intros i Hi. now apply window_range_bound.
  - simpl. destruct b; simpl; [apply IH | eauto].
Qed.

Lemma _apply_single_operation_total (code : str) (op : SearchReplaceOperation) :
  exists out, _apply_single_operation code op = Ok out.
Proof.
  destruct (contains (search_text op) code) eqn:E.
  - unfold _apply_single_operation. rewrite E.
    destruct (1 <? _); eauto.
  - destruct (Exists_dec
                (candidate_window (splitlines (search_text op)) (splitlines code))
                (window_range (splitlines code) (splitlines (search_text op))))
      as [Hex | Hno].
    + intros k. apply candidate_window_dec.
    + apply Exists_exists in Hex as (i & _ & Hi).
      apply first_candidate_exists in Hi as (i0 & _ & Hf).
      rewrite (_apply_single_operation_normalized _ _ _ E Hf). eauto.
    + unfold _apply_single_operation. rewrite E.
      rewrite _apply_with_normalized_whitespace_none; [eauto|].
      intros i Hi. apply Hno. apply Exists_exists. exists i. split; [|exact Hi].
      apply window_range_bound. apply Hi.
Qed.

Lemma apply_search_replace_operations_total (code : str)
  (ops : list SearchReplaceOperation) :
  exists out, apply_search_replace_operations code ops = Ok out.
Proof.
  revert code; induction ops as [|op ops IH]; intros code; simpl; [eauto|].
  destruct (_apply_single_operation_total code op) as (mid & ->). simpl.
  apply IH.
Qed.


(** The fault of the model: indexing an empty list of lines. *)
Example _replace_at_line_index_fault :
  _replace_at_line_index [] {| search_text := []; replace_text := [] |} 0
  = Raise (py "list index out of range").
Proof. reflexivity. Qed.

(** ** The orchestrator after parsing *)

Lemma orchestrator_invalid (original_code llm_response message : str)
  (op : SearchReplaceOperation) (ops : list SearchReplaceOperation) :
  parse_search_replace_response llm_response = op :: ops ->
  validate_operations original_code (op :: ops) = Ok (false, message) ->
  _apply_search_replace_format original_code llm_response
  = (original_code, false, py "Invalid SEARCH/REPLACE operations: " ++ message).
Proof.
  intros Hp Hv. unfold _apply_search_replace_format, try_except, try_body.
  rewrite Hp, Hv. reflexivity.
Qed.

Lemma orchestrator_applied (original_code llm_response modified_code : str)
  (op : SearchReplaceOperation) (ops : list SearchReplaceOperation) :
  parse_search_replace_response llm_response = op :: ops ->
  validate_operations original_code (op :: ops) = Ok (true, py "Valid") ->
  apply_search_replace_operations original_code (op :: ops) = Ok modified_code ->
  _apply_search_replace_format original_code llm_response
  = (modified_code, true,
     py "Applied " ++ str_of_nat (length (op :: ops))
        ++ py " SEARCH/REPLACE operations").
Proof.
  intros Hp Hv Ha. unfold _apply_search_replace_format, try_except, try_body.
  rewrite Hp, Hv. cbn [bind negb]. rewrite Ha. reflexivity.
Qed.

(** * The claims *)

(** ** Multiple occurrences: the first one wins *)



(** ** An edit that replaces a text by itself *)

(** [C3], as the code has it: an operation whose [replace_text] equals its
    [search_text] and whose [search_text] occurs in the target returns the
    target byte for byte.  (On the normalized path the window is re-indented
    and the lines are joined again, so the text may change.) *)
Theorem C3_identity_on_exact_match :
  forall (code : str) (op : SearchReplaceOperation),
    replace_text op = search_text op ->
    contains (search_text op) code = true ->
    _apply_single_operation code op = Ok code.
Proof.
  intros code op Heq Hin. apply contains_first in Hin as (k & Hk).
  rewrite (_apply_single_operation_exact _ _ _ Hk), Heq.
  f_equal. symmetry. apply occurs_at_split. apply Hk.
Qed.

Lemma C3_identity_on_exact_match_witness :
  contains (py "b") (py "a\n  b\n") = true /\
  _apply_single_operation (py "a\n  b\n")
    {| search_text := py "b"; replace_text := py "b" |}
  = Ok (py "a\n  b\n").
Proof.
  split; [reflexivity|].
  exact (C3_identity_on_exact_match (py "a\n  b\n")
           {| search_text := py "b"; replace_text := py "b" |}
           eq_refl eq_refl).
Defined.

(** The same edit resolving through the normalized fallback: the second
    line loses its indentation. *)
Lemma C3_normalized_changes_text :
  replace_text {| search_text := py "a\nb"; replace_text := py "a\nb" |}
  = search_text {| search_text := py "a\nb"; replace_text := py "a\nb" |} /\
  contains (py "a\nb") (py "a\n  b") = false /\
  resolvable (py "a\n  b")
    {| search_text := py "a\nb"; replace_text := py "a\nb" |} /\
  _apply_single_operation (py "a\n  b")
    {| search_text := py "a\nb"; replace_text := py "a\nb" |}
  = Ok (py "a\nb") /\
  py "a\nb" <> py "a\n  b".
Proof.
  split; [reflexivity|]. split; [reflexivity|].
  split; [now apply resolvableb_spec|].
  split; [reflexivity | discriminate].
Qed.

(** ** Whitespace tolerance *)

(** [C8] When [search_text] does not occur in the target but some window of
    target lines agrees with the search lines once both are stripped, the
    validator accepts the operation (alone, or in front of any others) and
    the applicator replaces the first such window: its result is the lines
    before the window, the re-indented replacement lines and the lines after
    the window, joined again. *)
Theorem C8_whitespace_tolerance :
  forall (code : str) (op : SearchReplaceOperation) (i : nat),
    contains (search_text op) code = false ->
    candidate_window (splitlines (search_text op)) (splitlines code) i ->
    validate_operations code [op] = Ok (true, py "Valid") /\
    (forall rest n,
        validate_from code (op :: rest) n = validate_from code rest (S n)) /\
    exists i0,
      i0 <= i /\
      first_candidate (splitlines (search_text op)) (splitlines code) i0 /\
      _apply_single_operation code op
      = Ok (join (py "\n")
              (firstn i0 (splitlines code)
               ++ reindent (indent_width (nth i0 (splitlines code) []))
                           (splitlines (replace_text op))
               ++ skipn (i0 + length (splitlines (search_text op)))
                        (splitlines code))).
Proof.
  intros code op i Hno Hc.
  assert (Hres : resolvable code op) by (right; eauto).
  split; [|split].
  - unfold validate_operations. rewrite validate_from_accepts by exact Hres.
    reflexivity.
  - intros rest n. now apply validate_from_accepts.
  - destruct (first_candidate_exists _ _ _ Hc) as (i0 & Hle & Hf).
    exists i0. split; [exact Hle|]. split; [exact Hf|].
    now apply _apply_single_operation_normalized.
Qed.

(** An indented block found from a search text written without the
    indentation. *)
Lemma C8_whitespace_tolerance_witness :
  contains (py "if x:\n  y = 1") (py "    if x:\n      y = 1\n") = false /\
  candidate_window (splitlines (py "if x:\n  y = 1"))
                   (splitlines (py "    if x:\n      y = 1\n")) 0 /\
  validate_operations (py "    if x:\n      y = 1\n")
    [{| search_text := py "if x:\n  y = 1"; replace_text := py "if x:\n  y = 2" |}]
  = Ok (true, py "Valid") /\
  _apply_single_operation (py "    if x:\n      y = 1\n")
    {| search_text := py "if x:\n  y = 1"; replace_text := py "if x:\n  y = 2" |}
  = Ok (py "    if x:\n      y = 2").
Proof.
  assert (Hc : candidate_window (splitlines (py "if x:\n  y = 1"))
                 (splitlines (py "    if x:\n      y = 1\n")) 0)
    by now apply candidate_windowb_spec.
  split; [reflexivity | split; [exact Hc|]].
  destruct (C8_whitespace_tolerance
              (py "    if x:\n      y = 1\n")
              {| search_text := py "if x:\n  y = 1";
                 replace_text := py "if x:\n  y = 2" |}
              0 eq_refl Hc) as (Hv & _ & i0 & Hle & _ & Happ).
  split; [exact Hv|].
  assert (Hi : i0 = 0) by lia. subst i0. rewrite Happ.
  vm_compute. reflexivity.
Defined.

(** ** Validation failure *)

(** [C6] When the operations parsed from the response contain one that does
    not resolve against the target, neither exactly nor through a candidate
    window, and all the operations before it do, the validator stops at it,
    whatever the operations after it are, and the orchestrator returns the
    original text with [success = false] and a message that carries the
    1-based rank of that operation and the first 50 characters of its
    [search_text]. *)
Theorem C6_validation_failure :
  forall (original_code llm_response : str)
         (before after : list SearchReplaceOperation)
         (op : SearchReplaceOperation),
    parse_search_replace_response llm_response = before ++ op :: after ->
    Forall (resolvable original_code) before ->
    ~ resolvable original_code op ->
    validate_operations original_code (before ++ op :: after)
    = Ok (false,
          py "SEARCH block " ++ str_of_nat (length before + 1)
             ++ py " not found: '" ++ firstn 50 (search_text op) ++ py "...'") /\
    _apply_search_replace_format original_code llm_response
    = (original_code, false,
       py "Invalid SEARCH/REPLACE operations: "
          ++ py "SEARCH block " ++ str_of_nat (length before + 1)
          ++ py " not found: '" ++ firstn 50 (search_text op) ++ py "...'").
Proof.
  intros original_code llm_response before after op Hp Hb Hop.
  assert (Hv : validate_operations original_code (before ++ op :: after)
               = Ok (false, not_found_message (length before) op)).
  { unfold validate_operations.
    now rewrite (validate_from_first_unresolved _ _ after _ 0 Hb Hop). }
  split; [exact Hv|].
  destruct (before ++ op :: after) as [|o ops] eqn:E.
  - destruct before; discriminate.
  - rewrite (orchestrator_invalid _ _ _ _ _ Hp Hv).
    reflexivity.
Qed.

Lemma C6_validation_failure_witness :
  _apply_search_replace_format (py "x = 1\ny = 2\n")
    (py "<<<<<<< SEARCH\nx = 1\n=======\nx = 3\n>>>>>>> REPLACE\n<<<<<<< SEARCH\nz = 0\n=======\nz = 1\n>>>>>>> REPLACE\n<<<<<<< SEARCH\ny = 2\n=======\ny = 4\n>>>>>>> REPLACE\n")
  = (py "x = 1\ny = 2\n", false,
     py "Invalid SEARCH/REPLACE operations: SEARCH block 2 not found: 'z = 0...'").
Proof.
  refine (proj2 (C6_validation_failure
                   (py "x = 1\ny = 2\n")
                   (py "<<<<<<< SEARCH\nx = 1\n=======\nx = 3\n>>>>>>> REPLACE\n<<<<<<< SEARCH\nz = 0\n=======\nz = 1\n>>>>>>> REPLACE\n<<<<<<< SEARCH\ny = 2\n=======\ny = 4\n>>>>>>> REPLACE\n")
                   [{| search_text := py "x = 1"; replace_text := py "x = 3" |}]
                   [{| search_text := py "y = 2"; replace_text := py "y = 4" |}]
                   {| search_text := py "z = 0"; replace_text := py "z = 1" |}
                   _ _ _)).
  - vm_compute. reflexivity.
  - constructor; [|constructor]. apply resolvableb_spec. vm_compute. reflexivity.
  - apply not_resolvableb. vm_compute. reflexivity.
Defined.

(** ** Order of the operations *)

(** [C1], as the code has it.  The validator checks every operation against
    the original text, before any edit is made.  So when the first operation
    resolves against the original text and the second does not, the
    orchestrator fails validation in both orders and returns the original
    text with [success = false]: in the given order the message names block
    2, in the reverse order block 1.  It is the applicator alone, run
    without the validator, that applies the second operation to the result
    of the first. *)
Theorem C1_validation_precedes_application :
  forall (original_code forward backward mid : str)
         (op1 op2 : SearchReplaceOperation) (k : nat),
    parse_search_replace_response forward = [op1; op2] ->
    parse_search_replace_response backward = [op2; op1] ->
    resolvable original_code op1 ->
    ~ resolvable original_code op2 ->
    _apply_single_operation original_code op1 = Ok mid ->
    first_occurrence (search_text op2) mid k ->
    _apply_search_replace_format original_code forward
    = (original_code, false,
       py "Invalid SEARCH/REPLACE operations: SEARCH block 2 not found: '"
          ++ firstn 50 (search_text op2) ++ py "...'") /\
    _apply_search_replace_format original_code backward
    = (original_code, false,
       py "Invalid SEARCH/REPLACE operations: SEARCH block 1 not found: '"
          ++ firstn 50 (search_text op2) ++ py "...'") /\
    apply_search_replace_operations original_code [op1; op2]
    = Ok (firstn k mid ++ replace_text op2
            ++ skipn (k + length (search_text op2)) mid).
Proof.
  intros original_code forward backward mid op1 op2 k Hf Hb H1 H2 Hmid Hk.
  split; [|split].
  - rewrite (orchestrator_invalid _ _ (not_found_message 1 op2) _ _ Hf).
    + reflexivity.
    + unfold validate_operations.
      rewrite validate_from_accepts by exact H1.
      now apply validate_from_rejects.
  - rewrite (orchestrator_invalid _ _ (not_found_message 0 op2) _ _ Hb).
    + reflexivity.
    + unfold validate_operations. now apply validate_from_rejects.
  - cbn [apply_search_replace_operations]. rewrite Hmid. cbn [bind].
    rewrite (_apply_single_operation_exact _ _ _ Hk). reflexivity.
Qed.

Lemma C1_validation_precedes_application_witness :
  _apply_search_replace_format (py "a")
    (py "<<<<<<< SEARCH\na\n=======\nb\n>>>>>>> REPLACE\n<<<<<<< SEARCH\nb\n=======\nc\n>>>>>>> REPLACE")
  = (py "a", false,
     py "Invalid SEARCH/REPLACE operations: SEARCH block 2 not found: 'b...'") /\
  _apply_search_replace_format (py "a")
    (py "<<<<<<< SEARCH\nb\n=======\nc\n>>>>>>> REPLACE\n<<<<<<< SEARCH\na\n=======\nb\n>>>>>>> REPLACE")
  = (py "a", false,
     py "Invalid SEARCH/REPLACE operations: SEARCH block 1 not found: 'b...'") /\
  apply_search_replace_operations (py "a")
    [{| search_text := py "a"; replace_text := py "b" |};
     {| search_text := py "b"; replace_text := py "c" |}]
  = Ok (py "c").
Proof.
  refine (C1_validation_precedes_application
            (py "a")
            (py "<<<<<<< SEARCH\na\n=======\nb\n>>>>>>> REPLACE\n<<<<<<< SEARCH\nb\n=======\nc\n>>>>>>> REPLACE")
            (py "<<<<<<< SEARCH\nb\n=======\nc\n>>>>>>> REPLACE\n<<<<<<< SEARCH\na\n=======\nb\n>>>>>>> REPLACE")
            (py "b")
            {| search_text := py "a"; replace_text := py "b" |}
            {| search_text := py "b"; replace_text := py "c" |}
            0 _ _ _ _ _ _).
  - vm_compute. reflexivity.
  - vm_compute. reflexivity.
  - apply resolvableb_spec. vm_compute. reflexivity.
  - apply not_resolvableb. vm_compute. reflexivity.
  - vm_compute. reflexivity.
  - split; [split; [simpl; lia | reflexivity] | intros i Hi; lia].
Defined.

(** The order-sensitivity scenario run through the orchestrator: the second
    operation's [search_text] occurs only in the text produced by the first,
    and the run in the given order is rejected by the validator. *)
Lemma C1_forward_order_rejected :
  parse_search_replace_response
    (py "<<<<<<< SEARCH\na\n=======\nb\n>>>>>>> REPLACE\n<<<<<<< SEARCH\nb\n=======\nc\n>>>>>>> REPLACE")
  = [{| search_text := py "a"; replace_text := py "b" |};
     {| search_text := py "b"; replace_text := py "c" |}] /\
  contains (py "b") (py "a") = false /\
  _apply_single_operation (py "a")
    {| search_text := py "a"; replace_text := py "b" |} = Ok (py "b") /\
  contains (py "b") (py "b") = true /\
  _apply_search_replace_format (py "a")
    (py "<<<<<<< SEARCH\na\n=======\nb\n>>>>>>> REPLACE\n<<<<<<< SEARCH\nb\n=======\nc\n>>>>>>> REPLACE")
  = (py "a", false,
     py "Invalid SEARCH/REPLACE operations: SEARCH block 2 not found: 'b...'").
Proof. repeat split; vm_compute; reflexivity. Qed.

(** ** Faults stop at the boundary *)



(** ** Re-indentation *)

Lemma lstrip_spaces (n : nat) (s : str) : lstrip (repeat SPACE n ++ s) = lstrip s.
Proof. induction n as [|n IH]; simpl; auto. Qed.

Lemma lstrip_idempotent (s : str) : lstrip (lstrip s) = lstrip s.
Proof.
  induction s as [|c s IH]; simpl; [reflexivity|].
  destruct (isspace c) eqn:E; [exact IH|]. simpl. now rewrite E.
Qed.

Lemma indent_width_spaces (n : nat) (line : str) :
  indent_width (repeat SPACE n ++ lstrip line) = n.
Proof.
  unfold indent_width.
  rewrite lstrip_spaces, lstrip_idempotent, length_app, repeat_length. lia.
Qed.

Lemma reindent_length (base_indent : nat) (replace_lines : list str) :
  length (reindent base_indent replace_lines) = length replace_lines.
Proof. destruct replace_lines; simpl; [|rewrite length_map]; reflexivity. Qed.

Lemma reindent_nth (base_indent : nat) (replace_lines : list str)
  (k : nat) (line : str) :
  nth_error replace_lines k = Some line ->
  nth_error (reindent base_indent replace_lines) k
  = Some (if k =? 0 then reindent_first base_indent line
          else reindent_later base_indent line).
Proof.
  destruct replace_lines as [|first later]; [now destruct k|].
  destruct k as [|k]; simpl.
  - now intros [= ->].
  - intros H. now rewrite nth_error_map, H.
Qed.

(** [C7], as the code has it.  On the normalized path, with [base_indent]
    the width of the leading whitespace of the first line of the matched
    window, the replacement lines are emitted in place of the window, one
    for one: a blank line as it is; the first line of [replace_text], when
    it is not blank, with exactly [base_indent] spaces in place of its own
    leading whitespace; every non-blank line after the first line with
    [base_indent] plus the width of its own leading whitespace, in spaces.
    (A non-blank line that follows blank first lines is treated as a later
    line.) *)
Theorem C7_reindentation :
  forall (code : str) (op : SearchReplaceOperation) (i : nat),
    contains (search_text op) code = false ->
    first_candidate (splitlines (search_text op)) (splitlines code) i ->
    exists emitted : list str,
      _apply_single_operation code op
      = Ok (join (py "\n")
              (firstn i (splitlines code) ++ emitted
               ++ skipn (i + length (splitlines (search_text op)))
                        (splitlines code))) /\
      length emitted = length (splitlines (replace_text op)) /\
      forall (k : nat) (line : str),
        nth_error (splitlines (replace_text op)) k = Some line ->
        exists out : str,
          nth_error emitted k = Some out /\
          (isblank line = true -> out = line) /\
          (isblank line = false -> k = 0 ->
           out = repeat SPACE (indent_width (nth i (splitlines code) []))
                   ++ lstrip line /\
           indent_width out = indent_width (nth i (splitlines code) [])) /\
          (isblank line = false -> 0 < k ->
           out = repeat SPACE (indent_width (nth i (splitlines code) [])
                               + indent_width line)
                   ++ lstrip line /\
           indent_width out
           = indent_width (nth i (splitlines code) []) + indent_width line).
Proof.
  intros code op i Hno Hf.
  exists (reindent (indent_width (nth i (splitlines code) []))
                   (splitlines (replace_text op))).
  split; [now apply _apply_single_operation_normalized|].
  split; [apply reindent_length|].
  intros k line Hk. eexists. split; [apply (reindent_nth _ _ _ _ Hk)|].
  unfold reindent_first, reindent_later.
  split; [|split].
  - intros ->. now destruct (k =? 0).
  - intros -> ->. cbn [Nat.eqb]. split; [reflexivity|].
    apply indent_width_spaces.
  - intros -> Hpos. destruct (Nat.eqb_spec k 0) as [-> | _]; [lia|].
    split; [reflexivity|]. apply indent_width_spaces.
Qed.

(** The re-indentation scenario of the specification: a window indented by
    4 spaces and the replacement ["a\n  b"] give lines indented by 4 and by
    6 spaces. *)
Lemma C7_reindentation_scenario :
  contains (py "if c {\n  y\n}") (py "    if c {\n        y\n    }") = false /\
  first_candidate (splitlines (py "if c {\n  y\n}"))
                  (splitlines (py "    if c {\n        y\n    }")) 0 /\
  indent_width (nth 0 (splitlines (py "    if c {\n        y\n    }")) []) = 4 /\
  exists emitted : list str,
    _apply_single_operation (py "    if c {\n        y\n    }")
      {| search_text := py "if c {\n  y\n}"; replace_text := py "a\n  b" |}
    = Ok (join (py "\n") emitted) /\
    nth_error emitted 0 = Some (py "    a") /\
    nth_error emitted 1 = Some (py "      b").
Proof.
  assert (Hf : first_candidate (splitlines (py "if c {\n  y\n}"))
                 (splitlines (py "    if c {\n        y\n    }")) 0)
    by (apply first_candidateb; reflexivity).
  split; [reflexivity | split; [exact Hf | split; [reflexivity|]]].
  destruct (C7_reindentation
              (py "    if c {\n        y\n    }")
              {| search_text := py "if c {\n  y\n}"; replace_text := py "a\n  b" |}
              0 eq_refl Hf) as (emitted & Happ & _ & Hlines).
  exists emitted. split; [|split].
  - rewrite Happ. cbn [firstn app]. f_equal. f_equal.
    change (skipn _ _) with (@nil str). apply app_nil_r.
  - destruct (Hlines 0 (py "a") eq_refl) as (out & Hout & _ & H0 & _).
    destruct (H0 eq_refl eq_refl) as [-> _]. exact Hout.
  - destruct (Hlines 1 (py "  b") eq_refl) as (out & Hout & _ & _ & H1).
    destruct (H1 eq_refl (Nat.lt_0_succ 0)) as [-> _]. exact Hout.
Defined.

(** Read word for word, the rule would give the first non-blank line
    exactly [base_indent] spaces wherever it stands.  With a window indented
    by 4 spaces and the replacement ["\n  b"], whose first non-blank line is
    its second line, the code emits that line with 6 spaces where the rule
    so read asks for 4. *)
Lemma C7_blank_first_line :
  contains (py "x ") (py "    x") = false /\
  first_candidate (splitlines (py "x ")) (splitlines (py "    x")) 0 /\
  indent_width (nth 0 (splitlines (py "    x")) []) = 4 /\
  splitlines (py "\n  b") = [[]; py "  b"] /\
  _apply_single_operation (py "    x")
    {| search_text := py "x "; replace_text := py "\n  b" |}
  = Ok (py "\n      b") /\
  join (py "\n") (reindent_first_nonblank 4 false (splitlines (py "\n  b")))
  = py "\n    b" /\
  py "\n      b" <> py "\n    b".
Proof.
  split; [reflexivity|].
  split; [apply first_candidateb; reflexivity|].
  repeat split; try reflexivity. discriminate.
Qed.

(** ** Line terminators on the normalized path *)

Lemma splitlines_cons_lf (s : str) : splitlines (LF :: s) = [] :: splitlines s.
Proof. destruct s; reflexivity. Qed.

Lemma splitlines_no_linebreak (s : str) : Forall no_linebreak (splitlines s).
Proof.
  induction s as [|c s IH]; simpl; [constructor|].
  destruct (islinebreak c) eqn:E.
  - constructor; [intros x []|].
    destruct s as [|d s]; [constructor|].
    destruct (N.eqb c CR && N.eqb d LF) eqn:E2; [|exact IH].
    apply andb_true_iff in E2 as [_ Hd]. apply N.eqb_eq in Hd. subst d.
    rewrite splitlines_cons_lf in IH. now inversion IH.
  - destruct (splitlines s) as [|l ls].
    + constructor; [|constructor]. intros x [<- | []]. exact E.
    + inversion IH as [|? ? Hl Hls]. subst. constructor; [|exact Hls].
      intros x [<- | Hx]; [exact E | now apply Hl].
Qed.

(** A final LF after an unterminated last line adds no line. *)
Lemma splitlines_final_lf (body : str) :
  body <> [] -> islinebreak (last body SPACE) = false ->
  splitlines (body ++ [LF]) = splitlines body.
Proof.
  induction body as [|c body IH]; intros Hne Hlast; [congruence|].
  destruct body as [|d body].
  - simpl in Hlast. simpl. rewrite Hlast. reflexivity.
  - assert (IH' : splitlines ((d :: body) ++ [LF]) = splitlines (d :: body))
      by (apply IH; [discriminate | exact Hlast]).
    change ((c :: d :: body) ++ [LF]) with (c :: (d :: body) ++ [LF]).
    cbn [splitlines]. fold splitlines. rewrite IH'.
    change ((d :: body) ++ [LF]) with (d :: body ++ [LF]) in *.
    destruct (islinebreak c); [|reflexivity]. f_equal.
    destruct (N.eqb c CR && N.eqb d LF) eqn:E2; [|reflexivity].
    apply andb_true_iff in E2 as [_ Hd]. apply N.eqb_eq in Hd. subst d.
    rewrite !splitlines_cons_lf in IH'. now injection IH'.
Qed.

Lemma occurs_at_app (sub s t : str) (k : nat) :
  occurs_at sub s k -> occurs_at sub (s ++ t) k.
Proof.
  intros [Hk H]. split; [rewrite length_app; lia|].
  apply startswith_iff in H as [r Hr]. apply startswith_iff.
  exists (r ++ t). rewrite skipn_app, Hr, <- app_assoc.
  replace (k - length s) with 0 by lia. reflexivity.
Qed.

Lemma contains_app_false (sub s t : str) :
  contains sub (s ++ t) = false -> contains sub s = false.
Proof.
  intros H. destruct (contains sub s) eqn:E; [|reflexivity].
  apply contains_first in E as (k & Hk & _).
  apply (occurs_at_app _ _ t) in Hk. apply contains_true in Hk. congruence.
Qed.

Lemma lstrip_incl (s : str) (c : char) : In c (lstrip s) -> In c s.
Proof.
  induction s as [|x s IH]; simpl; [auto|].
  destruct (isspace x); simpl; auto.
Qed.

Lemma reindent_no_linebreak (base_indent : nat) (replace_lines : list str) :
  Forall no_linebreak replace_lines ->
  Forall no_linebreak (reindent base_indent replace_lines).
Proof.
  assert (Hsp : forall n line, no_linebreak line ->
                  no_linebreak (repeat SPACE n ++ lstrip line)).
  { intros n line Hl c Hc. apply in_app_or in Hc as [Hc | Hc].
    - apply repeat_spec in Hc. now subst c.
    - apply Hl. now apply lstrip_incl. }
  intros H. destruct H as [|first later Hfirst Hlater]; simpl; constructor.
  - unfold reindent_first. destruct (isblank first); auto.
  - apply Forall_map. eapply Forall_impl; [|exact Hlater].
    intros line Hl. unfold reindent_later. destruct (isblank line); auto.
Qed.

Lemma Forall_firstn_keep {A : Type} (P : A -> Prop) (n : nat) (l : list A) :
  Forall P l -> Forall P (firstn n l).
Proof.
  intros H. revert n. induction H; intros [|n]; simpl; constructor; auto.
Qed.

Lemma Forall_skipn_keep {A : Type} (P : A -> Prop) (n : nat) (l : list A) :
  Forall P l -> Forall P (skipn n l).
Proof.
  intros H. revert n. induction H; intros [|n]; simpl; auto.
Qed.

Lemma join_linebreaks (lines : list str) (c : char) :
  Forall no_linebreak lines ->
  In c (join [LF] lines) -> islinebreak c = true -> c = LF.
Proof.
  induction 1 as [|l ls Hl Hls IH]; simpl; [easy|].
  destruct ls as [|l2 ls].
  - intros Hc Hb. apply Hl in Hc. congruence.
  - intros Hc Hb. apply in_app_or in Hc as [Hc | [Hc | Hc]]; auto.
    apply Hl in Hc. congruence.
Qed.

Lemma join_no_final_lf (lines : list str) (out : str) :
  Forall no_linebreak lines -> last lines [] <> [] ->
  join [LF] lines <> out ++ [LF].
Proof.
  intros H. revert out. induction H as [|l ls Hl Hls IH]; intros out Hlast;
    [now simpl in Hlast|].
  destruct ls as [|l2 ls].
  - simpl in *. intros ->. specialize (Hl LF). rewrite in_app_iff in Hl.
    discriminate Hl. simpl; auto.
  - change (join [LF] (l :: l2 :: ls)) with (l ++ LF :: join [LF] (l2 :: ls)).
    change (last (l :: l2 :: ls) []) with (last (l2 :: ls) []) in Hlast.
    intros Heq.
    destruct (join [LF] (l2 :: ls)) as [|x rest] eqn:Ej.
    + destruct ls as [|l3 ls]; simpl in Ej, Hlast; [congruence|].
      destruct l2; discriminate.
    + destruct (exists_last (l := x :: rest)) as (front & y & Ey);
        [discriminate|].
      rewrite Ey in Heq, Ej.
      change (l ++ LF :: front ++ [y]) with (l ++ (LF :: front) ++ [y]) in Heq.
      rewrite app_assoc in Heq. apply app_inj_tail in Heq as [_ ->].
      now apply (IH front).
Qed.

(** [C10] On the normalized path, when a candidate window exists, the
    result is the list of lines (those before the window, the re-indented
    replacement, those after the window) joined by LF.  Hence LF is the only
    line boundary left in it: a CR LF of the input, like any other boundary,
    comes out as LF.  The final newline of the input is not emitted: the
    result is the one obtained from the input without it, and it does not
    end with a newline unless its last line is empty.  The exact-match path
    does none of this: it keeps the text before and after the occurrence
    byte for byte. *)
Theorem C10_normalized_path_rejoins_lines :
  forall (code : str) (op : SearchReplaceOperation) (i : nat),
    contains (search_text op) code = false ->
    first_candidate (splitlines (search_text op)) (splitlines code) i ->
    exists (out_lines : list str) (out : str),
      out_lines
      = firstn i (splitlines code)
        ++ reindent (indent_width (nth i (splitlines code) []))
                    (splitlines (replace_text op))
        ++ skipn (i + length (splitlines (search_text op))) (splitlines code) /\
      out = join (py "\n") out_lines /\
      _apply_single_operation code op = Ok out /\
      (forall c, In c out -> islinebreak c = true -> c = LF) /\
      (forall body,
          code = body ++ py "\n" -> body <> [] ->
          islinebreak (last body SPACE) = false ->
          _apply_single_operation body op = Ok out) /\
      (last out_lines [] <> [] -> forall out', out <> out' ++ py "\n") /\
      (forall (code' : str) (op' : SearchReplaceOperation) (k : nat),
          first_occurrence (search_text op') code' k ->
          _apply_single_operation code' op'
          = Ok (firstn k code' ++ replace_text op'
                  ++ skipn (k + length (search_text op')) code')).
Proof.
  intros code op i Hno Hf. eexists. eexists.
  split; [reflexivity|]. split; [reflexivity|].
  assert (Hlines : Forall no_linebreak
            (firstn i (splitlines code)
             ++ reindent (indent_width (nth i (splitlines code) []))
                         (splitlines (replace_text op))
             ++ skipn (i + length (splitlines (search_text op)))
                      (splitlines code))).
  { apply Forall_app. split; [apply Forall_firstn_keep, splitlines_no_linebreak|].
    apply Forall_app. split.
    - apply reindent_no_linebreak, splitlines_no_linebreak.
    - apply Forall_skipn_keep, splitlines_no_linebreak. }
  split; [now apply _apply_single_operation_normalized|].
  split; [|split; [|split]].
  - intros c. now apply join_linebreaks.
  - intros body -> Hne Hlast.
    change (py "\n") with [LF] in *.
    rewrite (splitlines_final_lf _ Hne Hlast) in *.
    apply _apply_single_operation_normalized; [|exact Hf].
    now apply contains_app_false in Hno.
  - intros Hlast out'. now apply join_no_final_lf.
  - intros code' op' k. apply _apply_single_operation_exact.
Qed.

(** A target with CR LF terminators and a final newline: the normalized path
    gives ["x\n  c"], and gives the same for the target without its final
    newline. *)
Lemma C10_normalized_path_rejoins_lines_witness :
  contains (py "a\nb") (py "x\r\n  a\r\n  b\n") = false /\
  first_candidate (splitlines (py "a\nb")) (splitlines (py "x\r\n  a\r\n  b\n")) 1 /\
  _apply_single_operation (py "x\r\n  a\r\n  b\n")
    {| search_text := py "a\nb"; replace_text := py "c" |}
  = Ok (py "x\n  c") /\
  _apply_single_operation (py "x\r\n  a\r\n  b")
    {| search_text := py "a\nb"; replace_text := py "c" |}
  = Ok (py "x\n  c").
Proof.
  assert (Hf : first_candidate (splitlines (py "a\nb"))
                 (splitlines (py "x\r\n  a\r\n  b\n")) 1)
    by (apply first_candidateb; reflexivity).
  split; [reflexivity | split; [exact Hf|]].
  destruct (C10_normalized_path_rejoins_lines
              (py "x\r\n  a\r\n  b\n")
              {| search_text := py "a\nb"; replace_text := py "c" |}
              1 eq_refl Hf)
    as (out_lines & out & -> & -> & Happ & _ & Hbody & _).
  split; [exact Happ|].
  apply (Hbody (py "x\r\n  a\r\n  b")); [reflexivity | discriminate | reflexivity].
Defined.

(** The exact-match path on the same target keeps CR LF and the final
    newline. *)
Example exact_path_keeps_terminators :
  _apply_single_operation (py "x\r\n  a\r\n  b\n")
    {| search_text := py "a"; replace_text := py "c" |}
  = Ok (py "x\r\n  c\r\n  b\n").
Proof. reflexivity. Qed.

(** ** The scan of [re] *)

Lemma ws_star_suffix (s x : str) :
  In x (ws_star s) -> exists w, s = w ++ x /\ forallb isspace w = true.
Proof.
  induction s as [|c s IH]; simpl.
  - intros [<- | []]. now exists [].
  - destruct (isspace c) eqn:E.
    + intros H. apply in_app_or in H as [H | [<- | []]].
      * destruct (IH H) as (w & -> & Hw). exists (c :: w). simpl.
        now rewrite E, Hw.
      * now exists [].
    + intros [<- | []]. now exists [].
Qed.

Lemma any_lazy_suffix (s x : str) :
  In x (any_lazy s) -> exists w, s = w ++ x.
Proof.
  induction s as [|c s IH]; simpl.
  - intros [<- | []]. now exists [].
  - intros [<- | H]; [now exists []|].
    destruct (IH H) as (w & ->). now exists (c :: w).
Qed.

(** What a match leaves over is a suffix of the input. *)
Lemma run_suffix (r : regex) (s : str) (t : thread) :
  In t (run r s) -> exists w, s = w ++ snd t.
Proof.
  revert s t; induction r as [l | | | | r IH | r1 IH1 r2 IH2 | r1 IH1 r2 IH2 | r IH];
    intros s t; simpl.
  - destruct (startswith l s) eqn:E; [|intros []].
    intros [<- | []]. exists l. now apply startswith_split.
  - intros H. apply in_map_iff in H as (x & <- & Hx).
    destruct (ws_star_suffix _ _ Hx) as (w & -> & _). now exists w.
  - intros H. apply in_map_iff in H as (x & <- & Hx).
    apply (any_lazy_suffix _ _ Hx).
  - destruct s as [|c s].
    + intros [<- | []]. now exists [].
    + destruct (N.eqb c LF); [|intros []]. intros [<- | []]. now exists [].
  - intros H. apply in_app_or in H as [H | [<- | []]]; [now apply IH|].
    now exists [].
  - intros H. apply in_app_or in H as [H | H]; [now apply IH1 | now apply IH2].
  - intros H. apply in_flat_map in H as (t1 & H1 & H).
    apply in_map_iff in H as (t2 & <- & H2).
    destruct (IH1 _ _ H1) as (w1 & ->). destruct (IH2 _ _ H2) as (w2 & E).
    exists (w1 ++ w2). simpl. rewrite <- app_assoc. now f_equal.
  - intros H. apply in_map_iff in H as (t1 & <- & H1). simpl. now apply IH.
Qed.

Lemma skipn_suffix {A : Type} (w x : list A) :
  skipn (length (w ++ x) - length x) (w ++ x) = x.
Proof.
  rewrite length_app. replace (length w + length x - length x) with (length w) by lia.
  rewrite skipn_app, skipn_all, Nat.sub_diag. reflexivity.
Qed.

Lemma scan_skip (r : regex) (k : nat) (s : str) :
  k <= length s -> scan r k s = scan r 0 (skipn k s).
Proof.
  revert k; induction s as [|c s IH]; intros [|k] Hk; try reflexivity.
  - simpl in Hk. lia.
  - simpl in Hk. cbn [scan skipn]. apply IH. lia.
Qed.

(** No match at the current offset: the character is kept. *)
Lemma scan_keep (r : regex) (c : char) (s : str) :
  run r (c :: s) = [] -> scan r 0 (c :: s) = Keep c :: scan r 0 s.
Proof. intros H. cbn [scan]. now rewrite H. Qed.

(** A match that consumes something: the scan resumes after it. *)
Lemma scan_hit (r : regex) (s rest : str) (g : list str) (ts : list thread) :
  run r s = (g, rest) :: ts -> length rest < length s ->
  scan r 0 s = Hit g :: scan r 0 rest.
Proof.
  intros H Hlen. destruct (run_suffix r s (g, rest)) as (w & Hw).
  { rewrite H. now left. }
  simpl in Hw. destruct s as [|c s]; [simpl in Hlen; lia|].
  cbn [scan]. rewrite H.
  destruct (length (c :: s) - length rest) as [|k] eqn:Ek; [lia|].
  f_equal. rewrite scan_skip.
  - f_equal. change (skipn k s) with (skipn (S k) (c :: s)).
    rewrite <- Ek, Hw. apply skipn_suffix.
  - change (length (c :: s)) with (S (length s)) in Ek. lia.
Qed.

Lemma scan_keep_prefix (r : regex) (before s : str) :
  (forall p, p < length before -> run r (skipn p (before ++ s)) = []) ->
  scan r 0 (before ++ s) = map Keep before ++ scan r 0 s.
Proof.
  induction before as [|c before IH]; intros H; [reflexivity|].
  simpl app. rewrite scan_keep.
  - simpl. f_equal. apply IH. intros p Hp. apply (H (S p)). simpl. lia.
  - apply (H 0). simpl. lia.
Qed.

(** ** First matches *)

Lemma first_match_lit (l r : str) : first_match (Lit l) (l ++ r) ([], r).
Proof.
  exists []. simpl. rewrite startswith_app.
  now rewrite skipn_app, skipn_all, Nat.sub_diag.
Qed.

Lemma run_lit_none (l s : str) : startswith l s = false -> run (Lit l) s = [].
Proof. intros H. simpl. now rewrite H. Qed.

Lemma ws_star_head (s : str) : exists xs, ws_star s = lstrip s :: xs.
Proof.
  induction s as [|c s [xs IH]]; simpl; [now exists []|].
  destruct (isspace c); [|now exists []].
  rewrite IH. now exists (xs ++ [c :: s]).
Qed.

Lemma first_match_ws (s : str) : first_match WsStar s ([], lstrip s).
Proof.
  destruct (ws_star_head s) as [xs H]. exists (map (pair []) xs).
  simpl. now rewrite H.
Qed.

Lemma first_match_seq (r1 r2 : regex) (s s1 s2 : str) (g1 g2 : list str) :
  first_match r1 s (g1, s1) -> first_match r2 s1 (g2, s2) ->
  first_match (Seq r1 r2) s (g1 ++ g2, s2).
Proof.
  intros [ts1 H1] [ts2 H2]. unfold first_match. cbn [run].
  rewrite H1. cbn [flat_map fst snd]. rewrite H2. cbn [map app fst snd].
  eexists. reflexivity.
Qed.

Lemma run_seq_nil (r1 r2 : regex) (s : str) :
  run r1 s = [] -> run (Seq r1 r2) s = [].
Proof. intros H. simpl. now rewrite H. Qed.

Lemma first_match_alt_l (r1 r2 : regex) (s : str) (t : thread) :
  first_match r1 s t -> first_match (Alt r1 r2) s t.
Proof.
  intros [ts H]. unfold first_match. cbn [run]. rewrite H.
  eexists. reflexivity.
Qed.

Lemma first_match_alt_r (r1 r2 : regex) (s : str) (t : thread) :
  run r1 s = [] -> first_match r2 s t -> first_match (Alt r1 r2) s t.
Proof.
  intros H1 [ts H]. unfold first_match. cbn [run]. rewrite H1, H.
  eexists. reflexivity.
Qed.

Lemma first_match_opt_some (r : regex) (s : str) (t : thread) :
  first_match r s t -> first_match (Opt r) s t.
Proof.
  intros [ts H]. unfold first_match. cbn [run]. rewrite H.
  eexists. reflexivity.
Qed.

Lemma first_match_opt_none (r : regex) (s : str) :
  run r s = [] -> first_match (Opt r) s ([], s).
Proof.
  intros H. unfold first_match. cbn [run]. rewrite H. eexists. reflexivity.
Qed.

(** When the first choices of [r1] leave [r2] without a match, [re] backs
    up to the next ones: whatever holds of every way of continuing a match
    of [r1] by a first match of [r2] holds of the match reported, as soon as
    some match of [r1] can be continued. *)
Lemma first_match_seq_backtrack (r1 r2 : regex) (s : str) (P : thread -> Prop) :
  (exists t1, In t1 (run r1 s) /\ run r2 (snd t1) <> []) ->
  (forall t1 t2, In t1 (run r1 s) -> first_match r2 (snd t1) t2 ->
                 P (fst t1 ++ fst t2, snd t2)) ->
  exists t, first_match (Seq r1 r2) s t /\ P t.
Proof.
  unfold first_match. cbn [run]. induction (run r1 s) as [|t ts IH];
    intros (t1 & Hin & Hne) HP; [destruct Hin|].
  simpl. destruct (run r2 (snd t)) as [|t2 ts2] eqn:E.
  - simpl. apply IH.
    + destruct Hin as [-> | Hin]; [congruence | eauto].
    + intros u1 u2 Hu. apply HP. now right.
  - simpl. eexists. split; [eexists; reflexivity|].
    apply (HP t t2); [now left|]. rewrite E. eexists. reflexivity.
Qed.

Lemma lstrip_not_space (s : str) (c : char) (r : str) :
  lstrip s = c :: r -> isspace c = false.
Proof.
  induction s as [|x s IH]; simpl; [discriminate|].
  destruct (isspace x) eqn:E; [exact IH|]. now intros [= <- _].
Qed.

Lemma run_lit_after_lstrip (c : char) (s : str) :
  isspace c = true -> run (Lit [c]) (lstrip s) = [].
Proof.
  intros Hc. apply run_lit_none.
  destruct (lstrip s) as [|x r] eqn:E; [reflexivity|]. simpl.
  destruct (N.eqb_spec c x) as [-> | _]; [|reflexivity].
  apply lstrip_not_space in E. congruence.
Qed.

(** ** Fence markers *)

Lemma first_match_tag (r : str) :
  first_match
    (Opt (Alt (Lit (py "rust")) (Alt (Lit (py "verus")) (Lit (py "python")))))
    r ([], drop_tag r).
Proof.
  unfold first_match, drop_tag. cbn [run].
  destruct (startswith (py "rust") r); [eexists; reflexivity|].
  destruct (startswith (py "verus") r); [eexists; reflexivity|].
  destruct (startswith (py "python") r); eexists; reflexivity.
Qed.

(** At a fence marker [fence_re] matches the marker, the tag if there is
    one, and all the whitespace that follows. *)
Lemma fence_re_match (r : str) :
  first_match fence_re (py "```" ++ r) ([], lstrip (drop_tag r)).
Proof.
  apply first_match_alt_l. cbn [seqs].
  apply (first_match_seq _ _ _ r _ [] []); [apply first_match_lit|].
  apply (first_match_seq _ _ _ (drop_tag r) _ [] []); [apply first_match_tag|].
  apply (first_match_seq _ _ _ (lstrip (drop_tag r)) _ [] []);
    [apply first_match_ws|].
  apply first_match_opt_none. now apply run_lit_after_lstrip.
Qed.

Lemma fence_re_none (s : str) :
  startswith (py "```") s = false -> run fence_re s = [].
Proof.
  intros H. unfold fence_re. cbn [seqs].
  change (run (Alt ?a ?b) s) with (run a s ++ run b s).
  now rewrite !run_seq_nil by now apply run_lit_none.
Qed.

Lemma sub_fence_nil : re_sub_empty fence_re [] = [].
Proof. reflexivity. Qed.

Lemma sub_fence_keep (c : char) (s : str) :
  startswith (py "```") (c :: s) = false ->
  re_sub_empty fence_re (c :: s) = c :: re_sub_empty fence_re s.
Proof.
  intros H. unfold re_sub_empty.
  rewrite scan_keep by now apply fence_re_none. reflexivity.
Qed.

Lemma length_lstrip (s : str) : length (lstrip s) <= length s.
Proof.
  induction s as [|c s IH]; simpl; [lia|].
  destruct (isspace c); simpl; lia.
Qed.

Lemma length_drop_tag (s : str) : length (drop_tag s) <= length s.
Proof.
  unfold drop_tag.
  repeat match goal with
         | |- context [if ?b then _ else _] => destruct b
         end; rewrite ?length_skipn; lia.
Qed.

(** The equation of [re.sub] at a fence marker: the marker, its tag and the
    whitespace after it are deleted. *)
Lemma sub_fence_hit (r : str) :
  re_sub_empty fence_re (py "```" ++ r)
  = re_sub_empty fence_re (lstrip (drop_tag r)).
Proof.
  destruct (fence_re_match r) as [ts H]. unfold re_sub_empty.
  rewrite (scan_hit _ _ _ _ _ H); [reflexivity|].
  pose proof (length_lstrip (drop_tag r)). pose proof (length_drop_tag r).
  rewrite length_app. simpl. lia.
Qed.

Lemma startswith_fence_cons (s : str) :
  startswith (py "```") s = true ->
  startswith (py "```") (BACKTICK :: s) = true.
Proof.
  eval_py. destruct s as [|a [|b [|c s]]]; cbn [startswith]; intros H;
    rewrite ?andb_false_r in H; try discriminate H.
  apply andb_true_iff in H as [Ha H]. apply andb_true_iff in H as [Hb _].
  apply N.eqb_eq in Ha, Hb. subst a b. reflexivity.
Qed.

Lemma startswith_fence_backticks (k : nat) (s : str) :
  startswith (py "```") s = true ->
  startswith (py "```") (repeat BACKTICK k ++ s) = true.
Proof.
  intros H. induction k as [|k IH]; [exact H|].
  simpl. now apply startswith_fence_cons.
Qed.

Lemma repeat_snoc {A : Type} (x : A) (k : nat) (l : list A) :
  repeat x k ++ x :: l = repeat x (S k) ++ l.
Proof. induction k as [|k IH]; simpl; [reflexivity|]. now rewrite IH. Qed.

(** Deleting the fences brings no two pieces of a marker together. *)
Lemma sub_fence_no_new_fence (s : str) (k : nat) :
  k <= 2 ->
  startswith (py "```") (repeat BACKTICK k ++ s) = false ->
  startswith (py "```") (repeat BACKTICK k ++ re_sub_empty fence_re s) = false.
Proof.
  revert k; induction s as [|c s IH]; intros k Hk H; [exact H|].
  destruct (startswith (py "```") (c :: s)) eqn:E.
  - rewrite (startswith_fence_backticks k _ E) in H. discriminate.
  - rewrite sub_fence_keep by exact E.
    destruct (N.eqb_spec c BACKTICK) as [-> | Hc].
    + rewrite repeat_snoc in *.
      destruct (Nat.eq_dec k 2) as [-> | Hk2]; [discriminate H|].
      apply IH; [lia | exact H].
    + assert (Hb : N.eqb 96 c = false).
      { apply N.eqb_neq. intros <-. now apply Hc. }
      eval_py.
      destruct k as [|[|[|k]]]; try lia; cbn [repeat app startswith BACKTICK];
        rewrite ?N.eqb_refl, Hb; reflexivity.
Qed.

Lemma find_at_shift (sub s : str) (i j : nat) :
  find_at sub s i = None -> find_at sub s j = None.
Proof.
  revert i j; induction s as [|c s IH]; intros i j; simpl;
    destruct (startswith sub _); try discriminate; auto.
  apply IH.
Qed.

Lemma contains_cons (sub s : str) (c : char) :
  contains sub (c :: s) = startswith sub (c :: s) || contains sub s.
Proof.
  unfold contains, str_find. cbn [Nat.leb skipn find_at].
  destruct (startswith sub (c :: s)); [reflexivity|]. cbn [orb].
  destruct (find_at sub s 1) eqn:E1, (find_at sub s 0) eqn:E0; try reflexivity.
  - now rewrite (find_at_shift _ _ _ 1 E0) in E1.
  - now rewrite (find_at_shift _ _ _ 0 E1) in E0.
Qed.

(** No fence marker is left in the text that the parser scans. *)
Lemma sub_fence_free (s : str) :
  contains (py "```") (re_sub_empty fence_re s) = false.
Proof.
  induction s as [s IH] using (induction_ltof1 _ (@length char)).
  unfold ltof in IH.
  destruct (startswith (py "```") s) eqn:E.
  - apply startswith_split in E. rewrite E, sub_fence_hit. apply IH.
    rewrite E at 2. rewrite length_app.
    pose proof (length_lstrip (drop_tag (skipn (length (py "```")) s))).
    pose proof (length_drop_tag (skipn (length (py "```")) s)).
    simpl length at 3. lia.
  - destruct s as [|c s]; [reflexivity|].
    rewrite sub_fence_keep by exact E.
    rewrite contains_cons, IH by (simpl; lia).
    rewrite <- (sub_fence_keep _ _ E).
    pose proof (sub_fence_no_new_fence (c :: s) 0 (Nat.le_0_l 2) E) as Hn.
    cbn [repeat app] in Hn. now rewrite Hn.
Qed.

Lemma first_occurrence_tail (sub s : str) (c : char) (k : nat) :
  first_occurrence sub (c :: s) (S k) -> first_occurrence sub s k.
Proof.
  intros [[Hlen Hocc] Hmin]. split; [split|].
  - simpl in Hlen. lia.
  - exact Hocc.
  - intros i Hi [Hl Ho]. apply (Hmin (S i)); [lia|]. split; [simpl; lia | exact Ho].
Qed.

Lemma first_occurrence_not_here (sub s : str) (c : char) (k : nat) :
  first_occurrence sub (c :: s) (S k) -> startswith sub (c :: s) = false.
Proof.
  intros [_ Hmin]. destruct (startswith sub (c :: s)) eqn:E; [|reflexivity].
  exfalso. apply (Hmin 0); [lia|]. split; [simpl; lia | exact E].
Qed.

(** Up to the first fence marker the text is kept; the marker, its tag and
    the whitespace after it are deleted. *)
Lemma sub_fence_first (before rest : str) :
  first_occurrence (py "```") (before ++ py "```" ++ rest) (length before) ->
  re_sub_empty fence_re (before ++ py "```" ++ rest)
  = before ++ re_sub_empty fence_re (lstrip (drop_tag rest)).
Proof.
  induction before as [|c before IH]; intros H; [apply sub_fence_hit|].
  simpl app in *. simpl length in H.
  rewrite sub_fence_keep by (eapply first_occurrence_not_here; eauto).
  f_equal. apply IH. eapply first_occurrence_tail; eauto.
Qed.

Lemma infix_of_refl (s : str) : infix_of s s.
Proof. exists [], []. now rewrite app_nil_r. Qed.

Lemma infix_of_trans (a b c : str) : infix_of a b -> infix_of b c -> infix_of a c.
Proof.
  intros (u1 & u2 & ->) (w1 & w2 & ->). exists (w1 ++ u1), (u2 ++ w2).
  now rewrite <- !app_assoc.
Qed.

Lemma infix_of_suffix (w s : str) : infix_of s (w ++ s).
Proof. exists w, []. now rewrite app_nil_r. Qed.

Lemma infix_of_firstn (n : nat) (s : str) : infix_of (firstn n s) s.
Proof. exists [], (skipn n s). simpl. symmetry. apply firstn_skipn. Qed.

(** The groups of a match are pieces of the input. *)
Lemma run_groups (r : regex) (s : str) (t : thread) :
  In t (run r s) -> Forall (fun g => infix_of g s) (fst t).
Proof.
  revert s t; induction r as [l | | | | r IH | r1 IH1 r2 IH2 | r1 IH1 r2 IH2 | r IH];
    intros s t; cbn [run].
  - destruct (startswith l s); [|intros []]. intros [<- | []]. constructor.
  - intros H. apply in_map_iff in H as (x & <- & _). constructor.
  - intros H. apply in_map_iff in H as (x & <- & _). constructor.
  - destruct s as [|c s].
    + intros [<- | []]. constructor.
    + destruct (N.eqb c LF); [|intros []]. intros [<- | []]. constructor.
  - intros H. apply in_app_or in H as [H | [<- | []]]; [now apply IH|].
    constructor.
  - intros H. apply in_app_or in H as [H | H]; [now apply IH1 | now apply IH2].
  - intros H. apply in_flat_map in H as (t1 & H1 & H).
    apply in_map_iff in H as (t2 & <- & H2). cbn [fst].
    apply Forall_app. split; [now apply IH1|].
    destruct (run_suffix _ _ _ H1) as (w & Hw).
    eapply Forall_impl; [|apply (IH2 _ _ H2)].
    intros g Hg. eapply infix_of_trans; [exact Hg|].
    rewrite Hw. apply infix_of_suffix.
  - intros H. apply in_map_iff in H as (t1 & <- & H1). cbn [fst].
    constructor; [apply infix_of_firstn | now apply IH].
Qed.

Lemma scan_groups (r : regex) (k : nat) (s : str) (gs : list str) :
  In (Hit gs) (scan r k s) -> Forall (fun g => infix_of g s) gs.
Proof.
  revert k; induction s as [|c s IH]; intros k; cbn [scan].
  - destruct k; [|intros []].
    destruct (run r []) as [|[g rest] ts] eqn:E; [intros []|].
    intros [[= <-] | []]. apply (run_groups r [] (g, rest)). rewrite E. now left.
  - assert (Hs : forall k', In (Hit gs) (scan r k' s) ->
                            Forall (fun g => infix_of g (c :: s)) gs).
    { intros k' H. eapply Forall_impl; [|apply (IH _ H)].
      intros g Hg. eapply infix_of_trans; [exact Hg|].
      apply (infix_of_suffix [c]). }
    destruct k as [|k]; [|apply Hs].
    destruct (run r (c :: s)) as [|[g rest] ts] eqn:E.
    + intros [[=] | H]. now apply Hs in H.
    + assert (Hg : Forall (fun x => infix_of x (c :: s)) g).
      { apply (run_groups r (c :: s) (g, rest)). rewrite E. now left. }
      destruct (length (c :: s) - length rest).
      * intros [[= <-] | [[=] | H]]; [exact Hg | now apply Hs in H].
      * intros [[= <-] | H]; [exact Hg | now apply Hs in H].
Qed.

Lemma re_finditer_groups (r : regex) (s : str) (m : list str) :
  In m (re_finditer r s) -> Forall (fun g => infix_of g s) m.
Proof.
  unfold re_finditer. intros H. apply in_flat_map in H as ([c | gs] & Hp & H).
  - destruct H.
  - destruct H as [<- | []]. apply (scan_groups _ _ _ _ Hp).
Qed.

Lemma occurs_at_infix (sub g s : str) (k : nat) :
  infix_of g s -> occurs_at sub g k -> exists k', occurs_at sub s k'.
Proof.
  intros (w1 & w2 & ->) [Hk H]. exists (length w1 + k). split.
  - rewrite !length_app. lia.
  - apply startswith_iff in H as [r Hr]. apply startswith_iff.
    exists (r ++ w2).
    rewrite skipn_app, skipn_all2 by lia.
    replace (length w1 + k - length w1) with k by lia.
    rewrite skipn_app, Hr, <- app_assoc.
    replace (k - length g) with 0 by lia. reflexivity.
Qed.

Lemma contains_infix_false (sub g s : str) :
  infix_of g s -> contains sub s = false -> contains sub g = false.
Proof.
  intros Hi Hs. destruct (contains sub g) eqn:E; [|reflexivity].
  apply contains_first in E as (k & Hk & _).
  destruct (occurs_at_infix _ _ _ _ Hi Hk) as [k' Hk'].
  apply contains_true in Hk'. congruence.
Qed.

Lemma group_infix (m : list str) (k : nat) (s : str) :
  Forall (fun g => infix_of g s) m -> group m k = [] \/ infix_of (group m k) s.
Proof.
  intros H. unfold group.
  destruct (nth_in_or_default (k - 1) m []) as [Hin | ->]; [right | now left].
  rewrite Forall_forall in H. now apply H.
Qed.

(** ** Whitespace around an occurrence *)

Lemma forallb_skipn {A : Type} (f : A -> bool) (n : nat) (l : list A) :
  forallb f l = true -> forallb f (skipn n l) = true.
Proof.
  revert n; induction l as [|x l IH]; intros [|n] H; simpl in *; auto.
  apply andb_true_iff in H as [_ H]. now apply IH.
Qed.

(** An occurrence of a text that starts with a non-space character does not
    start inside a run of whitespace. *)
Lemma occurs_after_spaces (c0 : char) (sub w x : str) (k : nat) :
  forallb isspace w = true -> isspace c0 = false ->
  occurs_at (c0 :: sub) (w ++ x) k -> length w <= k.
Proof.
  intros Hw Hc [_ H]. destruct (le_lt_dec (length w) k) as [|Hlt]; [assumption|].
  exfalso. rewrite skipn_app in H.
  pose proof (forallb_skipn isspace k w Hw) as Hs.
  destruct (skipn k w) as [|d r] eqn:E.
  - apply (f_equal (@length char)) in E. rewrite length_skipn in E. simpl in E. lia.
  - simpl in H, Hs. apply andb_true_iff in H as [Hd _].
    apply N.eqb_eq in Hd. subst d.
    apply andb_true_iff in Hs as [Hs _]. congruence.
Qed.

Lemma first_occurrence_drop_spaces (c0 : char) (sub w x : str) (k : nat) :
  forallb isspace w = true -> isspace c0 = false ->
  first_occurrence (c0 :: sub) (w ++ x) k ->
  length w <= k /\ first_occurrence (c0 :: sub) x (k - length w).
Proof.
  intros Hw Hc [Hocc Hmin].
  pose proof (occurs_after_spaces _ _ _ _ _ Hw Hc Hocc) as Hk.
  split; [exact Hk|]. split; [now apply occurs_at_drop in Hocc|].
  intros i Hi Ho. apply (Hmin (length w + i)); [lia|].
  apply occurs_at_drop; [lia|].
  now replace (length w + i - length w) with i by lia.
Qed.

Lemma first_occurrence_add_spaces (c0 : char) (sub w x : str) (k : nat) :
  forallb isspace w = true -> isspace c0 = false ->
  first_occurrence (c0 :: sub) x k ->
  first_occurrence (c0 :: sub) (w ++ x) (length w + k).
Proof.
  intros Hw Hc [Hocc Hmin]. split.
  - apply occurs_at_drop; [lia|].
    now replace (length w + k - length w) with k by lia.
  - intros i Hi Ho.
    pose proof (occurs_after_spaces _ _ _ _ _ Hw Hc Ho) as Hle.
    apply occurs_at_drop in Ho; [|exact Hle].
    apply (Hmin (i - length w)); [lia | exact Ho].
Qed.

Lemma lstrip_app_spaces (w y : str) :
  forallb isspace w = true -> lstrip (w ++ y) = lstrip y.
Proof.
  induction w as [|c w IH]; simpl; [reflexivity|].
  intros H. apply andb_true_iff in H as [-> H]. now apply IH.
Qed.

Lemma lstrip_all_spaces (w : str) : forallb isspace w = true -> lstrip w = [].
Proof.
  intros H. rewrite <- (app_nil_r w). now rewrite lstrip_app_spaces.
Qed.

Lemma lstrip_app_keep (a b : str) :
  lstrip a <> [] -> lstrip (a ++ b) = lstrip a ++ b.
Proof.
  induction a as [|c a IH]; simpl; [congruence|].
  destruct (isspace c); [exact IH | reflexivity].
Qed.

Lemma forallb_rev {A : Type} (f : A -> bool) (l : list A) :
  forallb f l = true -> forallb f (rev l) = true.
Proof.
  rewrite !forallb_forall. intros H x Hx. apply H. now apply in_rev.
Qed.

(** Whitespace in front of a text does not change what [strip] returns. *)
Lemma strip_app_spaces (w y : str) :
  forallb isspace w = true -> strip (w ++ y) = strip y.
Proof.
  intros Hw. unfold strip, rstrip. rewrite rev_app_distr.
  destruct (lstrip (rev y)) as [|c r] eqn:E.
  - assert (Hy : lstrip (rev y ++ rev w) = []).
    { destruct (rev y) as [|d ry] eqn:Ey.
      - simpl. apply lstrip_all_spaces. now apply forallb_rev.
      - assert (Hsp : forallb isspace (d :: ry) = true).
        { clear Ey. revert E. generalize (d :: ry). intros l.
          induction l as [|a l IH]; simpl; [reflexivity|].
          destruct (isspace a); [exact IH | discriminate]. }
        rewrite lstrip_app_spaces by exact Hsp.
        apply lstrip_all_spaces. now apply forallb_rev. }
    rewrite Hy. reflexivity.
  - rewrite lstrip_app_keep by (rewrite E; discriminate).
    rewrite E, rev_app_distr, rev_involutive.
    now apply lstrip_app_spaces.
Qed.

(** ** The fallback pattern *)

Lemma first_match_unique (r : regex) (s : str) (t t' : thread) :
  first_match r s t -> first_match r s t' -> t = t'.
Proof. intros [ts H] [ts' H']. congruence. Qed.

Lemma run_seq_lit (l x : str) (r : regex) :
  run (Seq (Lit l) r) (l ++ x) = map (fun t => (fst t, snd t)) (run r x).
Proof.
  destruct (first_match_lit l x) as [ts H]. cbn [run] in *.
  rewrite startswith_app in *. injection H as H _.
  cbn [flat_map fst snd]. rewrite H, app_nil_r. reflexivity.
Qed.

Lemma first_match_seq_lit (l x : str) (r : regex) (t : thread) :
  first_match (Seq (Lit l) r) (l ++ x) t -> first_match r x t.
Proof.
  unfold first_match. rewrite run_seq_lit.
  destruct (run r x) as [|[g rest] ts]; intros [ts' H]; [discriminate|].
  injection H as <- _. eexists. reflexivity.
Qed.

Lemma lazy_until_from (l x0 : str) (x pre : str) (k : nat) :
  x0 = pre ++ x ->
  first_occurrence l x k ->
  exists ts,
    flat_map (fun t1 : thread =>
                map (fun t2 : thread => (fst t1 ++ fst t2, snd t2))
                    (run (Lit l) (snd t1)))
             (map (fun t : thread =>
                     (firstn (length x0 - length (snd t)) x0 :: fst t, snd t))
                  (map (pair []) (any_lazy x)))
    = ([firstn (length pre + k) x0], skipn (k + length l) x) :: ts.
Proof.
  revert pre k; induction x as [|c x IH]; intros pre k Hx0 Hk.
  - destruct k as [|k]; [|destruct Hk as [[Hlen _] _]; simpl in Hlen; lia].
    destruct Hk as [[_ Hocc] _]. cbn [skipn] in Hocc.
    cbn [any_lazy map flat_map fst snd run]. rewrite Hocc. cbn [map app]. eexists. f_equal. f_equal. f_equal. f_equal.
    rewrite Hx0, length_app. simpl. lia.
  - cbn [any_lazy map flat_map fst snd]. destruct k as [|k].
    + destruct Hk as [[_ Hocc] _]. cbn [skipn] in Hocc. cbn [run]. rewrite Hocc.
      cbn [map app]. eexists. f_equal. f_equal. f_equal. f_equal.
      rewrite Hx0, length_app. simpl. lia.
    + rewrite run_lit_none by (eapply first_occurrence_not_here; eauto).
      cbn [map app].
      destruct (IH (pre ++ [c]) k) as [ts Hts].
      * now rewrite <- app_assoc.
      * eapply first_occurrence_tail; eauto.
      * exists ts. rewrite Hts. rewrite length_app. simpl.
        now replace (length pre + 1 + k) with (length pre + S k) by lia.
Qed.

(** Lazy [.*?] in front of a literal stops at the first occurrence of the
    literal. *)
Lemma lazy_until (l x : str) (k : nat) :
  first_occurrence l x k ->
  first_match (Seq (Group AnyLazy) (Lit l)) x
              ([firstn k x], skipn (k + length l) x).
Proof.
  intros H. destruct (lazy_until_from l x x [] k eq_refl H) as [ts Hts].
  exists ts. cbn [run]. exact Hts.
Qed.

(** The same behind a run of whitespace: if the text up to the first
    occurrence of the literal is [C], what is captured is [C] without the
    whitespace passed over. *)
Lemma lazy_until_after_spaces (c0 : char) (sub w x C rest : str) (t : thread) :
  forallb isspace w = true -> isspace c0 = false ->
  w ++ x = C ++ (c0 :: sub) ++ rest ->
  first_occurrence (c0 :: sub) (C ++ (c0 :: sub) ++ rest) (length C) ->
  first_match (Seq (Group AnyLazy) (Lit (c0 :: sub))) x t ->
  exists g, t = ([g], rest) /\ C = w ++ g.
Proof.
  intros Hw Hc Heq Hfirst Ht. rewrite <- Heq in Hfirst.
  destruct (first_occurrence_drop_spaces _ _ _ _ _ Hw Hc Hfirst) as [Hle Hx].
  pose proof (lazy_until _ _ _ Hx) as Ht'.
  rewrite (first_match_unique _ _ _ _ Ht Ht').
  exists (firstn (length C - length w) x). split.
  - f_equal.
    assert (Hsk : skipn (length C + length (c0 :: sub)) (w ++ x) = rest).
    { rewrite Heq, app_assoc, skipn_app, skipn_all2 by (rewrite length_app; lia).
      rewrite length_app.
      now replace (length C + length (c0 :: sub) - (length C + length (c0 :: sub)))
        with 0 by lia. }
    rewrite skipn_app, (@skipn_all2 _ _ w) in Hsk by lia. simpl app in Hsk.
    rewrite <- Hsk. f_equal. cbn [length]. lia.
  - assert (Hf : firstn (length C) (w ++ x) = C).
    { rewrite Heq, firstn_app, Nat.sub_diag, firstn_all. simpl.
      now rewrite app_nil_r. }
    rewrite <- Hf at 1. rewrite firstn_app, firstn_all2 by exact Hle.
    reflexivity.
Qed.

Lemma ws_star_self (s : str) : In s (ws_star s).
Proof.
  destruct s as [|c s]; simpl; [now left|].
  destruct (isspace c); [apply in_or_app; right|]; now left.
Qed.

Lemma ws_star_after_spaces (w x : str) :
  forallb isspace w = true -> In x (ws_star (w ++ x)).
Proof.
  induction w as [|c w IH]; simpl; [intros _; apply ws_star_self|].
  intros H. apply andb_true_iff in H as [-> H].
  apply in_or_app. left. now apply IH.
Qed.

Lemma startswith_after_spaces (c0 : char) (sub w x : str) :
  forallb isspace w = true -> isspace c0 = false ->
  startswith (c0 :: sub) (w ++ LF :: x) = false.
Proof.
  intros Hw Hc. destruct w as [|d w]; simpl.
  - destruct (N.eqb_spec c0 LF) as [-> | _]; [discriminate Hc | reflexivity].
  - simpl in Hw. apply andb_true_iff in Hw as [Hd _].
    destruct (N.eqb_spec c0 d) as [-> | _]; [congruence | reflexivity].
Qed.

Lemma first_match_seq_ex (r1 r2 : regex) (s s1 : str) (g1 : list str)
  (P : thread -> Prop) :
  first_match r1 s (g1, s1) ->
  (exists t2, first_match r2 s1 t2 /\ P (g1 ++ fst t2, snd t2)) ->
  exists t, first_match (Seq r1 r2) s t /\ P t.
Proof.
  intros H1 ([g2 s2] & H2 & HP). eexists. split; [|exact HP].
  now apply (first_match_seq _ _ _ s1).
Qed.

Lemma first_match_nonempty (r : regex) (s : str) (t : thread) :
  first_match r s t -> run r s <> [].
Proof. intros [ts H]. rewrite H. discriminate. Qed.

Lemma code_block_re_none (s : str) :
  startswith (py "```") s = false -> run code_block_re s = [].
Proof.
  intros H. unfold code_block_re. cbn [seqs].
  apply run_seq_nil. now apply run_lit_none.
Qed.

Lemma first_match_code_tag (tag r : str) :
  tag = [] \/ tag = py "rust" \/ tag = py "verus" ->
  startswith (py "rust") r = false -> startswith (py "verus") r = false ->
  first_match (Opt (Alt (Lit (py "rust")) (Lit (py "verus")))) (tag ++ r) ([], r).
Proof.
  intros [-> | [-> | ->]] Hr Hv.
  - apply first_match_opt_none. cbn [run app]. now rewrite Hr, Hv.
  - apply first_match_opt_some, first_match_alt_l, first_match_lit.
  - apply first_match_opt_some, first_match_alt_r; [|apply first_match_lit].
    apply run_lit_none. reflexivity.
Qed.

(** From the newline that ends the opening line on, the fallback pattern
    captures the text up to the closing fence.  [re] first lets [\s*] run
    over all the whitespace and backs up to the last newline in it, so the
    capture may lack leading whitespace of the block, which [strip] removes
    anyway. *)
Lemma code_block_body (ws body after : str) :
  forallb isspace ws = true ->
  first_occurrence (py "```") (body ++ py "```" ++ after) (length body) ->
  exists t,
    first_match
      (Seq WsStar (Seq (Lit (py "\n")) (Seq (Group AnyLazy) (Lit (py "```")))))
      (ws ++ py "\n" ++ body ++ py "```" ++ after) t /\
    exists g rest, t = ([g], rest) /\ strip g = strip body.
Proof.
  intros Hws Hbody. eval_py.
  assert (Hsp : forallb isspace (ws ++ [10%N]) = true).
  { rewrite forallb_app, Hws. reflexivity. }
  assert (HC : first_occurrence [96%N; 96%N; 96%N]
                 ((ws ++ 10%N :: body) ++ [96%N; 96%N; 96%N] ++ after)
                 (length (ws ++ 10%N :: body))).
  { replace ((ws ++ 10%N :: body) ++ [96%N; 96%N; 96%N] ++ after)
      with ((ws ++ [10%N]) ++ body ++ [96%N; 96%N; 96%N] ++ after)
      by (now rewrite <- !app_assoc).
    replace (length (ws ++ 10%N :: body)) with (length (ws ++ [10%N]) + length body)
      by (rewrite !length_app; simpl; lia).
    now apply first_occurrence_add_spaces. }
  apply first_match_seq_backtrack.
  - exists ([], 10%N :: body ++ [96%N; 96%N; 96%N] ++ after). split.
    + cbn [run]. apply in_map. now apply ws_star_after_spaces.
    + cbn [snd]. change (10%N :: body ++ ?x) with ([10%N] ++ body ++ x).
      rewrite run_seq_lit. intros Hnil. apply map_eq_nil in Hnil.
      now apply (first_match_nonempty _ _ _ (lazy_until _ _ _ Hbody)).
  - intros [g1 x] t2 Hin Ht2. cbn [run] in Hin.
    apply in_map_iff in Hin as (x0 & [= <- <-] & Hx).
    apply ws_star_suffix in Hx as (w1 & Heq & Hw1). cbn [fst snd app] in *.
    destruct x0 as [|c x'].
    { apply first_match_nonempty in Ht2. now contradiction Ht2. }
    destruct (N.eqb_spec 10 c) as [<- | Hc].
    2:{ apply first_match_nonempty in Ht2. contradiction Ht2.
        apply run_seq_nil, run_lit_none. cbn [startswith].
        apply N.eqb_neq in Hc. now rewrite Hc. }
    change (10%N :: x') with ([10%N] ++ x') in Ht2.
    apply first_match_seq_lit in Ht2.
    destruct (lazy_until_after_spaces 96%N [96%N; 96%N] (w1 ++ [10%N]) x'
                (ws ++ 10%N :: body) after t2) as (g & -> & HCg); auto.
    + rewrite forallb_app, Hw1. reflexivity.
    + rewrite <- !app_assoc. simpl. exact (eq_sym Heq).
    + exists g, after. split; [reflexivity|].
      rewrite <- (strip_app_spaces (w1 ++ [10%N]) g)
        by (rewrite forallb_app, Hw1; reflexivity).
      rewrite <- HCg.
      change (ws ++ 10%N :: body) with (ws ++ [10%N] ++ body).
      rewrite app_assoc. now apply strip_app_spaces.
Qed.

(** At the opening fence of a block the fallback pattern matches, and the
    group it captures is the body of the block up to leading whitespace. *)
Lemma code_block_re_match (tag ws body after : str) :
  tag = [] \/ tag = py "rust" \/ tag = py "verus" ->
  forallb isspace ws = true ->
  first_occurrence (py "```") (body ++ py "```" ++ after) (length body) ->
  exists t,
    first_match code_block_re
      (py "```" ++ tag ++ ws ++ py "\n" ++ body ++ py "```" ++ after) t /\
    exists g rest, t = ([g], rest) /\ strip g = strip body.
Proof.
  intros Htag Hws Hbody. unfold code_block_re. cbn [seqs].
  eapply first_match_seq_ex; [apply first_match_lit|]. cbn [app].
  eapply first_match_seq_ex.
  - apply first_match_code_tag; [exact Htag | |]; eval_py;
      now apply startswith_after_spaces.
  - destruct (code_block_body ws body after Hws Hbody)
      as (t & Ht & g & rest & -> & Hs).
    exists ([g], rest). split; [exact Ht|]. now exists g, rest.
Qed.

Lemma scan_first_match (r : regex) (s : str) (t : thread) :
  first_match r s t -> exists ps, scan r 0 s = Hit (fst t) :: ps.
Proof.
  intros [ts H]. destruct t as [g rest]. destruct s as [|c s]; cbn [scan];
    rewrite H; [eexists; reflexivity|].
  destruct (length (c :: s) - length rest); eexists; reflexivity.
Qed.

Lemma re_finditer_keep (before : str) (ps : list piece) :
  flat_map (fun p => match p with Keep _ => [] | Hit g => [g] end)
           (map Keep before ++ ps)
  = flat_map (fun p => match p with Keep _ => [] | Hit g => [g] end) ps.
Proof. induction before as [|c before IH]; simpl; auto. Qed.

(** [re.findall] returns first the group of the leftmost match. *)
Lemma re_findall_first (r : regex) (before s g rest : str) :
  (forall p, p < length before -> run r (skipn p (before ++ s)) = []) ->
  first_match r s ([g], rest) ->
  exists later, re_findall r (before ++ s) = g :: later.
Proof.
  intros Hnone Hm. unfold re_findall, re_finditer.
  rewrite (scan_keep_prefix _ _ _ Hnone), re_finditer_keep.
  destruct (scan_first_match _ _ _ Hm) as [ps ->]. cbn [fst flat_map app map].
  exists (map (fun m => group m 1)
              (flat_map (fun p => match p with Keep _ => [] | Hit g => [g] end)
                        ps)).
  reflexivity.
Qed.

(** ** Fallback extraction *)

(** [C2], as the code has it.  When the parser extracts no operation and the
    first fence marker of the response opens a block (the marker, then
    nothing or the tag [rust] or [verus], then optional whitespace and a
    newline) that a later marker closes, the orchestrator returns the body
    of that block with its leading and trailing whitespace stripped, with
    [success = true] and the message "Fallback to code block extraction". *)
Theorem C2_fallback_extraction :
  forall (original_code llm_response before tag ws body after : str),
    parse_search_replace_response llm_response = [] ->
    llm_response
    = before ++ py "```" ++ tag ++ ws ++ py "\n" ++ body ++ py "```" ++ after ->
    first_occurrence (py "```") llm_response (length before) ->
    tag = [] \/ tag = py "rust" \/ tag = py "verus" ->
    forallb isspace ws = true ->
    first_occurrence (py "```") (body ++ py "```" ++ after) (length body) ->
    _apply_search_replace_format original_code llm_response
    = (strip body, true, py "Fallback to code block extraction").
Proof.
  intros original_code llm_response before tag ws body after
         Hparse Hshape Hopen Htag Hws Hclose.
  destruct (code_block_re_match tag ws body after Htag Hws Hclose)
    as (t & Ht & g & rest & -> & Hg).
  destruct (re_findall_first code_block_re before
              (py "```" ++ tag ++ ws ++ py "\n" ++ body ++ py "```" ++ after)
              g rest) as [later Hfind]; [|exact Ht|].
  - intros p Hp. apply code_block_re_none. rewrite <- Hshape.
    apply occurs_at_dec.
    + rewrite Hshape, length_app. lia.
    + now apply Hopen.
  - unfold _apply_search_replace_format, try_except, try_body.
    rewrite Hparse, Hshape, Hfind, Hg. reflexivity.
Qed.

(** The fallback scenario of the specification: ["x=1"] and a response that
    is one fenced block holding ["x=2"]. *)
Lemma C2_fallback_scenario :
  strip (py "x=2\n") = py "x=2" /\
  _apply_search_replace_format (py "x=1") (py "```\nx=2\n```")
  = (strip (py "x=2\n"), true, py "Fallback to code block extraction").
Proof.
  split; [vm_compute; reflexivity|].
  refine (C2_fallback_extraction (py "x=1") (py "```\nx=2\n```")
            [] [] [] (py "x=2\n") [] _ _ _ _ _ _).
  - vm_compute. reflexivity.
  - vm_compute. reflexivity.
  - apply contains_first_at. vm_compute. reflexivity.
  - now left.
  - reflexivity.
  - apply contains_first_at. vm_compute. reflexivity.
Defined.

(** A block under another tag is not extracted, and the body of an
    extracted block is not returned verbatim: its indentation and its final
    newline are gone. *)
Lemma C2_other_tag_and_not_verbatim :
  parse_search_replace_response (py "```text\nx=2\n```") = [] /\
  _apply_search_replace_format (py "x=1") (py "```text\nx=2\n```")
  = (py "x=1", false, py "No SEARCH/REPLACE operations or code blocks found") /\
  parse_search_replace_response (py "```rust\n    x=2\n```") = [] /\
  _apply_search_replace_format (py "x=1") (py "```rust\n    x=2\n```")
  = (py "x=2", true, py "Fallback to code block extraction") /\
  py "x=2" <> py "    x=2\n".
Proof. repeat split; try (vm_compute; reflexivity). discriminate. Qed.

(** ** Every match consumes input

    The three patterns start with a literal, so none of them matches the
    empty string: the scan always resumes strictly after the match. *)

Lemma run_lit_seq_consumes (l : str) (r : regex) (s : str) (t : thread) :
  l <> [] -> In t (run (Seq (Lit l) r) s) -> length (snd t) < length s.
Proof.
  intros Hl Hin. cbn [run] in Hin.
  destruct (startswith l s) eqn:E; [|destruct Hin].
  cbn [flat_map fst snd] in Hin. rewrite app_nil_r in Hin.
  apply in_map_iff in Hin as (t2 & <- & H2). cbn [snd].
  destruct (run_suffix _ _ _ H2) as (w & Hw).
  apply (f_equal (@length char)) in Hw.
  rewrite length_skipn, length_app in Hw.
  destruct l as [|c l]; [congruence|].
  apply startswith_split in E. apply (f_equal (@length char)) in E.
  rewrite length_app in E. simpl in E. simpl in Hw. lia.
Qed.

Lemma fence_re_consumes (s : str) (t : thread) :
  In t (run fence_re s) -> length (snd t) < length s.
Proof.
  unfold fence_re. cbn [seqs]. intros H.
  change (run (Alt ?a ?b) s) with (run a s ++ run b s) in H.
  apply in_app_or in H as [H | H];
    (eapply run_lit_seq_consumes; [|exact H]); eval_py; discriminate.
Qed.

Lemma block_re_consumes (s : str) (t : thread) :
  In t (run block_re s) -> length (snd t) < length s.
Proof.
  unfold block_re. cbn [seqs]. intros H.
  eapply run_lit_seq_consumes; [|exact H]. eval_py. discriminate.
Qed.

Lemma code_block_re_consumes (s : str) (t : thread) :
  In t (run code_block_re s) -> length (snd t) < length s.
Proof.
  unfold code_block_re. cbn [seqs]. intros H.
  eapply run_lit_seq_consumes; [|exact H]. eval_py. discriminate.
Qed.

(** * Further properties of the engine *)

(** ** What [_find_all_matches] returns *)

Lemma filter_seq_sorted (f : nat -> bool) (start len : nat) :
  StronglySorted lt (filter f (seq start len)).
Proof.
  revert start; induction len as [|len IH]; intros start; simpl; [constructor|].
  destruct (f start); [|apply IH].
  constructor; [apply IH|]. apply Forall_forall. intros k Hk.
  apply filter_In in Hk as [Hk _]. apply in_seq in Hk. lia.
Qed.

(** [X1] [_find_all_matches] returns exactly the offsets at which
    [search_text] occurs in [code], overlapping occurrences included, each
    once and in increasing order. *)
Theorem find_all_matches_exact :
  forall (code search : str),
    (forall k, In k (_find_all_matches code search) <-> occurs_at search code k) /\
    StronglySorted lt (_find_all_matches code search).
Proof.
  intros code search. rewrite _find_all_matches_all. split.
  - intros k. rewrite filter_In, in_seq. unfold occurs_at. split.
    + intros [Hk H]. split; [lia | exact H].
    + intros [Hk H]. split; [lia | exact H].
  - apply filter_seq_sorted.
Qed.

(** ** Edge cases of the applicator and the validator *)

(** [X2] An operation with an empty [search_text] is accepted by the
    validator against any text, and applying it puts [replace_text] in
    front of the text. *)
Theorem empty_search_prepends :
  forall (code replace : str) (rest : list SearchReplaceOperation) (n : nat),
    validate_from code ({| search_text := []; replace_text := replace |} :: rest) n
    = validate_from code rest (S n) /\
    _apply_single_operation code {| search_text := []; replace_text := replace |}
    = Ok (replace ++ code).
Proof.
  intros code replace rest n.
  assert (H0 : first_occurrence [] code 0).
  { split; [split; [lia | reflexivity] | intros i Hi; lia]. }
  split.
  - apply validate_from_accepts. left. exists 0. apply H0.
  - now rewrite (_apply_single_operation_exact
                   code {| search_text := []; replace_text := replace |} 0 H0).
Qed.

(** [X3] An operation that does not resolve against the text, neither
    exactly nor through a candidate window, is applied as a silent no-op:
    the applicator returns the text as it is, without a fault. *)
Theorem unresolved_operation_is_noop :
  forall (code : str) (op : SearchReplaceOperation),
    ~ resolvable code op ->
    _apply_single_operation code op = Ok code.
Proof.
  intros code op Hres. unfold _apply_single_operation.
  destruct (contains (search_text op) code) eqn:E.
  - exfalso. apply Hres. left. apply contains_first in E as (k & Hk & _). eauto.
  - apply _apply_with_normalized_whitespace_none.
    intros i Hi. apply Hres. right. eauto.
Qed.

Lemma unresolved_operation_is_noop_witness :
  _apply_single_operation (py "fn f() {}\n")
    {| search_text := py "fn g()"; replace_text := py "fn h()" |}
  = Ok (py "fn f() {}\n").
Proof.
  apply unresolved_operation_is_noop. apply not_resolvableb.
  vm_compute. reflexivity.
Defined.

Lemma resolvable_dec (code : str) (op : SearchReplaceOperation) :
  {resolvable code op} + {~ resolvable code op}.
Proof.
  destruct (resolvableb code op) eqn:E.
  - left. now apply resolvableb_spec.
  - right. now apply not_resolvableb.
Qed.

Lemma validate_from_valid (code : str) (ops : list SearchReplaceOperation)
  (n : nat) (message : str) :
  validate_from code ops n = Ok (true, message) ->
  Forall (resolvable code) ops.
Proof.
  revert n; induction ops as [|op ops IH]; intros n H; [constructor|].
  destruct (resolvable_dec code op) as [Hop | Hop].
  - constructor; [exact Hop|]. rewrite validate_from_accepts in H by exact Hop.
    eapply IH; eauto.
  - rewrite validate_from_rejects in H by exact Hop. discriminate.
Qed.

(** [X4] The validator answers [(True, "Valid")] exactly when every
    operation resolves against the given text; it never raises, and a
    negative answer carries a message. *)
Theorem validate_operations_iff :
  forall (code : str) (ops : list SearchReplaceOperation),
    (validate_operations code ops = Ok (true, py "Valid")
     <-> Forall (resolvable code) ops) /\
    (exists valid message, validate_operations code ops = Ok (valid, message)).
Proof.
  intros code ops. split; [split|].
  - apply validate_from_valid.
  - apply validate_from_all.
  - destruct (validate_from_total code ops 0) as ([valid message] & H). eauto.
Qed.

(** ** Sequences of operations *)

(** [X5] Applying a sequence of operations never raises, and applying two
    sequences one after the other is applying the second to the result of
    the first. *)
Theorem apply_operations_compose :
  forall (code : str) (ops1 ops2 : list SearchReplaceOperation),
    (exists out, apply_search_replace_operations code (ops1 ++ ops2) = Ok out) /\
    apply_search_replace_operations code (ops1 ++ ops2)
    = (mid <- apply_search_replace_operations code ops1 ;;
       apply_search_replace_operations mid ops2).
Proof.
  intros code ops1 ops2. split; [apply apply_search_replace_operations_total|].
  revert code; induction ops1 as [|op ops1 IH]; intros code; [reflexivity|].
  cbn [app apply_search_replace_operations].
  destruct (_apply_single_operation code op) as [mid | e]; cbn [bind];
    [apply IH | reflexivity].
Qed.

(** ** Outcomes of the orchestrator *)

(** [X6] Whenever the orchestrator reports [success = false], the text it
    returns is the original text, whatever the response was. *)
Theorem failure_keeps_original :
  forall (original_code llm_response text message : str),
    _apply_search_replace_format original_code llm_response
    = (text, false, message) ->
    text = original_code.
Proof.
  intros original_code llm_response text message.
  unfold _apply_search_replace_format, try_except, try_body.
  destruct (parse_search_replace_response llm_response) as [|op ops].
  - destruct (re_findall code_block_re llm_response); intros [= <- _];
      try discriminate; reflexivity.
  - destruct (validate_from_total original_code (op :: ops) 0)
      as ([valid msg] & Hv).
    unfold validate_operations. rewrite Hv. cbn [bind].
    destruct valid; cbn [negb].
    + destruct (apply_search_replace_operations_total original_code (op :: ops))
        as (out & ->).
      cbn [bind]. discriminate.
    + now intros [= <- _].
Qed.

Lemma failure_keeps_original_witness :
  _apply_search_replace_format (py "x = 1\n") (py "no edits here")
  = (py "x = 1\n", false,
     py "No SEARCH/REPLACE operations or code blocks found") /\
  py "x = 1\n" = py "x = 1\n".
Proof.
  assert (H : _apply_search_replace_format (py "x = 1\n") (py "no edits here")
              = (py "x = 1\n", false,
                 py "No SEARCH/REPLACE operations or code blocks found"))
    by (vm_compute; reflexivity).
  split; [exact H|].
  exact (failure_keeps_original _ _ _ _ H).
Defined.

(** [X7] When the parser finds operations and every one of them resolves
    against the original text, the orchestrator reports success: it returns
    the text produced by the applicator and a message that counts the
    operations parsed.  Operations that no longer resolve once the earlier
    ones are applied are counted too. *)
Theorem validated_operations_succeed :
  forall (original_code llm_response : str)
         (op : SearchReplaceOperation) (ops : list SearchReplaceOperation),
    parse_search_replace_response llm_response = op :: ops ->
    Forall (resolvable original_code) (op :: ops) ->
    exists modified_code,
      apply_search_replace_operations original_code (op :: ops)
      = Ok modified_code /\
      _apply_search_replace_format original_code llm_response
      = (modified_code, true,
         py "Applied " ++ str_of_nat (S (length ops))
            ++ py " SEARCH/REPLACE operations").
Proof.
  intros original_code llm_response op ops Hp Hall.
  destruct (apply_search_replace_operations_total original_code (op :: ops))
    as (out & Hout).
  exists out. split; [exact Hout|].
  apply (orchestrator_applied _ _ _ _ _ Hp); [|exact Hout].
  unfold validate_operations. now apply validate_from_all.
Qed.

(** Two operations on the same text: the second no longer resolves after
    the first, is applied as a no-op and is counted all the same. *)
Lemma validated_operations_succeed_witness :
  exists modified_code,
    apply_search_replace_operations (py "a")
      [{| search_text := py "a"; replace_text := py "b" |};
       {| search_text := py "a"; replace_text := py "c" |}]
    = Ok modified_code /\
    _apply_search_replace_format (py "a")
      (py "<<<<<<< SEARCH\na\n=======\nb\n>>>>>>> REPLACE\n<<<<<<< SEARCH\na\n=======\nc\n>>>>>>> REPLACE")
    = (modified_code, true, py "Applied 2 SEARCH/REPLACE operations").
Proof.
  refine (validated_operations_succeed (py "a")
            (py "<<<<<<< SEARCH\na\n=======\nb\n>>>>>>> REPLACE\n<<<<<<< SEARCH\na\n=======\nc\n>>>>>>> REPLACE")
            {| search_text := py "a"; replace_text := py "b" |}
            [{| search_text := py "a"; replace_text := py "c" |}] _ _).
  - vm_compute. reflexivity.
  - constructor; [|constructor; [|constructor]];
      apply resolvableb_spec; vm_compute; reflexivity.
Defined.

(** ** Responses without markers *)

Lemma scan_all_keep (r : regex) (s : str) :
  (forall p, p <= length s -> run r (skipn p s) = []) ->
  scan r 0 s = map Keep s.
Proof.
  induction s as [|c s IH]; intros H.
  - pose proof (H 0 (Nat.le_refl 0)) as H0. cbn [skipn] in H0.
    cbn [scan map]. now rewrite H0.
  - rewrite scan_keep by (apply (H 0); simpl; lia).
    cbn [map]. f_equal. apply IH. intros p Hp. apply (H (S p)). simpl. lia.
Qed.

Lemma contains_false_nowhere (sub s : str) (p : nat) :
  contains sub s = false -> p <= length s ->
  startswith sub (skipn p s) = false.
Proof.
  intros H Hp. apply occurs_at_dec; [exact Hp|]. now apply contains_false.
Qed.

Lemma kept_chars (s : str) :
  flat_map (fun p => match p with Keep c => [c] | Hit _ => [] end) (map Keep s) = s.
Proof. induction s as [|c s IH]; simpl; [reflexivity|]. now rewrite IH. Qed.

Lemma no_hits (s : str) :
  flat_map (fun p => match p with Keep _ => [] | Hit g => [g] end) (map Keep s)
  = @nil (list str).
Proof. induction s as [|c s IH]; simpl; auto. Qed.

(** A text without fence markers goes through [re.sub] unchanged. *)
Lemma sub_fence_identity (s : str) :
  contains (py "```") s = false -> re_sub_empty fence_re s = s.
Proof.
  intros H. unfold re_sub_empty. rewrite scan_all_keep; [apply kept_chars|].
  intros p Hp. apply fence_re_none. now apply contains_false_nowhere.
Qed.

(** No match of a pattern that starts with a literal in a text where the
    literal does not occur. *)
Lemma re_finditer_without_literal (l : str) (r : regex) (s : str) :
  contains l s = false -> re_finditer (Seq (Lit l) r) s = [].
Proof.
  intros H. unfold re_finditer. rewrite scan_all_keep; [apply no_hits|].
  intros p Hp. apply run_seq_nil, run_lit_none.
  now apply contains_false_nowhere.
Qed.

(** [X8] A response that contains neither the opening marker [<<<<<<<] nor
    a fence marker yields no operation and no code block: the orchestrator
    returns the original text with [success = false] and the "nothing
    found" message. *)
Theorem response_without_markers :
  forall (original_code llm_response : str),
    contains (py "<<<<<<<") llm_response = false ->
    contains (py "```") llm_response = false ->
    parse_search_replace_response llm_response = [] /\
    _apply_search_replace_format original_code llm_response
    = (original_code, false,
       py "No SEARCH/REPLACE operations or code blocks found").
Proof.
  intros original_code llm_response Hopen Hfence.
  assert (Hp : parse_search_replace_response llm_response = []).
  { unfold parse_search_replace_response.
    rewrite sub_fence_identity by exact Hfence.
    unfold block_re. cbn [seqs].
    now rewrite re_finditer_without_literal. }
  split; [exact Hp|].
  unfold _apply_search_replace_format, try_except, try_body. rewrite Hp.
  unfold re_findall, code_block_re. cbn [seqs].
  now rewrite re_finditer_without_literal.
Qed.

Lemma response_without_markers_witness :
  _apply_search_replace_format (py "x = 1\n") (py "I would change `x` to 2.")
  = (py "x = 1\n", false,
     py "No SEARCH/REPLACE operations or code blocks found").
Proof.
  refine (proj2 (response_without_markers (py "x = 1\n")
                   (py "I would change `x` to 2.") _ _));
    vm_compute; reflexivity.
Defined.

(** ** An empty target *)

Lemma nothing_resolves_in_empty (op : SearchReplaceOperation) :
  search_text op <> [] -> ~ resolvable [] op.
Proof.
  intros Hne [[k [Hk Hocc]] | [i [Hlen _]]].
  - simpl in Hk. assert (k = 0) by lia. subst k. simpl in Hocc.
    destruct (search_text op); [congruence | discriminate].
  - simpl in Hlen.
    destruct (splitlines (search_text op)) eqn:E; [|simpl in Hlen; lia].
    now apply splitlines_nil in E.
Qed.

(** [X9] Against an empty target no operation with a non-empty
    [search_text] resolves: such an operation, when it is the first one
    parsed, makes the orchestrator fail with "SEARCH block 1 not found" and
    return the empty text. *)
Theorem empty_target_rejects :
  forall (llm_response : str) (op : SearchReplaceOperation)
         (ops : list SearchReplaceOperation),
    parse_search_replace_response llm_response = op :: ops ->
    search_text op <> [] ->
    ~ resolvable [] op /\
    _apply_search_replace_format [] llm_response
    = ([], false,
       py "Invalid SEARCH/REPLACE operations: SEARCH block 1 not found: '"
          ++ firstn 50 (search_text op) ++ py "...'").
Proof.
  intros llm_response op ops Hp Hne.
  pose proof (nothing_resolves_in_empty op Hne) as Hres.
  split; [exact Hres|].
  rewrite (orchestrator_invalid _ _ (not_found_message 0 op) _ _ Hp);
    [reflexivity|].
  unfold validate_operations. now apply validate_from_rejects.
Qed.

Lemma empty_target_rejects_witness :
  _apply_search_replace_format []
    (py "<<<<<<< SEARCH\nx = 1\n=======\nx = 2\n>>>>>>> REPLACE")
  = ([], false,
     py "Invalid SEARCH/REPLACE operations: SEARCH block 1 not found: 'x = 1...'").
Proof.
  refine (proj2 (empty_target_rejects
                   (py "<<<<<<< SEARCH\nx = 1\n=======\nx = 2\n>>>>>>> REPLACE")
                   {| search_text := py "x = 1"; replace_text := py "x = 2" |}
                   [] _ _)).
  - vm_compute. reflexivity.
  - discriminate.
Defined.

(** ** What an applied operation leaves behind *)

Lemma occurs_at_middle (before mid after : str) :
  occurs_at mid (before ++ mid ++ after) (length before).
Proof.
  split; [rewrite length_app; lia|].
  rewrite skipn_app, skipn_all, Nat.sub_diag. cbn [skipn app].
  apply startswith_app.
Qed.

Lemma firstn_app_exact {A : Type} (k : nat) (l1 l2 : list A) :
  length l1 = k -> firstn k (l1 ++ l2) = l1.
Proof.
  intros <-. rewrite firstn_app, firstn_all, Nat.sub_diag. apply app_nil_r.
Qed.

Lemma skipn_app_exact {A : Type} (k : nat) (l1 l2 : list A) :
  length l1 = k -> skipn k (l1 ++ l2) = l2.
Proof. intros <-. now rewrite skipn_app, skipn_all, Nat.sub_diag. Qed.

(** [X10] After an exact replacement at offset [k], [replace_text] stands at
    offset [k] of the result, the [k] characters in front of it are those
    of the original text, and the length has changed by the difference of
    the lengths of [replace_text] and [search_text]. *)
Theorem exact_replacement_takes_effect :
  forall (code : str) (op : SearchReplaceOperation) (k : nat),
    first_occurrence (search_text op) code k ->
    exists out,
      _apply_single_operation code op = Ok out /\
      occurs_at (replace_text op) out k /\
      firstn k out = firstn k code /\
      length out + length (search_text op)
      = length code + length (replace_text op).
Proof.
  intros code op k Hk. eexists.
  split; [apply (_apply_single_operation_exact _ _ _ Hk)|].
  assert (Hlen : length (firstn k code) = k).
  { apply firstn_length_le. apply Hk. }
  split; [|split].
  - pose proof (occurs_at_middle (firstn k code) (replace_text op)
                  (skipn (k + length (search_text op)) code)) as H.
    now rewrite Hlen in H.
  - now apply firstn_app_exact.
  - pose proof (occurs_at_split _ _ _ (proj1 Hk)) as Hsplit.
    apply (f_equal (@length char)) in Hsplit. rewrite !length_app in *. lia.
Qed.

Lemma exact_replacement_takes_effect_witness :
  exists out,
    _apply_single_operation (py "let x = 1;\nlet y = 1;\n")
      {| search_text := py "= 1"; replace_text := py "= 42" |} = Ok out /\
    occurs_at (py "= 42") out 6 /\
    firstn 6 out = firstn 6 (py "let x = 1;\nlet y = 1;\n") /\
    length out + length (py "= 1")
    = length (py "let x = 1;\nlet y = 1;\n") + length (py "= 42").
Proof.
  apply (exact_replacement_takes_effect
           (py "let x = 1;\nlet y = 1;\n")
           {| search_text := py "= 1"; replace_text := py "= 42" |} 6).
  apply contains_first_at. vm_compute. reflexivity.
Defined.

Lemma lstrip_split (line : str) :
  exists w, line = w ++ lstrip line /\ forallb isspace w = true.
Proof.
  induction line as [|c line (w & Hw & Hsp)]; simpl; [now exists []|].
  destruct (isspace c) eqn:E; [|now exists []].
  exists (c :: w). simpl. rewrite E, Hsp. split; [now f_equal | reflexivity].
Qed.

Lemma strip_lstrip (line : str) : strip (lstrip line) = strip line.
Proof.
  destruct (lstrip_split line) as (w & Hw & Hsp).
  rewrite Hw at 2. symmetry. now apply strip_app_spaces.
Qed.

Lemma forallb_spaces (n : nat) : forallb isspace (repeat SPACE n) = true.
Proof. induction n as [|n IH]; simpl; auto. Qed.

Lemma strip_spaces_lstrip (n : nat) (line : str) :
  strip (repeat SPACE n ++ lstrip line) = strip line.
Proof.
  rewrite strip_app_spaces by apply forallb_spaces. apply strip_lstrip.
Qed.

(** Re-indentation changes nothing but leading whitespace. *)
Lemma reindent_strip (base_indent : nat) (replace_lines : list str) :
  map strip (reindent base_indent replace_lines) = map strip replace_lines.
Proof.
  destruct replace_lines as [|first later]; [reflexivity|].
  cbn [reindent map]. f_equal.
  - unfold reindent_first. destruct (isblank first); [reflexivity|].
    apply strip_spaces_lstrip.
  - rewrite map_map. apply map_ext. intros line. unfold reindent_later.
    destruct (isblank line); [reflexivity|]. apply strip_spaces_lstrip.
Qed.

Lemma splitlines_line (l rest : str) :
  no_linebreak l -> splitlines (l ++ LF :: rest) = l :: splitlines rest.
Proof.
  induction l as [|c l IH]; intros Hl; [apply splitlines_cons_lf|].
  cbn [app splitlines]. rewrite (Hl c) by now left.
  fold splitlines. rewrite IH; [reflexivity|].
  intros x Hx. apply Hl. now right.
Qed.

Lemma splitlines_single (l : str) :
  no_linebreak l -> l <> [] -> splitlines l = [l].
Proof.
  induction l as [|c l IH]; intros Hl Hne; [congruence|].
  cbn [splitlines]. rewrite (Hl c) by now left.
  destruct l as [|d l]; [reflexivity|].
  rewrite IH; [reflexivity | | discriminate].
  intros x Hx. apply Hl. now right.
Qed.

(** Joining lines and splitting again gives the lines back, provided the
    last line is not empty. *)
Lemma splitlines_join (lines : list str) :
  Forall no_linebreak lines -> last lines [] <> [] ->
  splitlines (join [LF] lines) = lines.
Proof.
  induction 1 as [|l ls Hl Hls IH]; intros Hlast; [now simpl in Hlast|].
  destruct ls as [|l2 ls].
  - simpl in *. now apply splitlines_single.
  - change (join [LF] (l :: l2 :: ls)) with (l ++ LF :: join [LF] (l2 :: ls)).
    rewrite splitlines_line by exact Hl. f_equal. apply IH. exact Hlast.
Qed.

(** [X11] After a replacement on the normalized path whose last output line
    is not empty, the lines of the result are the lines before the window,
    the re-indented replacement and the lines after the window: the lines
    in front of the window are untouched, the number of lines has changed
    by the difference of the two blocks, and [replace_text] itself now
    matches at the window once lines are stripped. *)
Theorem normalized_replacement_takes_effect :
  forall (code : str) (op : SearchReplaceOperation) (i : nat),
    contains (search_text op) code = false ->
    first_candidate (splitlines (search_text op)) (splitlines code) i ->
    last (firstn i (splitlines code)
          ++ reindent (indent_width (nth i (splitlines code) []))
                      (splitlines (replace_text op))
          ++ skipn (i + length (splitlines (search_text op))) (splitlines code))
         [] <> [] ->
    exists out,
      _apply_single_operation code op = Ok out /\
      splitlines out
      = firstn i (splitlines code)
        ++ reindent (indent_width (nth i (splitlines code) []))
                    (splitlines (replace_text op))
        ++ skipn (i + length (splitlines (search_text op))) (splitlines code) /\
      firstn i (splitlines out) = firstn i (splitlines code) /\
      length (splitlines out) + length (splitlines (search_text op))
      = length (splitlines code) + length (splitlines (replace_text op)) /\
      candidate_window (splitlines (replace_text op)) (splitlines out) i.
Proof.
  intros code op i Hno Hf Hlast. eexists.
  split; [apply (_apply_single_operation_normalized _ _ _ Hno Hf)|].
  assert (Hi : i + length (splitlines (search_text op))
               <= length (splitlines code)) by apply Hf.
  assert (Hlen : length (firstn i (splitlines code)) = i)
    by (apply firstn_length_le; lia).
  assert (Hsplit : splitlines
            (join (py "\n")
               (firstn i (splitlines code)
                ++ reindent (indent_width (nth i (splitlines code) []))
                            (splitlines (replace_text op))
                ++ skipn (i + length (splitlines (search_text op)))
                         (splitlines code)))
          = firstn i (splitlines code)
            ++ reindent (indent_width (nth i (splitlines code) []))
                        (splitlines (replace_text op))
            ++ skipn (i + length (splitlines (search_text op)))
                     (splitlines code)).
  { apply splitlines_join; [|exact Hlast].
    apply Forall_app. split; [apply Forall_firstn_keep, splitlines_no_linebreak|].
    apply Forall_app. split.
    - apply reindent_no_linebreak, splitlines_no_linebreak.
    - apply Forall_skipn_keep, splitlines_no_linebreak. }
  rewrite Hsplit. split; [reflexivity|]. split; [|split].
  - now apply firstn_app_exact.
  - rewrite !length_app, reindent_length, length_skipn, Hlen. lia.
  - split.
    + rewrite !length_app, reindent_length, Hlen. lia.
    + rewrite (skipn_app_exact i _ _ Hlen).
      rewrite firstn_app_exact by apply reindent_length.
      apply reindent_strip.
Qed.

Lemma normalized_replacement_takes_effect_witness :
  exists out,
    _apply_single_operation
      (py "mod m {\n    fn f() {\n        let x = 1;\n    }\n}\n")
      {| search_text := py "fn f() {\n    let x = 1;\n}";
         replace_text := py "fn f() {\n    let x = 2;\n}" |} = Ok out /\
    candidate_window (splitlines (py "fn f() {\n    let x = 2;\n}"))
                     (splitlines out) 1.
Proof.
  destruct (normalized_replacement_takes_effect
              (py "mod m {\n    fn f() {\n        let x = 1;\n    }\n}\n")
              {| search_text := py "fn f() {\n    let x = 1;\n}";
                 replace_text := py "fn f() {\n    let x = 2;\n}" |} 1)
    as (out & Hout & _ & _ & _ & Hc).
  - vm_compute. reflexivity.
  - apply first_candidateb; vm_compute; reflexivity.
  - vm_compute. discriminate.
  - exists out. split; [exact Hout | exact Hc].
Defined.

(** ** What a parsed operation comes from *)

Lemma run_lit_inv (l s : str) (t : thread) :
  In t (run (Lit l) s) -> fst t = [] /\ s = l ++ snd t.
Proof.
  cbn [run]. destruct (startswith l s) eqn:E; [|intros []].
  intros [<- | []]. split; [reflexivity|]. now apply startswith_split.
Qed.

Lemma run_ws_inv (s : str) (t : thread) :
  In t (run WsStar s) ->
  fst t = [] /\ exists w, s = w ++ snd t /\ forallb isspace w = true.
Proof.
  cbn [run]. intros H. apply in_map_iff in H as (x & <- & Hx).
  split; [reflexivity|]. now apply ws_star_suffix.
Qed.

Lemma run_group_lazy_inv (s : str) (t : thread) :
  In t (run (Group AnyLazy) s) -> exists g, fst t = [g] /\ s = g ++ snd t.
Proof.
  cbn [run]. intros H. apply in_map_iff in H as (t1 & <- & H1).
  apply in_map_iff in H1 as (x & <- & Hx). cbn [fst snd].
  destruct (any_lazy_suffix _ _ Hx) as (w & Hw).
  exists w. split.
  - f_equal. rewrite Hw at 2. rewrite Hw at 1.
    rewrite length_app, Nat.add_sub. now apply firstn_app_exact.
  - exact Hw.
Qed.

Lemma run_seq_inv (r1 r2 : regex) (s : str) (t : thread) :
  In t (run (Seq r1 r2) s) ->
  exists t1 t2,
    In t1 (run r1 s) /\ In t2 (run r2 (snd t1)) /\
    fst t = fst t1 ++ fst t2 /\ snd t = snd t2.
Proof.
  cbn [run]. intros H. apply in_flat_map in H as (t1 & H1 & H).
  apply in_map_iff in H as (t2 & <- & H2). exists t1, t2. auto.
Qed.

(** Every way of matching [block_re] reads the input as an edit block: the
    three markers in order, whitespace where the pattern has [\s*], and the
    two groups between the newlines. *)
Lemma block_re_inv (x : str) (t : thread) :
  In t (run block_re x) ->
  exists ws1 ws2 ws3 ws4 g1 g2,
    fst t = [g1; g2] /\
    x = py "<<<<<<<" ++ ws1 ++ py "SEARCH" ++ ws2 ++ py "\n" ++ g1
        ++ py "\n=======" ++ ws3 ++ py "\n" ++ g2
        ++ py "\n>>>>>>>" ++ ws4 ++ py "REPLACE" ++ snd t /\
    forallb isspace ws1 = true /\ forallb isspace ws2 = true /\
    forallb isspace ws3 = true /\ forallb isspace ws4 = true.
Proof.
  unfold block_re. cbn [seqs]. intros H.
  repeat match goal with
         | H : In _ (run (Seq _ _) _) |- _ =>
             let t1 := fresh "t" in
             let t2 := fresh "u" in
             let H1 := fresh "H" in
             let H2 := fresh "H" in
             let Hf := fresh "Hf" in
             let Hs := fresh "Hs" in
             apply run_seq_inv in H as (t1 & t2 & H1 & H2 & Hf & Hs)
         end.
  repeat match goal with
         | H : In _ (run (Lit _) _) |- _ =>
             let Hf := fresh "Hf" in
             let Hs := fresh "Hs" in
             apply run_lit_inv in H as (Hf & Hs)
         | H : In _ (run WsStar _) |- _ =>
             let Hf := fresh "Hf" in
             let w := fresh "w" in
             let Hs := fresh "Hs" in
             let Hw := fresh "Hw" in
             apply run_ws_inv in H as (Hf & w & Hs & Hw)
         | H : In _ (run (Group AnyLazy) _) |- _ =>
             let g := fresh "g" in
             let Hf := fresh "Hf" in
             let Hs := fresh "Hs" in
             apply run_group_lazy_inv in H as (g & Hf & Hs)
         end.
  repeat match goal with
         | H : fst _ = _ |- _ => rewrite H in *; clear H
         end.
  repeat match goal with
         | H : snd ?a = snd ?b |- _ => rewrite H in *; clear H
         end.
  match goal with H : x = _ |- _ => rewrite H; clear H end.
  repeat match goal with
         | H : snd ?a = _ |- context [snd ?a] => rewrite H; clear H
         end.
  do 6 eexists. split; [reflexivity|].
  split; [eval_py; cbn [app]; reflexivity|]. auto.
Qed.

(** A match found by the scan is the first match at some offset. *)
Lemma scan_hit_inv (r : regex) (k : nat) (s : str) (gs : list str) :
  In (Hit gs) (scan r k s) ->
  exists before x rest ts, s = before ++ x /\ run r x = (gs, rest) :: ts.
Proof.
  revert k; induction s as [|c s IH]; intros k; cbn [scan].
  - destruct k; [|intros []].
    destruct (run r []) as [|[g rest] ts] eqn:E; [intros []|].
    intros [[= <-] | []]. exists [], [], rest, ts. now split.
  - assert (Hs : forall k', In (Hit gs) (scan r k' s) ->
                 exists before x rest ts,
                   c :: s = before ++ x /\ run r x = (gs, rest) :: ts).
    { intros k' H. destruct (IH _ H) as (before & x & rest & ts & -> & Hx).
      exists (c :: before), x, rest, ts. now split. }
    destruct k as [|k]; [|apply Hs].
    destruct (run r (c :: s)) as [|[g rest] ts] eqn:E.
    + intros [[=] | H]. now apply Hs in H.
    + assert (Hg : exists before x rest' ts',
                 c :: s = before ++ x /\ run r x = (g, rest') :: ts').
      { exists [], (c :: s), rest, ts. now split. }
      destruct (length (c :: s) - length rest).
      * intros [[= <-] | [[=] | H]]; [exact Hg | now apply Hs in H].
      * intros [[= <-] | H]; [exact Hg | now apply Hs in H].
Qed.

(** [X12] Every operation that the parser returns comes from an edit block
    of the response once the fence markers are deleted: that text holds, in
    this order, [<<<<<<<], whitespace, [SEARCH], whitespace ending in a
    newline, the [search_text], a newline, [=======], whitespace ending in a
    newline, the [replace_text], a newline, [>>>>>>>], whitespace and
    [REPLACE]. *)
Theorem parsed_operations_are_blocks :
  forall (response : str) (op : SearchReplaceOperation),
    In op (parse_search_replace_response response) ->
    exists before ws1 ws2 ws3 ws4 after,
      re_sub_empty fence_re response
      = before ++ py "<<<<<<<" ++ ws1 ++ py "SEARCH" ++ ws2 ++ py "\n"
          ++ search_text op
          ++ py "\n=======" ++ ws3 ++ py "\n"
          ++ replace_text op
          ++ py "\n>>>>>>>" ++ ws4 ++ py "REPLACE" ++ after /\
      forallb isspace ws1 = true /\ forallb isspace ws2 = true /\
      forallb isspace ws3 = true /\ forallb isspace ws4 = true.
Proof.
  intros response op Hop. unfold parse_search_replace_response in Hop.
  apply in_map_iff in Hop as (m & <- & Hm). unfold re_finditer in Hm.
  apply in_flat_map in Hm as ([c | gs] & Hp & Hin); [destruct Hin|].
  destruct Hin as [<- | []].
  apply scan_hit_inv in Hp as (before & x & rest & ts & Hsplit & Hrun).
  destruct (block_re_inv x (gs, rest))
    as (ws1 & ws2 & ws3 & ws4 & g1 & g2 & Hg & Hx & H1 & H2 & H3 & H4).
  { rewrite Hrun. now left. }
  cbn [fst snd] in Hg, Hx. subst gs.
  exists before, ws1, ws2, ws3, ws4, rest.
  cbn [search_text replace_text group Nat.sub nth].
  rewrite Hsplit, Hx. auto.
Qed.

Lemma parsed_operations_are_blocks_witness :
  exists before ws1 ws2 ws3 ws4 after,
    re_sub_empty fence_re
      (py "```rust\n<<<<<<< SEARCH\nx = 1\n=======\nx = 2\n>>>>>>> REPLACE\n```")
    = before ++ py "<<<<<<<" ++ ws1 ++ py "SEARCH" ++ ws2 ++ py "\n"
        ++ py "x = 1"
        ++ py "\n=======" ++ ws3 ++ py "\n"
        ++ py "x = 2"
        ++ py "\n>>>>>>>" ++ ws4 ++ py "REPLACE" ++ after /\
    forallb isspace ws1 = true /\ forallb isspace ws2 = true /\
    forallb isspace ws3 = true /\ forallb isspace ws4 = true.
Proof.
  apply (parsed_operations_are_blocks
           (py "```rust\n<<<<<<< SEARCH\nx = 1\n=======\nx = 2\n>>>>>>> REPLACE\n```")
           {| search_text := py "x = 1"; replace_text := py "x = 2" |}).
  vm_compute. now left.
Defined.

(** ** Occurrences across a boundary *)

Lemma startswith_nth (sub s : str) (m : nat) (c : char) :
  startswith sub s = true -> nth_error sub m = Some c -> nth_error s m = Some c.
Proof.
  revert s m; induction sub as [|x sub IH]; intros s m H Hm; [now destruct m|].
  destruct s as [|y s]; [discriminate|]. cbn [startswith] in H.
  apply andb_true_iff in H as [Hx H]. apply N.eqb_eq in Hx. subst y.
  destruct m as [|m]; [exact Hm|]. cbn [nth_error] in *. now apply IH.
Qed.

Lemma nth_error_skipn {A : Type} (p m : nat) (l : list A) :
  nth_error (skipn p l) m = nth_error l (p + m).
Proof.
  revert l; induction p as [|p IH]; intros l; [reflexivity|].
  destruct l as [|x l]; [now destruct m|]. apply IH.
Qed.

Lemma startswith_shorter (sub a x : str) :
  length sub <= length a -> startswith sub (a ++ x) = startswith sub a.
Proof.
  revert a; induction sub as [|c sub IH]; intros a Hlen; [reflexivity|].
  destruct a as [|d a]; [simpl in Hlen; lia|].
  cbn [app startswith]. rewrite IH; [reflexivity | simpl in Hlen; lia].
Qed.

(** An occurrence that starts inside [a] in [a ++ x] either lies within [a]
    or covers the last character of [a]. *)
Lemma occurrence_in_prefix (sub a x : str) (p : nat) :
  p < length a ->
  startswith sub (skipn p (a ++ x)) = true ->
  contains sub a = false ->
  exists m c, nth_error sub m = Some c /\ p + m = length a - 1 /\
              nth_error a (length a - 1) = Some c /\ p + length sub > length a.
Proof.
  intros Hp H Hno.
  destruct (le_lt_dec (p + length sub) (length a)) as [Hin | Hout].
  - exfalso. rewrite skipn_app in H.
    rewrite startswith_shorter in H by (rewrite length_skipn; lia).
    apply (contains_false sub a p Hno). split; [lia | exact H].
  - assert (Hm : length a - 1 - p < length sub) by lia.
    destruct (nth_error sub (length a - 1 - p)) as [c|] eqn:Ec;
      [|apply nth_error_None in Ec; lia].
    exists (length a - 1 - p), c. split; [exact Ec|]. split; [lia|].
    split; [|lia].
    pose proof (startswith_nth _ _ _ _ H Ec) as Hn.
    rewrite nth_error_skipn in Hn.
    replace (p + (length a - 1 - p)) with (length a - 1) in Hn by lia.
    rewrite nth_error_app1 in Hn by lia. exact Hn.
Qed.

(** A text whose first character appears nowhere else in it: an occurrence
    that starts inside [s] cannot run into a copy of the text that follows
    [s]. *)
Lemma no_earlier_occurrence (c0 : char) (sub s rest : str) (e : nat) :
  ~ In c0 sub -> contains (c0 :: sub) s = false -> e < length s ->
  startswith (c0 :: sub) (skipn e (s ++ (c0 :: sub) ++ rest)) = false.
Proof.
  intros Hc Hno He.
  destruct (startswith (c0 :: sub) (skipn e (s ++ (c0 :: sub) ++ rest))) eqn:E;
    [|reflexivity].
  exfalso.
  destruct (le_lt_dec (e + length (c0 :: sub)) (length s)) as [Hin | Hout].
  - rewrite skipn_app in E.
    rewrite startswith_shorter in E by (rewrite length_skipn; lia).
    apply (contains_false (c0 :: sub) s e Hno). split; [lia | exact E].
  - assert (Hj : length s - e < length (c0 :: sub)) by lia.
    destruct (nth_error (c0 :: sub) (length s - e)) as [c|] eqn:Ec;
      [|apply nth_error_None in Ec; lia].
    pose proof (startswith_nth _ _ _ _ E Ec) as Hn.
    rewrite nth_error_skipn in Hn.
    replace (e + (length s - e)) with (length s) in Hn by lia.
    rewrite nth_error_app2, Nat.sub_diag in Hn by lia.
    cbn [app nth_error] in Hn. injection Hn as <-.
    destruct (length s - e) as [|j] eqn:Ej; [lia|].
    cbn [nth_error] in Ec. apply nth_error_In in Ec. contradiction.
Qed.

(** A text made of one repeated character: an occurrence that starts inside
    [a] and is not within [a] would make the last character of [a] that
    character. *)
Lemma no_straddling_occurrence (d : char) (n : nat) (a x : str) (p : nat) :
  contains (repeat d n) a = false ->
  last a d <> d ->
  p < length a ->
  startswith (repeat d n) (skipn p (a ++ x)) = false.
Proof.
  intros Hno Hlast Hp.
  destruct (startswith (repeat d n) (skipn p (a ++ x))) eqn:E; [|reflexivity].
  exfalso.
  destruct (occurrence_in_prefix _ _ _ _ Hp E Hno) as (m & c & Hm & _ & Ha & _).
  apply nth_error_In, repeat_spec in Hm. subst c.
  apply Hlast.
  destruct (exists_last (l := a)) as (a' & y & ->).
  { intros ->. simpl in Hp. lia. }
  rewrite last_last. rewrite length_app in Ha. simpl in Ha.
  rewrite nth_error_app2 in Ha by lia.
  replace (length a' + 1 - 1 - length a') with 0 in Ha by lia.
  now injection Ha.
Qed.

(** ** The steps of the edit-block pattern *)

Lemma run_two_lits_none (a b y : str) (r : regex) :
  startswith (a ++ b) y = false -> run (Seq (Lit a) (Seq (Lit b) r)) y = [].
Proof.
  intros H. destruct (startswith a y) eqn:Ea.
  - apply startswith_split in Ea. rewrite Ea, run_seq_lit.
    rewrite run_seq_nil; [reflexivity|]. apply run_lit_none.
    destruct (startswith b (skipn (length a) y)) eqn:Eb; [|reflexivity].
    apply startswith_split in Eb. rewrite Ea, Eb, app_assoc in H.
    now rewrite startswith_app in H.
  - apply run_seq_nil. now apply run_lit_none.
Qed.

Lemma lazy_until_matches_from (k0 : regex) (x0 : str) (g : list str) (rest : str)
  (x pre : str) (k : nat) :
  x0 = pre ++ x ->
  k <= length x ->
  (forall e, e < k -> run k0 (skipn e x) = []) ->
  first_match k0 (skipn k x) (g, rest) ->
  exists ts,
    flat_map (fun t1 : thread =>
                map (fun t2 : thread => (fst t1 ++ fst t2, snd t2))
                    (run k0 (snd t1)))
             (map (fun t : thread =>
                     (firstn (length x0 - length (snd t)) x0 :: fst t, snd t))
                  (map (pair []) (any_lazy x)))
    = (firstn (length pre + k) x0 :: g, rest) :: ts.
Proof.
  revert pre k; induction x as [|c x IH]; intros pre k Hx0 Hk Hnone Hm.
  - simpl in Hk. assert (k = 0) by lia. subst k.
    destruct Hm as [ts Hts]. cbn [skipn] in Hts.
    cbn [any_lazy map flat_map fst snd]. rewrite Hts. cbn [map app fst snd].
    eexists. f_equal. f_equal. f_equal. f_equal.
    rewrite Hx0, length_app. simpl. lia.
  - cbn [any_lazy map flat_map fst snd]. destruct k as [|k].
    + destruct Hm as [ts Hts]. cbn [skipn] in Hts. rewrite Hts.
      cbn [map app fst snd]. eexists. f_equal. f_equal. f_equal. f_equal.
      rewrite Hx0, length_app. simpl. lia.
    + pose proof (Hnone 0 (Nat.lt_0_succ k)) as H0. cbn [skipn] in H0.
      rewrite H0. cbn [map app].
      destruct (IH (pre ++ [c]) k) as [ts Hts].
      * now rewrite <- app_assoc.
      * simpl in Hk. lia.
      * intros e He. apply (Hnone (S e)). lia.
      * exact Hm.
      * exists ts. rewrite Hts, length_app. simpl.
        now replace (length pre + 1 + k) with (length pre + S k) by lia.
Qed.

(** Lazy [(.*?)] in front of the rest of a pattern captures up to the first
    offset at which the rest matches. *)
Lemma lazy_until_matches (k0 : regex) (x : str) (k : nat) (g : list str)
  (rest : str) :
  k <= length x ->
  (forall e, e < k -> run k0 (skipn e x) = []) ->
  first_match k0 (skipn k x) (g, rest) ->
  first_match (Seq (Group AnyLazy) k0) x (firstn k x :: g, rest).
Proof.
  intros Hk Hnone Hm.
  destruct (lazy_until_matches_from k0 x g rest x [] k eq_refl Hk Hnone Hm)
    as [ts Hts].
  exists ts. cbn [run]. exact Hts.
Qed.

Lemma indent_width_cons_space (c : char) (y : str) :
  isspace c = true -> indent_width (c :: y) = S (indent_width y).
Proof.
  intros Hc. unfold indent_width. cbn [lstrip length]. rewrite Hc.
  pose proof (length_lstrip y). lia.
Qed.

(** A run of whitespace at the start of a text lies within its leading
    whitespace. *)
Lemma whitespace_prefix_in_lead (p y rest : str) (c : char) :
  forallb isspace p = true -> y = p ++ rest -> In c p ->
  In c (firstn (indent_width y) y).
Proof.
  revert y; induction p as [|d p IH]; intros y Hp -> Hc; [destruct Hc|].
  cbn [forallb] in Hp. apply andb_true_iff in Hp as [Hd Hp].
  cbn [app]. rewrite indent_width_cons_space by exact Hd. cbn [firstn].
  destruct Hc as [-> | Hc]; [now left | right]. now apply (IH _ Hp eq_refl).
Qed.

(** [\s*\n] in front of a text whose leading whitespace holds no newline:
    the newline matched is the one right before the text. *)
Lemma ws_then_newline (k0 : regex) (y : str) (t : thread) :
  ~ In LF (firstn (indent_width y) y) ->
  first_match k0 y t ->
  first_match (Seq WsStar (Seq (Lit [LF]) k0)) (LF :: y) t.
Proof.
  intros Hlead Hm.
  destruct (first_match_seq_backtrack WsStar (Seq (Lit [LF]) k0) (LF :: y)
              (fun t' => t' = t)) as (t' & Ht' & ->); [| |exact Ht'].
  - exists ([], LF :: y). split.
    + cbn [run]. apply in_map. apply ws_star_self.
    + cbn [snd]. change (LF :: y) with ([LF] ++ y). rewrite run_seq_lit.
      intros Hnil. apply map_eq_nil in Hnil.
      now apply (first_match_nonempty _ _ _ Hm).
  - intros [g1 x] t2 Hin Ht2. apply run_ws_inv in Hin as (Hg & w & Hw & Hsp).
    cbn [fst snd] in *. subst g1.
    destruct x as [|c x'].
    { apply first_match_nonempty in Ht2. now contradiction Ht2. }
    destruct (N.eqb_spec LF c) as [<- | Hc].
    2:{ apply first_match_nonempty in Ht2. contradiction Ht2.
        apply run_seq_nil, run_lit_none. cbn [startswith].
        apply N.eqb_neq in Hc. now rewrite Hc. }
    destruct w as [|d w].
    + cbn [app] in Hw. injection Hw as <-.
      change (LF :: y) with ([LF] ++ y) in Ht2.
      apply first_match_seq_lit in Ht2.
      rewrite (first_match_unique _ _ _ _ Ht2 Hm). now destruct t.
    + exfalso. cbn [app] in Hw. injection Hw as <- Hy.
      cbn [forallb] in Hsp. apply andb_true_iff in Hsp as [_ Hsp].
      apply Hlead.
      apply (whitespace_prefix_in_lead (w ++ [LF]) y x').
      * rewrite forallb_app, Hsp. reflexivity.
      * now rewrite <- app_assoc.
      * apply in_or_app. right. now left.
Qed.

Lemma lead_app (a x : str) :
  lstrip a <> [] ->
  firstn (indent_width (a ++ x)) (a ++ x) = firstn (indent_width a) a.
Proof.
  intros Hne.
  assert (Hw : indent_width (a ++ x) = indent_width a).
  { unfold indent_width. rewrite lstrip_app_keep by exact Hne.
    rewrite !length_app. pose proof (length_lstrip a). lia. }
  rewrite Hw, firstn_app.
  replace (indent_width a - length a) with 0 by (unfold indent_width; lia).
  cbn [firstn]. apply app_nil_r.
Qed.

(** The first match of the edit-block pattern at the start of a block
    written the way the format instructions show it. *)
Lemma block_re_match (s r post : str) :
  lstrip s <> [] -> ~ In LF (firstn (indent_width s) s) ->
  contains (py "\n=======") s = false ->
  lstrip r <> [] -> ~ In LF (firstn (indent_width r) r) ->
  contains (py "\n>>>>>>>") r = false ->
  first_match block_re
    (py "<<<<<<< SEARCH\n" ++ s ++ py "\n=======\n" ++ r
       ++ py "\n>>>>>>> REPLACE" ++ post)
    ([s; r], post).
Proof.
  intros Hs1 Hs2 Hs3 Hr1 Hr2 Hr3. unfold block_re. cbn [seqs]. eval_py.
  cbn [app].
  set (GT := [62; 62; 62; 62; 62; 62; 62]%N).
  set (EQ := [61; 61; 61; 61; 61; 61; 61]%N).
  set (tail2 := [62; 62; 62; 62; 62; 62; 62; 32; 82; 69; 80; 76; 65; 67; 69]%N
                ++ post).
  (* the closing marker *)
  assert (Hk2 : first_match
                  (Seq (Lit [10%N])
                     (Seq (Lit GT) (Seq WsStar (Lit [82; 69; 80; 76; 65; 67; 69]%N))))
                  ([10%N] ++ tail2) ([], post)).
  { apply (first_match_seq _ _ _ tail2 _ [] []); [apply first_match_lit|].
    apply (first_match_seq _ _ _
             (32%N :: [82; 69; 80; 76; 65; 67; 69]%N ++ post) _ [] []);
      [apply (first_match_lit GT)|].
    apply (first_match_seq _ _ _ ([82; 69; 80; 76; 65; 67; 69]%N ++ post) _ [] []);
      [apply (first_match_ws (32%N :: [82; 69; 80; 76; 65; 67; 69]%N ++ post))|].
    apply first_match_lit. }
  (* the replace section *)
  assert (Hg2 : first_match
                  (Seq (Group AnyLazy)
                     (Seq (Lit [10%N])
                        (Seq (Lit GT)
                           (Seq WsStar (Lit [82; 69; 80; 76; 65; 67; 69]%N)))))
                  (r ++ [10%N] ++ tail2) ([r], post)).
  { rewrite <- (firstn_app_exact (length r) r ([10%N] ++ tail2) eq_refl) at 2.
    apply lazy_until_matches.
    - rewrite length_app. lia.
    - intros e He. apply run_two_lits_none.
      change (startswith (10%N :: GT)
                (skipn e (r ++ (10%N :: GT)
                            ++ (32%N :: [82; 69; 80; 76; 65; 67; 69]%N ++ post)))
              = false).
      apply no_earlier_occurrence; auto.
      vm_compute. intuition discriminate.
    - rewrite (skipn_app_exact (length r) r _ eq_refl). exact Hk2. }
  assert (Hw2 : first_match
                  (Seq WsStar
                     (Seq (Lit [10%N])
                        (Seq (Group AnyLazy)
                           (Seq (Lit [10%N])
                              (Seq (Lit GT)
                                 (Seq WsStar
                                    (Lit [82; 69; 80; 76; 65; 67; 69]%N)))))))
                  (10%N :: r ++ [10%N] ++ tail2) ([r], post)).
  { apply (ws_then_newline _ (r ++ [10%N] ++ tail2)); [|exact Hg2].
    now rewrite lead_app. }
  set (tail1 := 10%N :: r ++ [10%N] ++ tail2) in *.
  (* the dividing line and the search section *)
  assert (Hg1 : first_match
                  (Seq (Group AnyLazy)
                     (Seq (Lit [10%N])
                        (Seq (Lit EQ)
                           (Seq WsStar
                              (Seq (Lit [10%N])
                                 (Seq (Group AnyLazy)
                                    (Seq (Lit [10%N])
                                       (Seq (Lit GT)
                                          (Seq WsStar
                                             (Lit [82; 69; 80; 76; 65; 67; 69]%N))))))))))
                  (s ++ [10%N] ++ EQ ++ tail1) ([s; r], post)).
  { rewrite <- (firstn_app_exact (length s) s ([10%N] ++ EQ ++ tail1) eq_refl) at 2.
    apply lazy_until_matches.
    - rewrite length_app. lia.
    - intros e He. apply run_two_lits_none.
      change (startswith (10%N :: EQ) (skipn e (s ++ (10%N :: EQ) ++ tail1))
              = false).
      apply no_earlier_occurrence; auto.
      vm_compute. intuition discriminate.
    - rewrite (skipn_app_exact (length s) s _ eq_refl).
      apply (first_match_seq _ _ _ (EQ ++ tail1) _ [] [r]);
        [apply first_match_lit|].
      apply (first_match_seq _ _ _ tail1 _ [] [r]);
        [apply first_match_lit | exact Hw2]. }
  (* the opening marker *)
  apply (first_match_seq _ _ _
           (32%N :: [83; 69; 65; 82; 67; 72]%N
              ++ 10%N :: s ++ [10%N] ++ EQ ++ tail1) _ [] [s; r]);
    [apply (first_match_lit [60; 60; 60; 60; 60; 60; 60]%N)|].
  apply (first_match_seq _ _ _
           ([83; 69; 65; 82; 67; 72]%N ++ 10%N :: s ++ [10%N] ++ EQ ++ tail1)
           _ [] [s; r]);
    [apply (first_match_ws (32%N :: [83; 69; 65; 82; 67; 72]%N
                              ++ 10%N :: s ++ [10%N] ++ EQ ++ tail1))|].
  apply (first_match_seq _ _ _ (10%N :: s ++ [10%N] ++ EQ ++ tail1) _ [] [s; r]);
    [apply first_match_lit|].
  apply (ws_then_newline _ (s ++ [10%N] ++ EQ ++ tail1)); [|exact Hg1].
  now rewrite lead_app.
Qed.

(** ** Fence-free texts *)

Lemma contains_false_intro (sub s : str) :
  (forall p, p <= length s -> startswith sub (skipn p s) = false) ->
  contains sub s = false.
Proof.
  intros H. destruct (contains sub s) eqn:E; [|reflexivity].
  apply contains_first in E as (k & [Hk Hocc] & _).
  rewrite (H k Hk) in Hocc. discriminate.
Qed.

Lemma contains_app_after (d : char) (n : nat) (a x : str) :
  contains (repeat d n) a = false -> contains (repeat d n) x = false ->
  last a d <> d ->
  contains (repeat d n) (a ++ x) = false.
Proof.
  intros Ha Hx Hlast. apply contains_false_intro. intros p Hp.
  destruct (le_lt_dec (length a) p) as [Hge | Hlt].
  - rewrite skipn_app, skipn_all2 by exact Hge. cbn [app].
    apply contains_false_nowhere; [exact Hx|]. rewrite length_app in Hp. lia.
  - now apply no_straddling_occurrence.
Qed.

Lemma contains_snoc_other (d c : char) (n : nat) (a : str) :
  contains (repeat d n) a = false -> c <> d ->
  contains (repeat d n) (a ++ [c]) = false.
Proof.
  intros Ha Hc. apply contains_false_intro. intros p Hp.
  destruct (startswith (repeat d n) (skipn p (a ++ [c]))) eqn:E; [|reflexivity].
  exfalso.
  destruct (le_lt_dec (p + n) (length a)) as [Hin | Hout].
  - rewrite skipn_app in E.
    rewrite startswith_shorter in E by (rewrite length_skipn, repeat_length; lia).
    apply (contains_false _ a p Ha). split; [lia | exact E].
  - rewrite length_app in Hp. simpl in Hp.
    destruct n as [|n]; [rewrite contains_nil in Ha; discriminate|].
    assert (Hpa : p <= length a).
    { destruct (le_lt_dec p (length a)) as [Hle | Hgt]; [exact Hle|].
      rewrite skipn_all2 in E by (rewrite length_app; simpl; lia).
      discriminate. }
    assert (Hm : nth_error (repeat d (S n)) (length a - p) = Some d).
    { destruct (nth_error (repeat d (S n)) (length a - p)) as [y|] eqn:Ey.
      - apply nth_error_In, repeat_spec in Ey. now subst y.
      - apply nth_error_None in Ey. rewrite repeat_length in Ey. lia. }
    pose proof (startswith_nth _ _ _ _ E Hm) as Hn.
    rewrite nth_error_skipn in Hn.
    replace (p + (length a - p)) with (length a) in Hn by lia.
    rewrite nth_error_app2, Nat.sub_diag in Hn by lia.
    cbn [nth_error] in Hn. congruence.
Qed.

Lemma contains_app_before (d c : char) (n : nat) (a x : str) :
  contains (repeat d n) a = false -> contains (repeat d n) (c :: x) = false ->
  c <> d ->
  contains (repeat d n) (a ++ c :: x) = false.
Proof.
  intros Ha Hx Hc.
  change (a ++ c :: x) with (a ++ [c] ++ x). rewrite app_assoc.
  apply contains_app_after.
  - now apply contains_snoc_other.
  - rewrite contains_cons in Hx. now apply orb_false_iff in Hx.
  - now rewrite last_last.
Qed.

(** A block whose sections hold no fence marker holds none. *)
Lemma edit_block_fence_free (s r post : str) :
  contains (py "```") s = false -> contains (py "```") r = false ->
  contains (py "```") post = false ->
  contains (py "```")
    (py "<<<<<<< SEARCH\n" ++ s ++ py "\n=======\n" ++ r
       ++ py "\n>>>>>>> REPLACE" ++ post) = false.
Proof.
  intros Hs Hr Hpost. eval_py.
  change [96; 96; 96]%N with (repeat 96%N 3) in *.
  apply contains_app_after; [reflexivity | | vm_compute; discriminate].
  cbn [app]. apply contains_app_before; [exact Hs | | discriminate].
  change (10%N :: 61%N :: ?x) with ([10; 61; 61; 61; 61; 61; 61; 61; 10]%N
                                      ++ r ++ [10; 62; 62; 62; 62; 62; 62; 62;
                                               32; 82; 69; 80; 76; 65; 67; 69]%N
                                      ++ post).
  apply contains_app_after; [reflexivity | | vm_compute; discriminate].
  cbn [app]. apply contains_app_before; [exact Hr | | discriminate].
  change (10%N :: 62%N :: ?x) with ([10; 62; 62; 62; 62; 62; 62; 62;
                                     32; 82; 69; 80; 76; 65; 67; 69]%N ++ post).
  apply contains_app_after; [reflexivity | exact Hpost | vm_compute; discriminate].
Qed.

(** ** Round trip of an edit block *)

Lemma re_finditer_edit_block (s r post : str) :
  lstrip s <> [] -> ~ In LF (firstn (indent_width s) s) ->
  contains (py "\n=======") s = false ->
  lstrip r <> [] -> ~ In LF (firstn (indent_width r) r) ->
  contains (py "\n>>>>>>>") r = false ->
  re_finditer block_re
    (py "<<<<<<< SEARCH\n" ++ s ++ py "\n=======\n" ++ r
       ++ py "\n>>>>>>> REPLACE" ++ post)
  = [s; r] :: re_finditer block_re post.
Proof.
  intros Hs1 Hs2 Hs3 Hr1 Hr2 Hr3.
  destruct (block_re_match s r post Hs1 Hs2 Hs3 Hr1 Hr2 Hr3) as [ts H].
  unfold re_finditer. rewrite (scan_hit _ _ _ _ _ H); [reflexivity|].
  rewrite !length_app. simpl. lia.
Qed.

(** [X13] An edit block written as the format instructions lay it out
    (opening line, search section, dividing line, replace section, closing
    line) is read back as exactly the operation it was written from, and
    parsing goes on with the text after the block.  The conditions are the
    ones the two patterns impose: each section has a character that is not
    white space and its first line is not blank (the greedy white space
    before the section would swallow it), the search section holds no line
    opening with the dividing marker and the replace section none opening with
    the closing marker, and no part of the response holds a fence marker. *)
Theorem edit_block_round_trip :
  forall (s r post : str),
    lstrip s <> [] -> ~ In LF (firstn (indent_width s) s) ->
    contains (py "\n=======") s = false ->
    lstrip r <> [] -> ~ In LF (firstn (indent_width r) r) ->
    contains (py "\n>>>>>>>") r = false ->
    contains (py "```") s = false -> contains (py "```") r = false ->
    contains (py "```") post = false ->
    parse_search_replace_response
      (py "<<<<<<< SEARCH\n" ++ s ++ py "\n=======\n" ++ r
         ++ py "\n>>>>>>> REPLACE" ++ post)
    = {| search_text := s; replace_text := r |}
        :: parse_search_replace_response post.
Proof.
  intros s r post Hs1 Hs2 Hs3 Hr1 Hr2 Hr3 Fs Fr Fpost.
  unfold parse_search_replace_response.
  rewrite (sub_fence_identity _ (edit_block_fence_free s r post Fs Fr Fpost)).
  rewrite (sub_fence_identity _ Fpost).
  rewrite (re_finditer_edit_block s r post Hs1 Hs2 Hs3 Hr1 Hr2 Hr3).
  reflexivity.
Qed.

Lemma edit_block_round_trip_witness :
  parse_search_replace_response
    (py "<<<<<<< SEARCH\n" ++ py "    assert(y > x);" ++ py "\n=======\n"
       ++ py "    assert(y > x) by {\n        assert(x > 0);\n    }"
       ++ py "\n>>>>>>> REPLACE" ++ py "\nDone.")
  = {| search_text := py "    assert(y > x);";
       replace_text := py "    assert(y > x) by {\n        assert(x > 0);\n    }" |}
      :: parse_search_replace_response (py "\nDone.").
Proof.
  apply (edit_block_round_trip
           (py "    assert(y > x);")
           (py "    assert(y > x) by {\n        assert(x > 0);\n    }")
           (py "\nDone."));
    try (vm_compute; reflexivity);
    try (vm_compute; discriminate);
    try (vm_compute; intros H; repeat (destruct H as [H | H]; [discriminate H|]); exact H).
Defined.

(** ** Round trip of a fenced edit block *)

Lemma re_finditer_block_skip_newline (x : str) :
  re_finditer block_re (py "\n" ++ x) = re_finditer block_re x.
Proof.
  eval_py. cbn [app]. unfold re_finditer. rewrite scan_keep; [reflexivity|].
  unfold block_re. cbn [seqs]. apply run_seq_nil, run_lit_none.
  eval_py. reflexivity.
Qed.

Lemma open_fence_consumed (tag x : str) :
  In tag [py "rust"; py "verus"; py "python"; []] ->
  lstrip (drop_tag (tag ++ py "\n" ++ py "<<<<<<< SEARCH\n" ++ x))
  = py "<<<<<<< SEARCH\n" ++ x.
Proof.
  intros [<- | [<- | [<- | [<- | []]]]]; unfold drop_tag; eval_py; reflexivity.
Qed.

Lemma parse_fenced_edit_block :
  forall (tag s r post : str),
    In tag [py "rust"; py "verus"; py "python"; []] ->
    lstrip s <> [] -> ~ In LF (firstn (indent_width s) s) ->
    contains (py "\n=======") s = false ->
    lstrip r <> [] -> ~ In LF (firstn (indent_width r) r) ->
    contains (py "\n>>>>>>>") r = false ->
    contains (py "```") s = false -> contains (py "```") r = false ->
    parse_search_replace_response
      (py "```" ++ tag ++ py "\n"
         ++ py "<<<<<<< SEARCH\n" ++ s ++ py "\n=======\n" ++ r
         ++ py "\n>>>>>>> REPLACE" ++ py "\n```" ++ post)
    = {| search_text := s; replace_text := r |}
        :: parse_search_replace_response (lstrip (drop_tag post)).
Proof.
  intros tag s r post Htag Hs1 Hs2 Hs3 Hr1 Hr2 Hr3 Fs Fr.
  unfold parse_search_replace_response.
  rewrite sub_fence_hit, (open_fence_consumed _ _ Htag).
  set (B := py "<<<<<<< SEARCH\n" ++ s ++ py "\n=======\n" ++ r
              ++ py "\n>>>>>>> REPLACE" ++ py "\n").
  assert (HB : contains (py "```") B = false).
  { apply edit_block_fence_free; [exact Fs | exact Fr | vm_compute; reflexivity]. }
  assert (Hlast : last B BACKTICK <> BACKTICK).
  { unfold B. rewrite !app_assoc. rewrite <- app_assoc.
    change (py "\n>>>>>>> REPLACE" ++ py "\n")
      with ((py "\n>>>>>>> REPLACE") ++ [LF]).
    rewrite app_assoc, last_last. discriminate. }
  replace (py "<<<<<<< SEARCH\n" ++ s ++ py "\n=======\n" ++ r
             ++ py "\n>>>>>>> REPLACE" ++ py "\n```" ++ post)
    with (B ++ py "```" ++ post)
    by (unfold B; rewrite <- !app_assoc; reflexivity).
  rewrite sub_fence_first.
  - unfold B. rewrite <- !app_assoc.
    rewrite (re_finditer_edit_block s r _ Hs1 Hs2 Hs3 Hr1 Hr2 Hr3).
    rewrite re_finditer_block_skip_newline. reflexivity.
  - split.
    + split; [rewrite !length_app; lia|].
      rewrite skipn_app_exact by reflexivity. apply startswith_app.
    + intros i Hi. apply occurs_at_dec; [rewrite length_app; lia|].
      change (py "```") with (repeat BACKTICK 3).
      apply no_straddling_occurrence; auto.
Qed.

(** [X14] The same block wrapped in a fence, as the format instructions ask
    ("Use ```rust``` to wrap the code"): the opening fence with its tag and
    the closing fence are deleted, the block is read back as the operation it
    was written from, and parsing goes on with the text after the closing
    fence, less a tag and the white space at its start.  Nothing is asked of
    that text, so the statement applies block after block to a response made
    of several fenced blocks. *)
Theorem fenced_edit_block_round_trip :
  forall (tag s r post : str),
    In tag [py "rust"; py "verus"; py "python"; []] ->
    lstrip s <> [] -> ~ In LF (firstn (indent_width s) s) ->
    contains (py "\n=======") s = false ->
    lstrip r <> [] -> ~ In LF (firstn (indent_width r) r) ->
    contains (py "\n>>>>>>>") r = false ->
    contains (py "```") s = false -> contains (py "```") r = false ->
    parse_search_replace_response
      (py "```" ++ tag ++ py "\n"
         ++ py "<<<<<<< SEARCH\n" ++ s ++ py "\n=======\n" ++ r
         ++ py "\n>>>>>>> REPLACE" ++ py "\n```" ++ post)
    = {| search_text := s; replace_text := r |}
        :: parse_search_replace_response (lstrip (drop_tag post)).
Proof. exact parse_fenced_edit_block. Qed.

Lemma fenced_edit_block_round_trip_witness :
  parse_search_replace_response
    (py "```" ++ py "rust" ++ py "\n"
       ++ py "<<<<<<< SEARCH\n" ++ py "    let v = Vec::new();"
       ++ py "\n=======\n"
       ++ py "    let v = Vec::new();\n    proof {\n        assert(v@.len() == 0);\n    }"
       ++ py "\n>>>>>>> REPLACE" ++ py "\n```" ++ py "\n")
  = {| search_text := py "    let v = Vec::new();";
       replace_text :=
         py "    let v = Vec::new();\n    proof {\n        assert(v@.len() == 0);\n    }" |}
      :: parse_search_replace_response (lstrip (drop_tag (py "\n"))).
Proof.
  apply (fenced_edit_block_round_trip
           (py "rust")
           (py "    let v = Vec::new();")
           (py "    let v = Vec::new();\n    proof {\n        assert(v@.len() == 0);\n    }")
           (py "\n"));
    try (vm_compute; reflexivity);
    try (vm_compute; discriminate);
    try (vm_compute; intros H; repeat (destruct H as [H | H]; [discriminate H|]); exact H).
  left. reflexivity.
Defined.

(** ** A replace section left out

    Rule 6 of the format instructions reads "To delete code, use empty
    REPLACE section".  Written with the closing line right under the dividing
    line, such a block is not an edit block for the parser: the newline that
    ends the dividing line is the one the pattern needs before the closing
    marker. *)

Lemma contains_after_other (c0 : char) (sub a x : str) :
  ~ In c0 a -> contains (c0 :: sub) x = false ->
  contains (c0 :: sub) (a ++ x) = false.
Proof.
  intros Ha Hx. induction a as [|d a IH]; [exact Hx|].
  cbn [app]. rewrite contains_cons. cbn [startswith].
  destruct (N.eqb_spec c0 d) as [-> | _]; [exfalso; apply Ha; now left|].
  cbn [andb orb]. apply IH. intros H. apply Ha. now right.
Qed.

Lemma skipn_to_suffix {A : Type} (p : nat) (l a b : list A) :
  skipn p l = a ++ b -> skipn (p + length a) l = b.
Proof.
  intros H. rewrite <- skipn_skipn_add, H. now apply skipn_app_exact.
Qed.

Lemma compact_block_unmatched (s post : str) (p : nat) :
  contains (py "\n=======") s = false ->
  contains (py "\n>>>>>>>") post = false ->
  run block_re
      (skipn p (py "<<<<<<< SEARCH\n" ++ s
                  ++ py "\n=======\n>>>>>>> REPLACE" ++ post)) = [].
Proof.
  intros Hs Hpost.
  set (T := py "<<<<<<< SEARCH\n" ++ s ++ py "\n=======\n>>>>>>> REPLACE" ++ post).
  destruct (run block_re (skipn p T)) as [|t ts] eqn:E; [reflexivity|].
  exfalso.
  destruct (block_re_inv (skipn p T) t) as
    (ws1 & ws2 & ws3 & ws4 & g1 & g2 & _ & Heq & _); [rewrite E; now left|].
  set (A1 := py "<<<<<<<" ++ ws1 ++ py "SEARCH" ++ ws2 ++ py "\n" ++ g1) in *.
  set (A2 := A1 ++ py "\n=======" ++ ws3 ++ py "\n" ++ g2).
  assert (H1 : skipn (p + length A1) T
               = py "\n=======" ++ ws3 ++ py "\n" ++ g2 ++ py "\n>>>>>>>"
                   ++ ws4 ++ py "REPLACE" ++ snd t).
  { apply skipn_to_suffix. rewrite Heq. unfold A1.
    rewrite <- !app_assoc. reflexivity. }
  assert (H2 : skipn (p + length A2) T
               = py "\n>>>>>>>" ++ ws4 ++ py "REPLACE" ++ snd t).
  { apply skipn_to_suffix. rewrite Heq. unfold A2, A1.
    rewrite <- !app_assoc. reflexivity. }
  assert (L1 : 15 <= p + length A1).
  { unfold A1. rewrite !length_app. eval_py. cbn [length].
    destruct p as [|p]; [|lia].
    destruct ws1 as [|w ws1]; [|cbn [length]; lia].
    exfalso. cbn [skipn] in Heq. unfold T in Heq. eval_py.
    cbn [app] in Heq. discriminate Heq. }
  assert (L2 : length A2 = length A1 + 8 + length ws3 + 1 + length g2).
  { unfold A2. rewrite !length_app. eval_py. cbn [length]. lia. }
  (* the closing marker is found at or before the end of the dividing line *)
  assert (Q : p + length A2 <= 15 + length s + 8).
  { destruct (le_lt_dec (p + length A2) (15 + length s + 8)) as [|Hq]; [assumption|].
    exfalso.
    assert (HT : T = (py "<<<<<<< SEARCH\n" ++ s ++ py "\n=======\n")
                       ++ py ">>>>>>> REPLACE" ++ post).
    { unfold T. eval_py. rewrite <- !app_assoc. reflexivity. }
    assert (Hlen : length (py "<<<<<<< SEARCH\n" ++ s ++ py "\n=======\n")
                   = 15 + length s + 9).
    { rewrite !length_app. eval_py. cbn [length]. lia. }
    rewrite HT, skipn_app, skipn_all2, Hlen in H2 by lia. cbn [app] in H2.
    assert (Hno : contains (py "\n>>>>>>>") (py ">>>>>>> REPLACE" ++ post) = false).
    { eval_py. apply contains_after_other; [|exact Hpost].
      cbn [In]. intros Hin.
      repeat (destruct Hin as [Hin | Hin]; [discriminate Hin|]). exact Hin. }
    set (q := p + length A2 - (15 + length s + 9)) in *.
    destruct (le_lt_dec q (length (py ">>>>>>> REPLACE" ++ post))) as [Hq' | Hq'].
    - pose proof (contains_false_nowhere _ _ q Hno Hq') as Hf.
      rewrite H2, startswith_app in Hf. discriminate.
    - rewrite skipn_all2 in H2 by lia. eval_py. discriminate H2. }
  (* so the dividing marker would have to stand inside the search section *)
  assert (He : p + length A1 < 15 + length s) by lia.
  assert (HT : T = py "<<<<<<< SEARCH\n"
                     ++ (s ++ py "\n=======" ++ py "\n>>>>>>> REPLACE" ++ post)).
  { unfold T. eval_py. reflexivity. }
  rewrite HT, skipn_app, skipn_all2 in H1 by (eval_py; cbn [length]; lia).
  cbn [app] in H1.
  replace (length (py "<<<<<<< SEARCH\n")) with 15 in H1 by (eval_py; reflexivity).
  assert (Hf : startswith (py "\n=======")
                 (skipn (p + length A1 - 15)
                    (s ++ py "\n=======" ++ py "\n>>>>>>> REPLACE" ++ post))
               = false).
  { eval_py. apply no_earlier_occurrence; [|exact Hs | lia].
    cbn [In]. intros Hin.
    repeat (destruct Hin as [Hin | Hin]; [discriminate Hin|]). exact Hin. }
  rewrite H1, startswith_app in Hf. discriminate.
Qed.

Lemma strip_between (x : str) (c d : char) :
  isspace c = false -> isspace d = false ->
  strip (c :: x ++ [d; LF]) = c :: x ++ [d].
Proof.
  intros Hc Hd. unfold strip, rstrip.
  change (c :: x ++ [d; LF]) with ((c :: x) ++ [d] ++ [LF]).
  rewrite app_assoc, rev_unit. cbn [lstrip].
  change (isspace LF) with true. cbv iota.
  rewrite rev_unit. cbn [lstrip]. rewrite Hd.
  rewrite <- (rev_unit (c :: x) d), rev_involutive.
  cbn [app lstrip]. now rewrite Hc.
Qed.

(** [X15] A deletion written with the closing line right under the dividing
    line yields no operation.  Unfenced, the response is turned down with
    "No SEARCH/REPLACE operations or code blocks found" and the code is
    returned as it was. *)
Theorem compact_deletion_not_parsed :
  forall (original_code s post : str),
    contains (py "\n=======") s = false ->
    contains (py "\n>>>>>>>") post = false ->
    contains (py "```") s = false -> contains (py "```") post = false ->
    parse_search_replace_response
      (py "<<<<<<< SEARCH\n" ++ s ++ py "\n=======\n>>>>>>> REPLACE" ++ post)
    = [] /\
    apply_search_replace_format original_code
      (py "<<<<<<< SEARCH\n" ++ s ++ py "\n=======\n>>>>>>> REPLACE" ++ post)
    = (original_code, false,
       py "No SEARCH/REPLACE operations or code blocks found").
Proof.
  intros original_code s post Hs Hpost Fs Fpost.
  set (T := py "<<<<<<< SEARCH\n" ++ s ++ py "\n=======\n>>>>>>> REPLACE" ++ post).
  assert (FT : contains (py "```") T = false).
  { unfold T. eval_py. change [96; 96; 96]%N with (repeat 96%N 3) in *.
    apply contains_app_after; [reflexivity | | vm_compute; discriminate].
    cbn [app]. apply contains_app_before; [exact Fs | | discriminate].
    change (10%N :: 61%N :: ?x)
      with ([10; 61; 61; 61; 61; 61; 61; 61; 10; 62; 62; 62; 62; 62; 62; 62;
             32; 82; 69; 80; 76; 65; 67; 69]%N ++ post).
    apply contains_app_after; [reflexivity | exact Fpost | vm_compute; discriminate]. }
  assert (Hp : parse_search_replace_response T = []).
  { unfold parse_search_replace_response.
    rewrite (sub_fence_identity _ FT). unfold re_finditer.
    rewrite scan_all_keep; [now rewrite no_hits|].
    intros p _. now apply compact_block_unmatched. }
  split; [exact Hp|].
  unfold apply_search_replace_format, _apply_search_replace_format, try_except,
    try_body.
  rewrite Hp. unfold re_findall, re_finditer.
  rewrite scan_all_keep; [now rewrite no_hits|].
  intros p Hlen. apply code_block_re_none. now apply contains_false_nowhere.
Qed.

Lemma compact_deletion_not_parsed_witness :
  parse_search_replace_response
    (py "<<<<<<< SEARCH\n" ++ py "    assert(false);"
       ++ py "\n=======\n>>>>>>> REPLACE" ++ py "\n")
  = [] /\
  apply_search_replace_format (py "fn f() {\n    assert(false);\n}\n")
    (py "<<<<<<< SEARCH\n" ++ py "    assert(false);"
       ++ py "\n=======\n>>>>>>> REPLACE" ++ py "\n")
  = (py "fn f() {\n    assert(false);\n}\n", false,
     py "No SEARCH/REPLACE operations or code blocks found").
Proof.
  apply (compact_deletion_not_parsed
           (py "fn f() {\n    assert(false);\n}\n")
           (py "    assert(false);") (py "\n"));
    vm_compute; reflexivity.
Defined.

(** [X16] The same deletion inside a fence, as rule 8 asks.  The parser finds
    no operation, the fallback takes the content of the fence for the new
    program, and the orchestrator returns the text of the edit block itself
    as the modified code, with [success = true]. *)
Theorem fenced_compact_deletion_returns_block :
  forall (original_code tag s : str),
    tag = [] \/ tag = py "rust" \/ tag = py "verus" ->
    contains (py "\n=======") s = false ->
    contains (py "```") s = false ->
    apply_search_replace_format original_code
      (py "```" ++ tag ++ py "\n"
         ++ py "<<<<<<< SEARCH\n" ++ s ++ py "\n=======\n>>>>>>> REPLACE"
         ++ py "\n```")
    = (py "<<<<<<< SEARCH\n" ++ s ++ py "\n=======\n>>>>>>> REPLACE",
       true, py "Fallback to code block extraction").
Proof.
  intros original_code tag s Htag Hs Fs.
  set (B := py "<<<<<<< SEARCH\n" ++ s ++ py "\n=======\n>>>>>>> REPLACE"
              ++ py "\n").
  assert (HB : contains (py "```") B = false).
  { unfold B. eval_py. change [96; 96; 96]%N with (repeat 96%N 3) in *.
    apply contains_app_after; [reflexivity | | vm_compute; discriminate].
    cbn [app]. apply contains_app_before; [exact Fs | | discriminate].
    vm_compute. reflexivity. }
  assert (Hlast : last B BACKTICK <> BACKTICK).
  { unfold B. rewrite !app_assoc. rewrite <- app_assoc.
    change (py "\n=======\n>>>>>>> REPLACE" ++ py "\n")
      with ((py "\n=======\n>>>>>>> REPLACE") ++ [LF]).
    rewrite app_assoc, last_last. discriminate. }
  assert (Hfirst : first_occurrence (py "```") (B ++ py "```" ++ []) (length B)).
  { split.
    - split; [rewrite !length_app; lia|].
      rewrite skipn_app_exact by reflexivity. apply startswith_app.
    - intros i Hi. apply occurs_at_dec; [rewrite length_app; lia|].
      change (py "```") with (repeat BACKTICK 3).
      apply no_straddling_occurrence; auto. }
  assert (Hshape : py "```" ++ tag ++ py "\n"
                     ++ py "<<<<<<< SEARCH\n" ++ s
                     ++ py "\n=======\n>>>>>>> REPLACE" ++ py "\n```"
                   = py "```" ++ tag ++ [] ++ py "\n" ++ B ++ py "```" ++ []).
  { unfold B. cbn [app]. rewrite <- !app_assoc. reflexivity. }
  assert (Hp : parse_search_replace_response
                 (py "```" ++ tag ++ [] ++ py "\n" ++ B ++ py "```" ++ []) = []).
  { unfold parse_search_replace_response. cbn [app]. rewrite sub_fence_hit.
    unfold B at 1. rewrite <- !app_assoc. rewrite open_fence_consumed
      by (destruct Htag as [-> | [-> | ->]]; cbn [In]; auto).
    replace (py "<<<<<<< SEARCH\n" ++ s ++ py "\n=======\n>>>>>>> REPLACE"
               ++ py "\n" ++ py "```" ++ [])
      with (B ++ py "```" ++ [])
      by (unfold B; rewrite <- !app_assoc; reflexivity).
    rewrite sub_fence_first by exact Hfirst.
    change (re_sub_empty fence_re (lstrip (drop_tag []))) with (@nil char).
    rewrite app_nil_r. unfold re_finditer.
    rewrite scan_all_keep; [now rewrite no_hits|].
    intros p _. unfold B. apply compact_block_unmatched; [exact Hs|].
    vm_compute. reflexivity. }
  destruct (code_block_re_match tag [] B [] Htag eq_refl Hfirst)
    as (t & Ht & g & rest & -> & Hg).
  destruct (re_findall_first code_block_re []
              (py "```" ++ tag ++ [] ++ py "\n" ++ B ++ py "```" ++ [])
              g rest) as [later Hfind]; [|exact Ht|].
  { intros p Hlt. cbn [length] in Hlt. lia. }
  cbn [app] in Hfind.
  unfold apply_search_replace_format, _apply_search_replace_format, try_except,
    try_body.
  rewrite Hshape, Hp. cbn [app]. rewrite Hfind, Hg.
  f_equal. f_equal.
  assert (Hb : B = 60%N :: (py "<<<<<< SEARCH\n" ++ s
                             ++ py "\n=======\n>>>>>>> REPLAC") ++ [69%N; LF]).
  { unfold B, LF. eval_py. cbn [app]. rewrite <- !app_assoc. reflexivity. }
  rewrite Hb, strip_between by reflexivity.
  eval_py. cbn [app]. rewrite <- !app_assoc. reflexivity.
Qed.

Lemma fenced_compact_deletion_returns_block_witness :
  apply_search_replace_format (py "fn f() {\n    assert(false);\n}\n")
    (py "```" ++ py "rust" ++ py "\n"
       ++ py "<<<<<<< SEARCH\n" ++ py "    assert(false);"
       ++ py "\n=======\n>>>>>>> REPLACE" ++ py "\n```")
  = (py "<<<<<<< SEARCH\n" ++ py "    assert(false);"
       ++ py "\n=======\n>>>>>>> REPLACE",
     true, py "Fallback to code block extraction").
Proof.
  apply (fenced_compact_deletion_returns_block
           (py "fn f() {\n    assert(false);\n}\n")
           (py "rust") (py "    assert(false);"));
    [right; left; reflexivity | vm_compute; reflexivity | vm_compute; reflexivity].
Defined.

(** ** From a fenced block to the modified code *)

(** [X17] End to end: a response that is one fenced edit block whose search
    section occurs in the program makes the orchestrator return the program
    with the first occurrence of the search section replaced by the replace
    section, with [success = true] and the message "Applied 1 SEARCH/REPLACE
    operations". *)
Theorem fenced_edit_applied :
  forall (tag s r before after : str),
    In tag [py "rust"; py "verus"; py "python"; []] ->
    lstrip s <> [] -> ~ In LF (firstn (indent_width s) s) ->
    contains (py "\n=======") s = false ->
    lstrip r <> [] -> ~ In LF (firstn (indent_width r) r) ->
    contains (py "\n>>>>>>>") r = false ->
    contains (py "```") s = false -> contains (py "```") r = false ->
    first_occurrence s (before ++ s ++ after) (length before) ->
    apply_search_replace_format (before ++ s ++ after)
      (py "```" ++ tag ++ py "\n"
         ++ py "<<<<<<< SEARCH\n" ++ s ++ py "\n=======\n" ++ r
         ++ py "\n>>>>>>> REPLACE" ++ py "\n```")
    = (before ++ r ++ after, true, py "Applied 1 SEARCH/REPLACE operations").
Proof.
  intros tag s r before after Htag Hs1 Hs2 Hs3 Hr1 Hr2 Hr3 Fs Fr Hocc.
  pose proof (parse_fenced_edit_block tag s r [] Htag Hs1 Hs2 Hs3 Hr1 Hr2 Hr3 Fs Fr)
    as Hp.
  change (parse_search_replace_response (lstrip (drop_tag [])))
    with (@nil SearchReplaceOperation) in Hp.
  rewrite app_nil_r in Hp.
  unfold apply_search_replace_format.
  rewrite (orchestrator_applied _ _ (before ++ r ++ after) _ _ Hp).
  - reflexivity.
  - apply validate_from_all. constructor; [|constructor].
    left. exists (length before). apply Hocc.
  - cbn [apply_search_replace_operations].
    rewrite (_apply_single_operation_exact
               _ {| search_text := s; replace_text := r |} _ Hocc). cbn [bind search_text replace_text].
    rewrite firstn_app_exact by reflexivity.
    rewrite <- skipn_skipn_add, skipn_app_exact by reflexivity.
    rewrite skipn_app_exact by reflexivity. reflexivity.
Qed.

Lemma fenced_edit_applied_witness :
  apply_search_replace_format
    (py "fn f() {\n" ++ py "    assert(y > x);" ++ py "\n}\n")
    (py "```" ++ py "rust" ++ py "\n"
       ++ py "<<<<<<< SEARCH\n" ++ py "    assert(y > x);" ++ py "\n=======\n"
       ++ py "    assert(y > x) by {\n        assert(x > 0);\n    }"
       ++ py "\n>>>>>>> REPLACE" ++ py "\n```")
  = (py "fn f() {\n"
       ++ py "    assert(y > x) by {\n        assert(x > 0);\n    }"
       ++ py "\n}\n",
     true, py "Applied 1 SEARCH/REPLACE operations").
Proof.
  apply (fenced_edit_applied
           (py "rust") (py "    assert(y > x);")
           (py "    assert(y > x) by {\n        assert(x > 0);\n    }")
           (py "fn f() {\n") (py "\n}\n"));
    try (vm_compute; reflexivity);
    try (vm_compute; discriminate);
    try (vm_compute; intros H; repeat (destruct H as [H | H]; [discriminate H|]); exact H).
  - left. reflexivity.
  - apply contains_first_at. vm_compute. reflexivity.
Defined.

(** * The callers in [llm_utils.py] *)

Lemma str_of_nat_inj (i j : nat) : str_of_nat i = str_of_nat j -> i = j.
Proof.
  unfold str_of_nat. intros H.
  assert (Hm : forall a b : list ascii,
             map N_of_ascii a = map N_of_ascii b -> a = b).
  { induction a as [|x a IH]; intros [|y b] E; try discriminate; [reflexivity|].
    cbn [map] in E. injection E as Hx Hab. f_equal; [|now apply IH].
    rewrite <- (ascii_N_embedding x), <- (ascii_N_embedding y). now f_equal. }
  apply Hm in H.
  apply (f_equal string_of_list_ascii) in H.
  rewrite !string_of_list_ascii_of_string in H.
  apply (f_equal NilEmpty.uint_of_string) in H.
  rewrite !NilEmpty.usu in H. injection H as H.
  apply (f_equal Nat.of_uint) in H. now rewrite !DecimalNat.Unsigned.of_to in H.
Qed.

Lemma NoDup_map_injective {A B : Type} (f : A -> B) (l : list A) :
  (forall a b, f a = f b -> a = b) -> NoDup l -> NoDup (map f l).
Proof.
  intros Hf H. induction H as [|x l Hx _ IH]; cbn [map]; constructor; [|exact IH].
  intros Hin. apply in_map_iff in Hin as (y & Hy & Hin).
  apply Hf in Hy. now subst y.
Qed.

Section LlmUtilsProperties.

Variables Example Float : Type.

Variable infer_llm :
  str -> str -> list Example -> str -> str -> Z -> Z -> Float -> list str.

Variable time_stamp : str.

Lemma process_responses_codes (original_code : str) (responses : list str) :
  forall (i : nat) (modified_codes : list str)
         (trace : list (event Example Float)),
    fst (process_responses Example Float time_stamp original_code i responses
           modified_codes trace)
    = modified_codes ++ flat_map (kept original_code) responses.
Proof.
  induction responses as [|response responses IH]; intros i modified_codes trace.
  - cbn. now rewrite app_nil_r.
  - cbn [process_responses flat_map].
    destruct (apply_search_replace_format original_code response)
      as [[modified_code success] message] eqn:E.
    assert (Hk : kept original_code response
                 = if success then [modified_code] else [])
      by (unfold kept; now rewrite E).
    rewrite Hk. destruct success; rewrite IH.
    + now rewrite <- app_assoc.
    + reflexivity.
Qed.

Lemma process_responses_names (original_code : str) (responses : list str) :
  forall (i : nat) (modified_codes : list str)
         (trace : list (event Example Float)),
    written_names
      (snd (process_responses Example Float time_stamp original_code i
              responses modified_codes trace))
    = written_names trace
      ++ map (fun k => time_stamp ++ py "-output-" ++ str_of_nat k ++ py ".txt")
             (seq i (length responses)).
Proof.
  induction responses as [|response responses IH]; intros i modified_codes trace.
  - cbn. now rewrite app_nil_r.
  - cbn [process_responses length seq map].
    destruct (apply_search_replace_format original_code response)
      as [[modified_code success] message].
    destruct success; rewrite IH; unfold written_names;
      rewrite !flat_map_app; cbn [flat_map app];
      rewrite <- !app_assoc; reflexivity.
Qed.

Lemma log_responses_names (responses : list str) :
  forall (i : nat) (trace : list (event Example Float)),
    written_names (log_responses Example Float time_stamp i responses trace)
    = written_names trace
      ++ map (fun k => time_stamp ++ py "-output-" ++ str_of_nat k ++ py ".txt")
             (seq i (length responses)).
Proof.
  induction responses as [|response responses IH]; intros i trace.
  - cbn. now rewrite app_nil_r.
  - cbn [log_responses length seq map]. rewrite IH. unfold written_names.
    rewrite !flat_map_app. cbn [flat_map app].
    rewrite <- !app_assoc. reflexivity.
Qed.

Lemma output_names_distinct (n : nat) :
  NoDup ((time_stamp ++ py "-input.txt")
           :: map (fun k => time_stamp ++ py "-output-" ++ str_of_nat k
                              ++ py ".txt")
                  (seq 0 n)).
Proof.
  constructor.
  - intros H. apply in_map_iff in H as (k & Hk & _).
    apply app_inv_head in Hk. eval_py. discriminate Hk.
  - apply NoDup_map_injective; [|apply seq_NoDup].
    intros a b H. apply app_inv_head, app_inv_head, app_inv_tail in H.
    now apply str_of_nat_inj.
Qed.

(** [X18] [call_llm_with_search_replace_format] returns, in the order of the
    responses, the modified code of every response that the orchestrator
    applied with success, and nothing else: a text is returned exactly when
    some response of the model produced it with [success = true], and no more
    texts are returned than responses were received. *)
Theorem successful_responses_are_returned :
  forall (engine instruction query system original_code : str)
         (examples : option (list Example)) (answer_num max_tokens : Z)
         (temp : Float),
    let responses :=
      infer_llm engine instruction
                (match examples with None => [] | Some e => e end)
                query (system ++ py "\n\n" ++ get_format_instructions)
                answer_num max_tokens temp in
    let returned :=
      fst (call_llm_with_search_replace_format Example Float infer_llm
             time_stamp engine instruction query system original_code
             examples answer_num max_tokens temp) in
    returned = flat_map (kept original_code) responses /\
    (forall code, In code returned <->
                  exists response message,
                    In response responses /\
                    apply_search_replace_format original_code response
                    = (code, true, message)) /\
    length returned <= length responses.
Proof.
  intros engine instruction query system original_code examples
         answer_num max_tokens temp responses returned.
  assert (H : returned = flat_map (kept original_code) responses).
  { unfold returned, call_llm_with_search_replace_format.
    now rewrite process_responses_codes. }
  split; [exact H|]. rewrite H. clear H returned. split.
  - intros code. rewrite in_flat_map. unfold kept. split.
    + intros (response & Hin & Hk).
      destruct (apply_search_replace_format original_code response)
        as [[modified_code success] message] eqn:E.
      destruct success; [|destruct Hk].
      destruct Hk as [<- | []]. exists response, message. now split.
    + intros (response & message & Hin & Ha). exists response.
      split; [exact Hin|]. rewrite Ha. now left.
  - generalize responses. intros l. induction l as [|r l IH]; [reflexivity|].
    cbn [flat_map length]. rewrite length_app.
    assert (Hk : length (kept original_code r) <= 1).
    { unfold kept.
      destruct (apply_search_replace_format original_code r) as [[c b] m].
      destruct b; cbn [length]; lia. }
    lia.
Qed.

(** [X20] In one call, each of the two functions writes the prompt to
    [<time_stamp>-input.txt] and the [i]-th response to
    [<time_stamp>-output-<i>.txt], in that order, and no two of these names
    are equal: no file of a call overwrites another file of the call. *)
Theorem files_of_a_call :
  forall (engine instruction query system original_code : str)
         (examples : option (list Example)) (answer_num max_tokens : Z)
         (temp : Float),
    let output_names (responses : list str) :=
      (time_stamp ++ py "-input.txt")
        :: map (fun i => time_stamp ++ py "-output-" ++ str_of_nat i
                           ++ py ".txt")
               (seq 0 (length responses)) in
    let edited :=
      call_llm_with_search_replace_format Example Float infer_llm time_stamp
        engine instruction query system original_code examples
        answer_num max_tokens temp in
    let full :=
      call_llm_with_full_return Example Float infer_llm time_stamp
        engine instruction query system answer_num max_tokens temp in
    written_names (snd edited)
    = output_names
        (infer_llm engine instruction
                   (match examples with None => [] | Some e => e end)
                   query (system ++ py "\n\n" ++ get_format_instructions)
                   answer_num max_tokens temp) /\
    written_names (snd full) = output_names (fst full) /\
    NoDup (written_names (snd edited)) /\
    NoDup (written_names (snd full)).
Proof.
  intros engine instruction query system original_code examples
         answer_num max_tokens temp output_names edited full.
  assert (He : written_names (snd edited)
               = output_names
                   (infer_llm engine instruction
                      (match examples with None => [] | Some e => e end)
                      query (system ++ py "\n\n" ++ get_format_instructions)
                      answer_num max_tokens temp)).
  { unfold edited, call_llm_with_search_replace_format.
    rewrite process_responses_names. reflexivity. }
  assert (Hf : written_names (snd full) = output_names (fst full)).
  { unfold full, call_llm_with_full_return. cbn [fst snd].
    rewrite log_responses_names. reflexivity. }
  split; [exact He|]. split; [exact Hf|].
  rewrite He, Hf. split; apply output_names_distinct.
Qed.

End LlmUtilsProperties.

Section LlmUtilsOutcomes.

Variables Example Float : Type.

Variable infer_llm :
  str -> str -> list Example -> str -> str -> Z -> Z -> Float -> list str.

Variable time_stamp : str.

Lemma process_responses_records (original_code : str) (responses : list str) :
  forall (i : nat) (modified_codes : list str)
         (trace : list (event Example Float)),
    filter (fun e => match e with
                     | logger_info _ | logger_warning _ => true
                     | _ => false
                     end)
           (snd (process_responses Example Float time_stamp original_code i
                   responses modified_codes trace))
    = filter (fun e => match e with
                       | logger_info _ | logger_warning _ => true
                       | _ => false
                       end) trace
      ++ map (fun response =>
                let '(_, success, message) :=
                  apply_search_replace_format original_code response in
                if success
                then logger_info
                       (py "Successfully applied SEARCH/REPLACE format: "
                          ++ message)
                else logger_warning
                       (py "Failed to apply SEARCH/REPLACE format: "
                          ++ message))
             responses.
Proof.
  induction responses as [|response responses IH]; intros i modified_codes trace.
  - cbn. now rewrite app_nil_r.
  - cbn [process_responses map].
    destruct (apply_search_replace_format original_code response)
      as [[modified_code success] message].
    destruct success; rewrite IH, !filter_app; cbn [filter app];
      rewrite <- !app_assoc; reflexivity.
Qed.

(** [X19] Called without [original_code] (the default is the empty string),
    [call_llm_with_search_replace_format] cannot apply an edit: when every
    response of the model parses to operations the first of which has a
    search section that is not empty, nothing is returned. *)
Theorem edits_need_original_code :
  forall (engine instruction query system : str)
         (examples : option (list Example)) (answer_num max_tokens : Z)
         (temp : Float),
    (forall response,
        In response
           (infer_llm engine instruction
                      (match examples with None => [] | Some e => e end)
                      query (system ++ py "\n\n" ++ get_format_instructions)
                      answer_num max_tokens temp) ->
        exists op ops,
          parse_search_replace_response response = op :: ops /\
          search_text op <> []) ->
    fst (call_llm_with_search_replace_format Example Float infer_llm
           time_stamp engine instruction query system [] examples
           answer_num max_tokens temp) = [].
Proof.
  intros engine instruction query system examples answer_num max_tokens temp H.
  unfold call_llm_with_search_replace_format.
  rewrite process_responses_codes. cbn [app].
  revert H. generalize (infer_llm engine instruction
                          (match examples with None => [] | Some e => e end)
                          query (system ++ py "\n\n" ++ get_format_instructions)
                          answer_num max_tokens temp).
  intros responses H. induction responses as [|response responses IH];
    [reflexivity|].
  cbn [flat_map]. rewrite IH by (intros r Hr; apply H; now right).
  destruct (H response (or_introl eq_refl)) as (op & ops & Hp & Hne).
  unfold kept, apply_search_replace_format.
  rewrite (orchestrator_invalid _ _ (not_found_message 0 op) _ _ Hp);
    [reflexivity|].
  unfold validate_operations. apply validate_from_rejects.
  now apply nothing_resolves_in_empty.
Qed.

(** [X21] Every response leaves exactly one record with the logger, in the
    order of the responses: an [info] record with the message of the outcome
    when the response was applied, a [warning] record with that message when
    it was discarded. *)
Theorem every_response_is_recorded :
  forall (engine instruction query system original_code : str)
         (examples : option (list Example)) (answer_num max_tokens : Z)
         (temp : Float),
    filter (fun e => match e with
                     | logger_info _ | logger_warning _ => true
                     | _ => false
                     end)
           (snd (call_llm_with_search_replace_format Example Float infer_llm
                   time_stamp engine instruction query system original_code
                   examples answer_num max_tokens temp))
    = map (fun response =>
             let '(_, success, message) :=
               apply_search_replace_format original_code response in
             if success
             then logger_info
                    (py "Successfully applied SEARCH/REPLACE format: "
                       ++ message)
             else logger_warning
                    (py "Failed to apply SEARCH/REPLACE format: " ++ message))
          (infer_llm engine instruction
                     (match examples with None => [] | Some e => e end)
                     query (system ++ py "\n\n" ++ get_format_instructions)
                     answer_num max_tokens temp).
Proof.
  intros engine instruction query system original_code examples
         answer_num max_tokens temp.
  unfold call_llm_with_search_replace_format.
  rewrite process_responses_records. reflexivity.
Qed.

End LlmUtilsOutcomes.

Lemma edits_need_original_code_witness :
  fst (call_llm_with_search_replace_format unit unit
         (fun _ _ _ _ _ _ _ _ =>
            [py "<<<<<<< SEARCH\nfoo\n=======\nbar\n>>>>>>> REPLACE"])
         (py "1700000000.5") (py "gpt-4") (py "Fix the proof.")
         (py "fn f() {}") (py "You are an expert.") [] None 1%Z 4096%Z tt)
  = [].
Proof.
  apply (edits_need_original_code unit unit
           (fun _ _ _ _ _ _ _ _ =>
              [py "<<<<<<< SEARCH\nfoo\n=======\nbar\n>>>>>>> REPLACE"])
           (py "1700000000.5") (py "gpt-4") (py "Fix the proof.")
           (py "fn f() {}") (py "You are an expert.") None 1%Z 4096%Z tt).
  intros response [<- | []].
  exists {| search_text := py "foo"; replace_text := py "bar" |}, [].
  split; [vm_compute; reflexivity | vm_compute; discriminate].
Defined.

(** * White space around the markers *)

Lemma ws_star_app (ws z : str) :
  forallb isspace ws = true -> exists shorter, ws_star (ws ++ z) = ws_star z ++ shorter.
Proof.
  induction ws as [|c ws IH]; intros H; [exists []; now rewrite app_nil_r|].
  cbn [forallb] in H. apply andb_true_iff in H as [Hc H].
  destruct (IH H) as [shorter E]. cbn [app ws_star]. rewrite Hc, E.
  exists (shorter ++ [c :: ws ++ z]). now rewrite app_assoc.
Qed.

(** Greedy white space in front of more white space: what is tried first is
    what is tried first without it. *)
Lemma first_match_ws_prefix (k0 : regex) (ws z : str) (t : thread) :
  forallb isspace ws = true ->
  first_match (Seq WsStar k0) z t ->
  first_match (Seq WsStar k0) (ws ++ z) t.
Proof.
  intros Hws [ts H]. unfold first_match. cbn [run] in *.
  destruct (ws_star_app ws z Hws) as [shorter ->].
  rewrite map_app, flat_map_app, H. cbn [app]. eexists. reflexivity.
Qed.

Lemma first_match_ws_lit (ws l x : str) (c : char) :
  forallb isspace ws = true -> isspace c = false ->
  first_match (Seq WsStar (Lit (c :: l))) (ws ++ (c :: l) ++ x) ([], x).
Proof.
  intros Hws Hc.
  apply (first_match_seq _ _ _ ((c :: l) ++ x) _ [] []); [|apply first_match_lit].
  replace ((c :: l) ++ x) with (lstrip (ws ++ (c :: l) ++ x)) at 2;
    [apply first_match_ws|].
  rewrite lstrip_app_spaces by exact Hws. cbn [app lstrip]. now rewrite Hc.
Qed.

Lemma block_re_match_spaced (w0 w1 w2 w3 s r post : str) :
  forallb isspace w0 = true -> forallb isspace w1 = true ->
  forallb isspace w2 = true -> forallb isspace w3 = true ->
  lstrip s <> [] -> ~ In LF (firstn (indent_width s) s) ->
  contains (py "\n=======") s = false ->
  lstrip r <> [] -> ~ In LF (firstn (indent_width r) r) ->
  contains (py "\n>>>>>>>") r = false ->
  first_match block_re
    (py "<<<<<<<" ++ w0 ++ py "SEARCH" ++ w1 ++ py "\n" ++ s
       ++ py "\n=======" ++ w2 ++ py "\n" ++ r
       ++ py "\n>>>>>>>" ++ w3 ++ py "REPLACE" ++ post)
    ([s; r], post).
Proof.
  intros H0 H1 H2 H3 Hs1 Hs2 Hs3 Hr1 Hr2 Hr3. unfold block_re. cbn [seqs].
  eval_py.
  set (LT := [60; 60; 60; 60; 60; 60; 60]%N).
  set (GT := [62; 62; 62; 62; 62; 62; 62]%N).
  set (EQ := [61; 61; 61; 61; 61; 61; 61]%N).
  set (SEARCH := [83; 69; 65; 82; 67; 72]%N).
  set (REPLACE := [82; 69; 80; 76; 65; 67; 69]%N).
  change [10%N; 61%N; 61%N; 61%N; 61%N; 61%N; 61%N; 61%N] with ([10%N] ++ EQ).
  change [10%N; 62%N; 62%N; 62%N; 62%N; 62%N; 62%N; 62%N] with ([10%N] ++ GT).
  rewrite <- !app_assoc.
  set (tail2 := GT ++ w3 ++ REPLACE ++ post).
  (* the closing marker *)
  assert (Hk2 : first_match
                  (Seq (Lit [10%N]) (Seq (Lit GT) (Seq WsStar (Lit REPLACE))))
                  ([10%N] ++ tail2) ([], post)).
  { apply (first_match_seq _ _ _ tail2 _ [] []); [apply first_match_lit|].
    apply (first_match_seq _ _ _ (w3 ++ REPLACE ++ post) _ [] []);
      [apply (first_match_lit GT)|].
    now apply first_match_ws_lit. }
  (* the replace section *)
  assert (Hg2 : first_match
                  (Seq (Group AnyLazy)
                     (Seq (Lit [10%N]) (Seq (Lit GT) (Seq WsStar (Lit REPLACE)))))
                  (r ++ [10%N] ++ tail2) ([r], post)).
  { rewrite <- (firstn_app_exact (length r) r ([10%N] ++ tail2) eq_refl) at 2.
    apply lazy_until_matches.
    - rewrite length_app. lia.
    - intros e He. apply run_two_lits_none.
      change (startswith (10%N :: GT)
                (skipn e (r ++ (10%N :: GT) ++ (w3 ++ REPLACE ++ post)))
              = false).
      apply no_earlier_occurrence; auto.
      vm_compute. intuition discriminate.
    - rewrite (skipn_app_exact (length r) r _ eq_refl). exact Hk2. }
  assert (Hw2 : first_match
                  (Seq WsStar
                     (Seq (Lit [10%N])
                        (Seq (Group AnyLazy)
                           (Seq (Lit [10%N])
                              (Seq (Lit GT) (Seq WsStar (Lit REPLACE)))))))
                  (w2 ++ [10%N] ++ r ++ [10%N] ++ tail2) ([r], post)).
  { apply first_match_ws_prefix; [exact H2|].
    apply (ws_then_newline _ (r ++ [10%N] ++ tail2)); [|exact Hg2].
    now rewrite lead_app. }
  set (tail1 := w2 ++ [10%N] ++ r ++ [10%N] ++ tail2) in *.
  (* the dividing line and the search section *)
  assert (Hg1 : first_match
                  (Seq (Group AnyLazy)
                     (Seq (Lit [10%N])
                        (Seq (Lit EQ)
                           (Seq WsStar
                              (Seq (Lit [10%N])
                                 (Seq (Group AnyLazy)
                                    (Seq (Lit [10%N])
                                       (Seq (Lit GT)
                                          (Seq WsStar (Lit REPLACE))))))))))
                  (s ++ [10%N] ++ EQ ++ tail1) ([s; r], post)).
  { rewrite <- (firstn_app_exact (length s) s ([10%N] ++ EQ ++ tail1) eq_refl) at 2.
    apply lazy_until_matches.
    - rewrite length_app. lia.
    - intros e He. apply run_two_lits_none.
      change (startswith (10%N :: EQ) (skipn e (s ++ (10%N :: EQ) ++ tail1))
              = false).
      apply no_earlier_occurrence; auto.
      vm_compute. intuition discriminate.
    - rewrite (skipn_app_exact (length s) s _ eq_refl).
      apply (first_match_seq _ _ _ (EQ ++ tail1) _ [] [r]);
        [apply first_match_lit|].
      apply (first_match_seq _ _ _ tail1 _ [] [r]);
        [apply first_match_lit | exact Hw2]. }
  (* the opening marker *)
  apply (first_match_seq _ _ _
           (w0 ++ SEARCH ++ w1 ++ [10%N] ++ s ++ [10%N] ++ EQ ++ tail1)
           _ [] [s; r]);
    [apply (first_match_lit LT)|].
  apply (first_match_seq _ _ _
           (SEARCH ++ w1 ++ [10%N] ++ s ++ [10%N] ++ EQ ++ tail1) _ [] [s; r]).
  { replace (SEARCH ++ w1 ++ [10%N] ++ s ++ [10%N] ++ EQ ++ tail1)
      with (lstrip (w0 ++ SEARCH ++ w1 ++ [10%N] ++ s ++ [10%N] ++ EQ ++ tail1))
      at 2; [apply first_match_ws|].
    rewrite lstrip_app_spaces by exact H0. reflexivity. }
  apply (first_match_seq _ _ _ (w1 ++ [10%N] ++ s ++ [10%N] ++ EQ ++ tail1)
           _ [] [s; r]);
    [apply first_match_lit|].
  apply first_match_ws_prefix; [exact H1|].
  apply (ws_then_newline _ (s ++ [10%N] ++ EQ ++ tail1)); [|exact Hg1].
  now rewrite lead_app.
Qed.

(** [X22] White space next to the markers is not part of an operation.  A
    block may have white space between [<<<<<<<] and [SEARCH], after
    [SEARCH], after the dividing marker and between [>>>>>>>] and [REPLACE];
    white space after [SEARCH] or after the dividing marker includes blank
    lines, so blank lines at the head of a section are dropped.  The
    operation read back holds the two sections from their first non-blank
    line on. *)
Theorem marker_whitespace_ignored :
  forall (w0 w1 w2 w3 s r post : str),
    forallb isspace w0 = true -> forallb isspace w1 = true ->
    forallb isspace w2 = true -> forallb isspace w3 = true ->
    lstrip s <> [] -> ~ In LF (firstn (indent_width s) s) ->
    contains (py "\n=======") s = false ->
    lstrip r <> [] -> ~ In LF (firstn (indent_width r) r) ->
    contains (py "\n>>>>>>>") r = false ->
    contains (py "```")
      (py "<<<<<<<" ++ w0 ++ py "SEARCH" ++ w1 ++ py "\n" ++ s
         ++ py "\n=======" ++ w2 ++ py "\n" ++ r
         ++ py "\n>>>>>>>" ++ w3 ++ py "REPLACE" ++ post) = false ->
    parse_search_replace_response
      (py "<<<<<<<" ++ w0 ++ py "SEARCH" ++ w1 ++ py "\n" ++ s
         ++ py "\n=======" ++ w2 ++ py "\n" ++ r
         ++ py "\n>>>>>>>" ++ w3 ++ py "REPLACE" ++ post)
    = {| search_text := s; replace_text := r |}
        :: parse_search_replace_response post.
Proof.
  intros w0 w1 w2 w3 s r post H0 H1 H2 H3 Hs1 Hs2 Hs3 Hr1 Hr2 Hr3 HF.
  assert (Fpost : contains (py "```") post = false).
  { refine (contains_infix_false _ post _ _ HF).
    exists (py "<<<<<<<" ++ w0 ++ py "SEARCH" ++ w1 ++ py "\n" ++ s
              ++ py "\n=======" ++ w2 ++ py "\n" ++ r
              ++ py "\n>>>>>>>" ++ w3 ++ py "REPLACE"), [].
    rewrite app_nil_r, <- !app_assoc. reflexivity. }
  unfold parse_search_replace_response.
  rewrite (sub_fence_identity _ HF), (sub_fence_identity _ Fpost).
  destruct (block_re_match_spaced w0 w1 w2 w3 s r post
              H0 H1 H2 H3 Hs1 Hs2 Hs3 Hr1 Hr2 Hr3) as [ts H].
  unfold re_finditer. rewrite (scan_hit _ _ _ _ _ H); [reflexivity|].
  rewrite !length_app. eval_py. cbn [length]. lia.
Qed.

Lemma marker_whitespace_ignored_witness :
  parse_search_replace_response
    (py "<<<<<<<" ++ py "  " ++ py "SEARCH" ++ py " \n" ++ py "\n"
       ++ py "    foo();"
       ++ py "\n=======" ++ py " " ++ py "\n" ++ py "    bar();"
       ++ py "\n>>>>>>>" ++ [] ++ py "REPLACE" ++ py "\n")
  = {| search_text := py "    foo();"; replace_text := py "    bar();" |}
      :: parse_search_replace_response (py "\n").
Proof.
  apply (marker_whitespace_ignored
           (py "  ") (py " \n") (py " ") [] (py "    foo();") (py "    bar();")
           (py "\n"));
    try (vm_compute; reflexivity);
    try (vm_compute; discriminate);
    try (vm_compute; intros H; repeat (destruct H as [H | H]; [discriminate H|]); exact H).
Defined.

(** * Deletions

    An empty replace section written with a blank line between the dividing
    line and the closing line. *)

Lemma run_lazy_none (k0 : regex) (x : str) :
  (forall e, e <= length x -> run k0 (skipn e x) = []) ->
  run (Seq (Group AnyLazy) k0) x = [].
Proof.
  intros H. destruct (run (Seq (Group AnyLazy) k0) x) as [|t ts] eqn:E;
    [reflexivity|].
  exfalso.
  destruct (run_seq_inv (Group AnyLazy) k0 x t) as (t1 & t2 & H1 & H2 & _);
    [rewrite E; now left|].
  apply run_group_lazy_inv in H1 as (g & _ & Hx).
  assert (Hs : skipn (length g) x = snd t1).
  { rewrite Hx at 1. now apply skipn_app_exact. }
  rewrite <- Hs, H in H2; [destruct H2|].
  rewrite Hx, length_app. lia.
Qed.

(** [\s*\n] in front of a blank line: when what follows cannot be matched
    right after the blank line, the newline matched is the first one. *)
Lemma ws_blank_line (k0 : regex) (c : char) (y : str) (t : thread) :
  isspace c = false ->
  run k0 (c :: y) = [] ->
  first_match k0 (LF :: c :: y) t ->
  first_match (Seq WsStar (Seq (Lit [LF]) k0)) (LF :: LF :: c :: y) t.
Proof.
  intros Hc Hnone Hm.
  assert (HcLF : LF <> c) by (intros <-; discriminate Hc).
  destruct (first_match_seq_backtrack WsStar (Seq (Lit [LF]) k0)
              (LF :: LF :: c :: y) (fun t' => t' = t))
    as (t' & Ht' & ->); [| |exact Ht'].
  - exists ([], LF :: LF :: c :: y). split.
    + cbn [run]. apply in_map. apply ws_star_self.
    + cbn [snd]. change (LF :: LF :: c :: y) with ([LF] ++ LF :: c :: y).
      rewrite run_seq_lit. intros Hnil. apply map_eq_nil in Hnil.
      now apply (first_match_nonempty _ _ _ Hm).
  - intros [g1 x] t2 Hin Ht2. apply run_ws_inv in Hin as (Hg & w & Hw & Hsp).
    cbn [fst snd] in *. subst g1.
    destruct x as [|d x'].
    { apply first_match_nonempty in Ht2. now contradiction Ht2. }
    destruct (N.eqb_spec LF d) as [<- | Hd].
    2:{ apply first_match_nonempty in Ht2. contradiction Ht2.
        apply run_seq_nil, run_lit_none. cbn [startswith].
        apply N.eqb_neq in Hd. now rewrite Hd. }
    change (LF :: x') with ([LF] ++ x') in Ht2.
    apply first_match_seq_lit in Ht2.
    destruct w as [|a [|b w]]; cbn [app] in Hw.
    + injection Hw as <-.
      rewrite (first_match_unique _ _ _ _ Ht2 Hm). now destruct t.
    + injection Hw as _ <-. apply first_match_nonempty in Ht2.
      contradiction.
    + exfalso. injection Hw as _ _ Hw.
      destruct w as [|e w]; cbn [app] in Hw.
      * injection Hw as Hw _. congruence.
      * injection Hw as <- _. cbn [forallb] in Hsp.
        rewrite Hc in Hsp. rewrite !andb_false_r in Hsp. discriminate.
Qed.

Lemma block_re_match_deletion (s post : str) :
  lstrip s <> [] -> ~ In LF (firstn (indent_width s) s) ->
  contains (py "\n=======") s = false ->
  contains (py "\n>>>>>>>") post = false ->
  first_match block_re
    (py "<<<<<<< SEARCH\n" ++ s ++ py "\n=======\n\n>>>>>>> REPLACE" ++ post)
    ([s; []], post).
Proof.
  intros Hs1 Hs2 Hs3 Hpost. unfold block_re. cbn [seqs]. eval_py.
  cbn [app].
  set (GT := [62; 62; 62; 62; 62; 62; 62]%N).
  set (EQ := [61; 61; 61; 61; 61; 61; 61]%N).
  set (REPLACE := [82; 69; 80; 76; 65; 67; 69]%N).
  set (y := [62; 62; 62; 62; 62; 62; 32; 82; 69; 80; 76; 65; 67; 69]%N ++ post).
  set (C := Seq (Lit [10%N]) (Seq (Lit GT) (Seq WsStar (Lit REPLACE)))).
  (* the closing marker *)
  assert (Hk2 : first_match C ([10%N] ++ 62%N :: y) ([], post)).
  { apply (first_match_seq _ _ _ (62%N :: y) _ [] []); [apply first_match_lit|].
    apply (first_match_seq _ _ _ (32%N :: REPLACE ++ post) _ [] []);
      [apply (first_match_lit GT)|].
    apply (first_match_seq _ _ _ (REPLACE ++ post) _ [] []);
      [apply (first_match_ws (32%N :: REPLACE ++ post))|].
    apply first_match_lit. }
  (* no closing marker after the closing line *)
  assert (Hno : run (Seq (Group AnyLazy) C) (62%N :: y) = []).
  { apply run_lazy_none. intros e He. apply run_two_lits_none.
    apply contains_false_nowhere; [|exact He].
    change (62%N :: y)
      with ([62; 62; 62; 62; 62; 62; 62; 32; 82; 69; 80; 76; 65; 67; 69]%N
              ++ post).
    apply (contains_after_other 10%N GT); [|exact Hpost].
    cbn [In]. intros Hin.
    repeat (destruct Hin as [Hin | Hin]; [discriminate Hin|]). exact Hin. }
  (* the empty replace section *)
  assert (Hg2 : first_match (Seq (Group AnyLazy) C) (10%N :: 62%N :: y)
                            ([[]], post)).
  { apply (lazy_until_matches C (10%N :: 62%N :: y) 0 [] post).
    - cbn [length]. lia.
    - intros e He. lia.
    - exact Hk2. }
  assert (Hw2 : first_match (Seq WsStar (Seq (Lit [10%N]) (Seq (Group AnyLazy) C)))
                            (10%N :: 10%N :: 62%N :: y) ([[]], post)).
  { apply ws_blank_line; [reflexivity | exact Hno | exact Hg2]. }
  set (tail1 := 10%N :: 10%N :: 62%N :: y) in *.
  (* the dividing line and the search section *)
  assert (Hg1 : first_match
                  (Seq (Group AnyLazy)
                     (Seq (Lit [10%N])
                        (Seq (Lit EQ)
                           (Seq WsStar
                              (Seq (Lit [10%N]) (Seq (Group AnyLazy) C))))))
                  (s ++ [10%N] ++ EQ ++ tail1) ([s; []], post)).
  { rewrite <- (firstn_app_exact (length s) s ([10%N] ++ EQ ++ tail1) eq_refl) at 2.
    apply lazy_until_matches.
    - rewrite length_app. lia.
    - intros e He. apply run_two_lits_none.
      change (startswith (10%N :: EQ) (skipn e (s ++ (10%N :: EQ) ++ tail1))
              = false).
      apply no_earlier_occurrence; auto.
      vm_compute. intuition discriminate.
    - rewrite (skipn_app_exact (length s) s _ eq_refl).
      apply (first_match_seq _ _ _ (EQ ++ tail1) _ [] [[]]);
        [apply first_match_lit|].
      apply (first_match_seq _ _ _ tail1 _ [] [[]]);
        [apply first_match_lit | exact Hw2]. }
  (* the opening marker *)
  apply (first_match_seq _ _ _
           (32%N :: [83; 69; 65; 82; 67; 72]%N
              ++ 10%N :: s ++ [10%N] ++ EQ ++ tail1) _ [] [s; []]);
    [apply (first_match_lit [60; 60; 60; 60; 60; 60; 60]%N)|].
  apply (first_match_seq _ _ _
           ([83; 69; 65; 82; 67; 72]%N ++ 10%N :: s ++ [10%N] ++ EQ ++ tail1)
           _ [] [s; []]);
    [apply (first_match_ws (32%N :: [83; 69; 65; 82; 67; 72]%N
                              ++ 10%N :: s ++ [10%N] ++ EQ ++ tail1))|].
  apply (first_match_seq _ _ _ (10%N :: s ++ [10%N] ++ EQ ++ tail1) _ [] [s; []]);
    [apply first_match_lit|].
  apply (ws_then_newline _ (s ++ [10%N] ++ EQ ++ tail1)); [|exact Hg1].
  now rewrite lead_app.
Qed.

Lemma parse_of_first_match (pre post s r : str) :
  pre <> [] ->
  contains (py "```") (pre ++ post) = false ->
  first_match block_re (pre ++ post) ([s; r], post) ->
  parse_search_replace_response (pre ++ post)
  = {| search_text := s; replace_text := r |}
      :: parse_search_replace_response post.
Proof.
  intros Hpre HF [ts H].
  assert (Fpost : contains (py "```") post = false).
  { refine (contains_infix_false _ post _ _ HF). exists pre, [].
    now rewrite app_nil_r. }
  unfold parse_search_replace_response.
  rewrite (sub_fence_identity _ HF), (sub_fence_identity _ Fpost).
  unfold re_finditer. rewrite (scan_hit _ _ _ _ _ H); [reflexivity|].
  rewrite length_app. destruct pre; [congruence | cbn [length]; lia].
Qed.

(** [X23] A deletion written with a blank line between the dividing line and
    the closing line is read as the operation with an empty replace section,
    provided no later line of the response opens with the closing marker. *)
Theorem blank_line_deletion_parsed :
  forall (s post : str),
    lstrip s <> [] -> ~ In LF (firstn (indent_width s) s) ->
    contains (py "\n=======") s = false ->
    contains (py "\n>>>>>>>") post = false ->
    contains (py "```") s = false -> contains (py "```") post = false ->
    parse_search_replace_response
      (py "<<<<<<< SEARCH\n" ++ s ++ py "\n=======\n\n>>>>>>> REPLACE" ++ post)
    = {| search_text := s; replace_text := [] |}
        :: parse_search_replace_response post.
Proof.
  intros s post Hs1 Hs2 Hs3 Hpost Fs Fpost.
  pose proof (block_re_match_deletion s post Hs1 Hs2 Hs3 Hpost) as Hm.
  assert (FT : contains (py "```")
                 (py "<<<<<<< SEARCH\n" ++ s
                    ++ py "\n=======\n\n>>>>>>> REPLACE" ++ post) = false).
  { eval_py. change [96; 96; 96]%N with (repeat 96%N 3) in *.
    apply contains_app_after; [reflexivity | | vm_compute; discriminate].
    cbn [app]. apply contains_app_before; [exact Fs | | discriminate].
    change (10%N :: 61%N :: ?x)
      with ([10; 61; 61; 61; 61; 61; 61; 61; 10; 10; 62; 62; 62; 62; 62; 62; 62;
             32; 82; 69; 80; 76; 65; 67; 69]%N ++ post).
    apply contains_app_after; [reflexivity | exact Fpost | vm_compute; discriminate]. }
  replace (py "<<<<<<< SEARCH\n" ++ s ++ py "\n=======\n\n>>>>>>> REPLACE" ++ post)
    with ((py "<<<<<<< SEARCH\n" ++ s ++ py "\n=======\n\n>>>>>>> REPLACE") ++ post)
    in *
    by (rewrite <- !app_assoc; reflexivity).
  apply parse_of_first_match; [eval_py; discriminate | exact FT | exact Hm].
Qed.

Lemma blank_line_deletion_parsed_witness :
  parse_search_replace_response
    (py "<<<<<<< SEARCH\n" ++ py "    assert(false);"
       ++ py "\n=======\n\n>>>>>>> REPLACE" ++ py "\n")
  = {| search_text := py "    assert(false);"; replace_text := [] |}
      :: parse_search_replace_response (py "\n").
Proof.
  apply (blank_line_deletion_parsed (py "    assert(false);") (py "\n"));
    try (vm_compute; reflexivity);
    try (vm_compute; discriminate);
    try (vm_compute; intros H; repeat (destruct H as [H | H]; [discriminate H|]); exact H).
Defined.

(** [X24] The same deletion followed by a later line that opens with the
    closing marker, as when another edit block comes after it: the two are
    read as one operation.  Its replace section runs from the closing line
    of the deletion to the line before the next closing line, markers
    included. *)
Theorem deletion_merges_with_next_block :
  forall (s mid post : str),
    lstrip s <> [] -> ~ In LF (firstn (indent_width s) s) ->
    contains (py "\n=======") s = false ->
    contains (py "\n>>>>>>>") mid = false ->
    contains (py "```")
      (py "<<<<<<< SEARCH\n" ++ s ++ py "\n=======\n\n>>>>>>> REPLACE"
         ++ mid ++ py "\n>>>>>>> REPLACE" ++ post) = false ->
    parse_search_replace_response
      (py "<<<<<<< SEARCH\n" ++ s ++ py "\n=======\n\n>>>>>>> REPLACE"
         ++ mid ++ py "\n>>>>>>> REPLACE" ++ post)
    = {| search_text := s; replace_text := py ">>>>>>> REPLACE" ++ mid |}
        :: parse_search_replace_response post.
Proof.
  intros s mid post Hs1 Hs2 Hs3 Hmid HF.
  assert (Hm : first_match block_re
                 (py "<<<<<<<" ++ py " " ++ py "SEARCH" ++ [] ++ py "\n" ++ s
                    ++ py "\n=======" ++ py "\n" ++ py "\n"
                    ++ (py ">>>>>>> REPLACE" ++ mid)
                    ++ py "\n>>>>>>>" ++ py " " ++ py "REPLACE" ++ post)
                 ([s; py ">>>>>>> REPLACE" ++ mid], post)).
  { apply block_re_match_spaced;
      [vm_compute; reflexivity | reflexivity | vm_compute; reflexivity
      | vm_compute; reflexivity | exact Hs1 | exact Hs2 | exact Hs3 | | |].
    - eval_py. cbn [app lstrip]. change (isspace 62%N) with false.
      cbv iota. discriminate.
    - eval_py. cbn [app]. unfold indent_width. cbn [lstrip].
      change (isspace 62%N) with false. cbv iota.
      rewrite Nat.sub_diag. cbn [firstn]. intros [].
    - eval_py. apply (contains_after_other 10%N); [|exact Hmid].
      cbn [In]. intros Hin.
      repeat (destruct Hin as [Hin | Hin]; [discriminate Hin|]). exact Hin. }
  assert (E : py "<<<<<<< SEARCH\n" ++ s ++ py "\n=======\n\n>>>>>>> REPLACE"
                ++ mid ++ py "\n>>>>>>> REPLACE" ++ post
              = (py "<<<<<<< SEARCH\n" ++ s ++ py "\n=======\n\n>>>>>>> REPLACE"
                   ++ mid ++ py "\n>>>>>>> REPLACE") ++ post).
  { rewrite <- !app_assoc. reflexivity. }
  assert (E' : py "<<<<<<<" ++ py " " ++ py "SEARCH" ++ [] ++ py "\n" ++ s
                 ++ py "\n=======" ++ py "\n" ++ py "\n"
                 ++ (py ">>>>>>> REPLACE" ++ mid)
                 ++ py "\n>>>>>>>" ++ py " " ++ py "REPLACE" ++ post
               = (py "<<<<<<< SEARCH\n" ++ s ++ py "\n=======\n\n>>>>>>> REPLACE"
                    ++ mid ++ py "\n>>>>>>> REPLACE") ++ post).
  { eval_py. repeat first [rewrite <- app_assoc | progress cbn [app]]. reflexivity. }
  rewrite E' in Hm. rewrite E in *.
  apply parse_of_first_match; [eval_py; discriminate | exact HF | exact Hm].
Qed.

Lemma deletion_merges_with_next_block_witness :
  parse_search_replace_response
    (py "<<<<<<< SEARCH\n" ++ py "    assert(false);"
       ++ py "\n=======\n\n>>>>>>> REPLACE"
       ++ py "\n<<<<<<< SEARCH\n    let x = 1;\n=======\n    let x = 2;"
       ++ py "\n>>>>>>> REPLACE" ++ py "\n")
  = {| search_text := py "    assert(false);";
       replace_text :=
         py ">>>>>>> REPLACE"
           ++ py "\n<<<<<<< SEARCH\n    let x = 1;\n=======\n    let x = 2;" |}
      :: parse_search_replace_response (py "\n").
Proof.
  apply (deletion_merges_with_next_block
           (py "    assert(false);")
           (py "\n<<<<<<< SEARCH\n    let x = 1;\n=======\n    let x = 2;")
           (py "\n"));
    try (vm_compute; reflexivity);
    try (vm_compute; discriminate);
    try (vm_compute; intros H; repeat (destruct H as [H | H]; [discriminate H|]); exact H).
Defined.

(** * Fence markers inside edit blocks *)

Lemma drop_tag_tagged (tag ws x : str) :
  In tag [py "rust"; py "verus"; py "python"; []] ->
  forallb isspace ws = true -> ws <> [] ->
  drop_tag (tag ++ ws ++ x) = ws ++ x.
Proof.
  intros [<- | [<- | [<- | [<- | []]]]] Hws Hne;
    try (unfold drop_tag; eval_py; reflexivity).
  destruct ws as [|c ws]; [congruence|].
  cbn [forallb] in Hws. apply andb_true_iff in Hws as [Hc _].
  unfold drop_tag. eval_py. cbn [app startswith].
  destruct (N.eqb_spec 114 c) as [<- | _]; [discriminate Hc|].
  destruct (N.eqb_spec 118 c) as [<- | _]; [discriminate Hc|].
  destruct (N.eqb_spec 112 c) as [<- | _]; [discriminate Hc|].
  reflexivity.
Qed.

(** One marker line in a text that holds no other marker: the marker, its
    tag and the white space after it go, the rest stays. *)
Lemma sub_fence_line (pre tag ws x : str) :
  contains (py "```") pre = false -> last pre BACKTICK <> BACKTICK ->
  In tag [py "rust"; py "verus"; py "python"; []] ->
  forallb isspace ws = true -> ws <> [] ->
  x <> [] -> lstrip x = x -> contains (py "```") x = false ->
  re_sub_empty fence_re (pre ++ py "```" ++ tag ++ ws ++ x) = pre ++ x.
Proof.
  intros Fpre Hlast Htag Hws Hne Hx Hlx Fx.
  rewrite sub_fence_first.
  - rewrite (drop_tag_tagged _ _ _ Htag Hws Hne).
    rewrite lstrip_app_spaces by exact Hws.
    now rewrite Hlx, (sub_fence_identity _ Fx).
  - split; [apply occurs_at_middle|].
    intros i Hi. apply occurs_at_dec; [rewrite length_app; lia|].
    change (py "```") with (repeat BACKTICK 3).
    apply no_straddling_occurrence; auto.
Qed.

Lemma last_opens_line (a s : str) :
  last a BACKTICK = LF ->
  s = [] \/ (exists s', s = s' ++ [LF]) ->
  last (a ++ s) BACKTICK <> BACKTICK.
Proof.
  intros Ha [-> | [s' ->]].
  - rewrite app_nil_r, Ha. discriminate.
  - rewrite app_assoc, last_last. discriminate.
Qed.

Lemma parse_fence_line_in_search (tag ws s1 s2 r post : str) :
  In tag [py "rust"; py "verus"; py "python"; []] ->
  forallb isspace ws = true -> ws <> [] ->
  s1 = [] \/ (exists s1', s1 = s1' ++ [LF]) ->
  s2 <> [] -> lstrip s2 = s2 ->
  lstrip (s1 ++ s2) <> [] ->
  ~ In LF (firstn (indent_width (s1 ++ s2)) (s1 ++ s2)) ->
  contains (py "\n=======") (s1 ++ s2) = false ->
  lstrip r <> [] -> ~ In LF (firstn (indent_width r) r) ->
  contains (py "\n>>>>>>>") r = false ->
  contains (py "```") s1 = false -> contains (py "```") s2 = false ->
  contains (py "```") r = false -> contains (py "```") post = false ->
  parse_search_replace_response
    (py "<<<<<<< SEARCH\n" ++ s1 ++ py "```" ++ tag ++ ws ++ s2
       ++ py "\n=======\n" ++ r ++ py "\n>>>>>>> REPLACE" ++ post)
  = {| search_text := s1 ++ s2; replace_text := r |}
      :: parse_search_replace_response post.
Proof.
  intros Htag Hws Hne Hs1 Hs2 Hl2 Hs Hlead Hdiv Hr1 Hr2 Hr3 F1 F2 Fr Fpost.
  unfold parse_search_replace_response.
  pose (x := s2 ++ py "\n=======\n" ++ r ++ py "\n>>>>>>> REPLACE" ++ post).
  assert (Fx : contains (py "```") x = false).
  { refine (contains_infix_false _ x _ _
              (edit_block_fence_free s2 r post F2 Fr Fpost)).
    exists (py "<<<<<<< SEARCH\n"), []. now rewrite app_nil_r. }
  assert (E : py "<<<<<<< SEARCH\n" ++ s1 ++ py "```" ++ tag ++ ws ++ s2
                ++ py "\n=======\n" ++ r ++ py "\n>>>>>>> REPLACE" ++ post
              = (py "<<<<<<< SEARCH\n" ++ s1) ++ py "```" ++ tag ++ ws ++ x).
  { unfold x. rewrite <- !app_assoc. reflexivity. }
  rewrite E, sub_fence_line; auto.
  - rewrite (sub_fence_identity _ Fpost). unfold x. rewrite <- !app_assoc.
    rewrite (app_assoc s1 s2).
    rewrite (re_finditer_edit_block (s1 ++ s2) r post Hs Hlead Hdiv Hr1 Hr2 Hr3).
    reflexivity.
  - change (py "```") with (repeat BACKTICK 3).
    apply contains_app_after; [vm_compute; reflexivity | exact F1
                              | vm_compute; discriminate].
  - apply last_opens_line; [vm_compute; reflexivity | exact Hs1].
  - unfold x. destruct s2; [congruence | discriminate].
  - unfold x. rewrite lstrip_app_keep by (rewrite Hl2; exact Hs2).
    now rewrite Hl2.
Qed.

Lemma parse_fence_line_in_replace (tag ws s r1 r2 post : str) :
  In tag [py "rust"; py "verus"; py "python"; []] ->
  forallb isspace ws = true -> ws <> [] ->
  r1 = [] \/ (exists r1', r1 = r1' ++ [LF]) ->
  r2 <> [] -> lstrip r2 = r2 ->
  lstrip s <> [] -> ~ In LF (firstn (indent_width s) s) ->
  contains (py "\n=======") s = false ->
  lstrip (r1 ++ r2) <> [] ->
  ~ In LF (firstn (indent_width (r1 ++ r2)) (r1 ++ r2)) ->
  contains (py "\n>>>>>>>") (r1 ++ r2) = false ->
  contains (py "```") s = false -> contains (py "```") r1 = false ->
  contains (py "```") r2 = false -> contains (py "```") post = false ->
  parse_search_replace_response
    (py "<<<<<<< SEARCH\n" ++ s ++ py "\n=======\n" ++ r1
       ++ py "```" ++ tag ++ ws ++ r2 ++ py "\n>>>>>>> REPLACE" ++ post)
  = {| search_text := s; replace_text := r1 ++ r2 |}
      :: parse_search_replace_response post.
Proof.
  intros Htag Hws Hne Hr1 Hr2 Hl2 Hs1 Hs2 Hs3 Hr Hlead Hclose Fs F1 F2 Fpost.
  unfold parse_search_replace_response.
  pose (x := r2 ++ py "\n>>>>>>> REPLACE" ++ post).
  pose (pre := py "<<<<<<< SEARCH\n" ++ s ++ py "\n=======\n" ++ r1).
  assert (Fx : contains (py "```") x = false).
  { refine (contains_infix_false _ x _ _
              (edit_block_fence_free s r2 post Fs F2 Fpost)).
    exists (py "<<<<<<< SEARCH\n" ++ s ++ py "\n=======\n"), [].
    rewrite app_nil_r, <- !app_assoc. reflexivity. }
  assert (Fpre : contains (py "```") pre = false).
  { refine (contains_infix_false _ pre _ _
              (edit_block_fence_free s r1 [] Fs F1 eq_refl)).
    exists [], (py "\n>>>>>>> REPLACE" ++ []).
    unfold pre. cbn [app]. rewrite <- !app_assoc. reflexivity. }
  assert (Hlast : last pre BACKTICK <> BACKTICK).
  { unfold pre. destruct Hr1 as [-> | [r1' ->]].
    - rewrite app_nil_r.
      change (py "\n=======\n") with (py "\n=======" ++ [LF]).
      rewrite !app_assoc, last_last. discriminate.
    - rewrite !app_assoc, last_last. discriminate. }
  assert (E : py "<<<<<<< SEARCH\n" ++ s ++ py "\n=======\n" ++ r1
                ++ py "```" ++ tag ++ ws ++ r2 ++ py "\n>>>>>>> REPLACE" ++ post
              = pre ++ py "```" ++ tag ++ ws ++ x).
  { unfold pre, x. rewrite <- !app_assoc. reflexivity. }
  rewrite E, sub_fence_line; auto.
  - rewrite (sub_fence_identity _ Fpost). unfold pre, x. rewrite <- !app_assoc.
    rewrite (app_assoc r1 r2).
    rewrite (re_finditer_edit_block s (r1 ++ r2) post Hs1 Hs2 Hs3 Hr Hlead Hclose).
    reflexivity.
  - unfold x. destruct r2; [congruence | discriminate].
  - unfold x. rewrite lstrip_app_keep by (rewrite Hl2; exact Hr2).
    now rewrite Hl2.
Qed.

(** [C9] The parser scans for edit blocks in the response from which
    [re.sub] has deleted every fence marker, wherever it stands and not only
    as a wrapper: no marker is left in the scanned text.  What is deleted at
    a marker is the marker, a [rust], [verus] or [python] tag after it, and
    all the white space that follows, line breaks and the indentation of the
    next line included; the text before the first marker is kept.  No parsed
    operation has a fence marker in its [search_text] or its [replace_text].
    When a fence marker line (the marker opening a line, a tag or none, then
    white space) stands inside the search section or the replace section of
    an edit block and more text of the section follows it, and the response
    holds no other marker, the text of the parsed operation is the section
    with the marker, its tag and the white space after it removed: the part
    [s1] before the marker followed by the part [s2] after that white
    space. *)
Theorem C9_every_fence_deleted :
  forall response : str,
    parse_search_replace_response response
    = map (fun m => {| search_text := group m 1; replace_text := group m 2 |})
          (re_finditer block_re (re_sub_empty fence_re response)) /\
    contains (py "```") (re_sub_empty fence_re response) = false /\
    (forall before rest,
        response = before ++ py "```" ++ rest ->
        first_occurrence (py "```") response (length before) ->
        re_sub_empty fence_re response
        = before ++ re_sub_empty fence_re (lstrip (drop_tag rest))) /\
    (forall op,
        In op (parse_search_replace_response response) ->
        contains (py "```") (search_text op) = false /\
        contains (py "```") (replace_text op) = false) /\
    (forall tag ws s1 s2 r post,
        response
        = py "<<<<<<< SEARCH\n" ++ s1 ++ py "```" ++ tag ++ ws ++ s2
            ++ py "\n=======\n" ++ r ++ py "\n>>>>>>> REPLACE" ++ post ->
        In tag [py "rust"; py "verus"; py "python"; []] ->
        forallb isspace ws = true -> ws <> [] ->
        s1 = [] \/ (exists s1', s1 = s1' ++ [LF]) ->
        s2 <> [] -> lstrip s2 = s2 ->
        lstrip (s1 ++ s2) <> [] ->
        ~ In LF (firstn (indent_width (s1 ++ s2)) (s1 ++ s2)) ->
        contains (py "\n=======") (s1 ++ s2) = false ->
        lstrip r <> [] -> ~ In LF (firstn (indent_width r) r) ->
        contains (py "\n>>>>>>>") r = false ->
        contains (py "```") s1 = false -> contains (py "```") s2 = false ->
        contains (py "```") r = false -> contains (py "```") post = false ->
        parse_search_replace_response response
        = {| search_text := s1 ++ s2; replace_text := r |}
            :: parse_search_replace_response post) /\
    (forall tag ws s r1 r2 post,
        response
        = py "<<<<<<< SEARCH\n" ++ s ++ py "\n=======\n" ++ r1
            ++ py "```" ++ tag ++ ws ++ r2 ++ py "\n>>>>>>> REPLACE" ++ post ->
        In tag [py "rust"; py "verus"; py "python"; []] ->
        forallb isspace ws = true -> ws <> [] ->
        r1 = [] \/ (exists r1', r1 = r1' ++ [LF]) ->
        r2 <> [] -> lstrip r2 = r2 ->
        lstrip s <> [] -> ~ In LF (firstn (indent_width s) s) ->
        contains (py "\n=======") s = false ->
        lstrip (r1 ++ r2) <> [] ->
        ~ In LF (firstn (indent_width (r1 ++ r2)) (r1 ++ r2)) ->
        contains (py "\n>>>>>>>") (r1 ++ r2) = false ->
        contains (py "```") s = false -> contains (py "```") r1 = false ->
        contains (py "```") r2 = false -> contains (py "```") post = false ->
        parse_search_replace_response response
        = {| search_text := s; replace_text := r1 ++ r2 |}
            :: parse_search_replace_response post).
Proof.
  intros response. split; [reflexivity|].
  split; [apply sub_fence_free|]. split; [|split; [|split]].
  - intros before rest -> H. now apply sub_fence_first.
  - intros op Hop. unfold parse_search_replace_response in Hop.
    apply in_map_iff in Hop as (m & <- & Hm). cbn [search_text replace_text].
    apply re_finditer_groups in Hm.
    split.
    + destruct (group_infix m 1 _ Hm) as [-> | Hi]; [reflexivity|].
      apply (contains_infix_false _ _ _ Hi), sub_fence_free.
    + destruct (group_infix m 2 _ Hm) as [-> | Hi]; [reflexivity|].
      apply (contains_infix_false _ _ _ Hi), sub_fence_free.
  - intros tag ws s1 s2 r post ->. apply parse_fence_line_in_search.
  - intros tag ws s r1 r2 post ->. apply parse_fence_line_in_replace.
Qed.

(** A marker line with a tag at the head of the search section, the line
    after it indented by four spaces: the operation is parsed without the
    marker line and without that indentation. *)
Lemma C9_every_fence_deleted_witness :
  parse_search_replace_response
    (py "<<<<<<< SEARCH\n" ++ [] ++ py "```" ++ py "rust" ++ py "\n    "
       ++ py "foo();" ++ py "\n=======\n" ++ py "    bar();"
       ++ py "\n>>>>>>> REPLACE" ++ [])
  = {| search_text := [] ++ py "foo();"; replace_text := py "    bar();" |}
      :: parse_search_replace_response [].
Proof.
  destruct (C9_every_fence_deleted
              (py "<<<<<<< SEARCH\n" ++ [] ++ py "```" ++ py "rust"
                 ++ py "\n    " ++ py "foo();" ++ py "\n=======\n"
                 ++ py "    bar();" ++ py "\n>>>>>>> REPLACE" ++ []))
    as (_ & _ & _ & _ & Hsearch & _).
  apply (Hsearch (py "rust") (py "\n    ") [] (py "foo();") (py "    bar();")
                 [] eq_refl);
    try (vm_compute; reflexivity);
    try (vm_compute; discriminate);
    try (vm_compute; intros H; repeat (destruct H as [H | H]; [discriminate H|]); exact H).
  - left. reflexivity.
  - left. reflexivity.
Defined.

(** Two responses on which the parsed text is not the lines between the
    markers less the marker lines.  With a fenced snippet between the
    markers whose line is indented, those lines are ["    foo"] and the
    parsed search text is ["foo"]: the indentation went with the marker.
    With nothing but a marker line in the search section, no operation is
    parsed at all. *)
Lemma C9_indentation_after_fence_lost :
  parse_search_replace_response
    (py "<<<<<<< SEARCH\n```rust\n    foo\n```\n=======\nbar\n>>>>>>> REPLACE")
  = [{| search_text := py "foo"; replace_text := py "bar" |}] /\
  py "foo" <> py "    foo" /\
  parse_search_replace_response
    (py "<<<<<<< SEARCH\n```\n=======\nbar\n>>>>>>> REPLACE")
  = [].
Proof.
  split; [vm_compute; reflexivity|].
  split; [vm_compute; discriminate|].
  vm_compute. reflexivity.
Qed.
